(** * Semantic analysis pass of deimoslang ([src/deimoslang/sem.py])

    A shallow embedding of [Scope] and [Analyzer] and the properties of the
    pass: desugaring of [times] and [until], cleanup before [return],
    legality of [return]/[break], routine lookup, variable lifetime
    tracking, branch isolation, symbol ids and hoisting of block
    definitions.

    Python objects that are mutated through more than one reference
    ([Scope] objects, reached both from [Analyzer.scope] and from the
    [parent] field of their children, and the [_active_vars] list objects,
    which [new_branch] copies with [[:]]) live in an explicit store and are
    addressed by handles.  Exceptions abort the whole run, so a computation
    is a function from the analyzer state to either a value with the next
    state or the exception raised. *)

From stdpp Require Import base list strings gmap.
From Stdlib Require Import ZArith Lia.

Local Open Scope Z_scope.

(** ** Symbols, expressions and statements (the parts of [types.py] and
       [parser.py] that [sem.py] touches) *)

Inductive SymbolKind := variable | block | label.

(** [Symbol(literal, id, kind)].  The mutable [defnode] attribute is kept
    in the store ([sym_defnode] below), keyed by the symbol.  Python
    compares symbols as objects; the analyzer makes every symbol with a new
    id, so that comparing the fields compares the objects it made. *)
Record Symbol := mkSymbol {
  sym_literal : string;
  sym_id : Z;
  sym_kind : SymbolKind }.

#[global] Instance SymbolKind_eq_dec : EqDecision SymbolKind.
Proof. solve_decision. Defined.

#[global] Instance Symbol_eq_dec : EqDecision Symbol.
Proof. solve_decision. Defined.

Definition SymbolKind_code (k : SymbolKind) : nat :=
  match k with variable => 0%nat | block => 1%nat | label => 2%nat end.

Definition Symbol_encode (s : Symbol) : string * Z * nat :=
  (sym_literal s, sym_id s, SymbolKind_code (sym_kind s)).

Definition Symbol_decode (t : string * Z * nat) : Symbol :=
  let '(l, i, k) := t in
  mkSymbol l i (match k with 0%nat => variable | 1%nat => block | _ => label end).

#[global] Instance Symbol_countable : Countable Symbol.
Proof.
  apply (inj_countable' Symbol_encode Symbol_decode).
  intros [l i []]; reflexivity.
Defined.

Inductive TokenKind := keyword_not | other_token_kind (name : string).

Record LineInfo := mkLineInfo { line : Z; column : Z; last_column : Z }.

Record Token := mkToken { tok_kind : TokenKind; tok_literal : string; tok_line_info : LineInfo }.

(** Expressions: the constructors the analyzer builds or inspects; every
    other expression of the parser is opaque to this pass. *)
Inductive Expression :=
  | IdentExpression (ident : string)
  | SymExpression (sym : Symbol)
  | NumberExpression (number : Z)
  | UnaryExpression (operator : Token) (expr : Expression)
  | GreaterExpression (lhs rhs : Expression)
  | SubExpression (lhs rhs : Expression)
  | ReadVarExpr (loc : Expression)
  | OpaqueExpression (text : string).

(** The selector of a command is opaque and hashable. *)
Definition PlayerSelector := string.

Record Command := mkCommand { player_selector : PlayerSelector; command_data : string }.

(** Statements.  Python is untyped: any field holding a statement may hold
    any statement object, or [None]; [NoneStmt] is [None] in such a
    position, and what [sem_stmt] returns for an elided statement.
    [UntilRegion] is only ever produced by the analyzer; [OtherStmt] stands
    for any object the dispatch does not know. *)
#[warnings="-register-all"]
Inductive Stmt :=
  | NoneStmt
  | BlockDefStmt (name : Expression) (body : Stmt)
  | StmtList (stmts : list Stmt)
  | CallStmt (name : Expression)
  | CommandStmt (command : Command)
  | IfStmt (expr : Expression) (branch_true branch_false : Stmt)
  | LoopStmt (body : Stmt)
  | WhileStmt (expr : Expression) (body : Stmt)
  | UntilStmt (expr : Expression) (body : Stmt)
  | TimesStmt (num : Z) (body : Stmt)
  | ReturnStmt
  | BreakStmt
  | DefVarStmt (sym : Symbol)
  | WriteVarStmt (sym : Symbol) (expr : Expression)
  | KillVarStmt (sym : Symbol)
  | UntilRegion (expr : Expression) (body : Stmt)
  | OtherStmt (text : string).

(** Truth value of a statement object in [if semmed := ...]: only [None]
    is false. *)
Definition truthy (s : Stmt) : bool :=
  match s with NoneStmt => false | _ => true end.

(** ** Errors *)

(** The messages of [SemError]. *)
Inductive SemErrorKind :=
  | UnableToFindSymbol (literal : string)
  | ActivateAlreadyActive (sym : Symbol)
  | KillNotBlockLocal
  | KillInactive (sym : Symbol)
  | OnlyIdentAllowed
  | MalformedCall
  | ReturnOutsideBlock
  | BreakOutsideLoop
  | UnhandledStatement.

(** What a run can end with instead of a value: a [SemError], one of the
    built-in Python exceptions, or one of the two outcomes that only the
    model has (a handle outside the store; a bounded loop that ran out of
    steps). *)
Inductive exn :=
  | SemError (k : SemErrorKind)
  | AttributeError
  | IndexError
  | ValueError
  | InvalidHandle
  | OutOfFuel.

(** ** The store and the analyzer state *)

Record Scope := mkScope {
  parent : option nat;
  _syms : list Symbol;
  _unique_player_selectors : gset PlayerSelector;
  _active_vars : nat;
  _cleaned_vars : gset Symbol;
  is_block : bool }.

Record Analyzer := mkAnalyzer {
  scope : option nat;
  _next_sym_id : Z;
  _block_defs : list Stmt;
  _stmts : list Stmt;
  _block_nesting_level : Z;
  _loop_nesting_level : Z;
  _loop_nesting_stack : list Z;
  (* the store *)
  scope_objs : list Scope;
  list_objs : list (list Symbol);
  sym_defnode : list (Symbol * Stmt) }.

Definition set_scope (v : option nat) (a : Analyzer) : Analyzer :=
  mkAnalyzer v (_next_sym_id a) (_block_defs a) (_stmts a) (_block_nesting_level a)
    (_loop_nesting_level a) (_loop_nesting_stack a) (scope_objs a) (list_objs a) (sym_defnode a).
Definition set_next_sym_id (v : Z) (a : Analyzer) : Analyzer :=
  mkAnalyzer (scope a) v (_block_defs a) (_stmts a) (_block_nesting_level a)
    (_loop_nesting_level a) (_loop_nesting_stack a) (scope_objs a) (list_objs a) (sym_defnode a).
Definition set_block_defs (v : list Stmt) (a : Analyzer) : Analyzer :=
  mkAnalyzer (scope a) (_next_sym_id a) v (_stmts a) (_block_nesting_level a)
    (_loop_nesting_level a) (_loop_nesting_stack a) (scope_objs a) (list_objs a) (sym_defnode a).
Definition set_stmts (v : list Stmt) (a : Analyzer) : Analyzer :=
  mkAnalyzer (scope a) (_next_sym_id a) (_block_defs a) v (_block_nesting_level a)
    (_loop_nesting_level a) (_loop_nesting_stack a) (scope_objs a) (list_objs a) (sym_defnode a).
Definition set_block_nesting_level (v : Z) (a : Analyzer) : Analyzer :=
  mkAnalyzer (scope a) (_next_sym_id a) (_block_defs a) (_stmts a) v
    (_loop_nesting_level a) (_loop_nesting_stack a) (scope_objs a) (list_objs a) (sym_defnode a).
Definition set_loop_nesting_level (v : Z) (a : Analyzer) : Analyzer :=
  mkAnalyzer (scope a) (_next_sym_id a) (_block_defs a) (_stmts a) (_block_nesting_level a)
    v (_loop_nesting_stack a) (scope_objs a) (list_objs a) (sym_defnode a).
Definition set_loop_nesting_stack (v : list Z) (a : Analyzer) : Analyzer :=
  mkAnalyzer (scope a) (_next_sym_id a) (_block_defs a) (_stmts a) (_block_nesting_level a)
    (_loop_nesting_level a) v (scope_objs a) (list_objs a) (sym_defnode a).
Definition set_scope_objs (v : list Scope) (a : Analyzer) : Analyzer :=
  mkAnalyzer (scope a) (_next_sym_id a) (_block_defs a) (_stmts a) (_block_nesting_level a)
    (_loop_nesting_level a) (_loop_nesting_stack a) v (list_objs a) (sym_defnode a).
Definition set_list_objs (v : list (list Symbol)) (a : Analyzer) : Analyzer :=
  mkAnalyzer (scope a) (_next_sym_id a) (_block_defs a) (_stmts a) (_block_nesting_level a)
    (_loop_nesting_level a) (_loop_nesting_stack a) (scope_objs a) v (sym_defnode a).
Definition set_sym_defnode (v : list (Symbol * Stmt)) (a : Analyzer) : Analyzer :=
  mkAnalyzer (scope a) (_next_sym_id a) (_block_defs a) (_stmts a) (_block_nesting_level a)
    (_loop_nesting_level a) (_loop_nesting_stack a) (scope_objs a) (list_objs a) v.

Definition with_syms (v : list Symbol) (s : Scope) : Scope :=
  mkScope (parent s) v (_unique_player_selectors s) (_active_vars s) (_cleaned_vars s) (is_block s).
Definition with_selectors (v : gset PlayerSelector) (s : Scope) : Scope :=
  mkScope (parent s) (_syms s) v (_active_vars s) (_cleaned_vars s) (is_block s).
Definition with_active_vars (v : nat) (s : Scope) : Scope :=
  mkScope (parent s) (_syms s) (_unique_player_selectors s) v (_cleaned_vars s) (is_block s).
Definition with_cleaned_vars (v : gset Symbol) (s : Scope) : Scope :=
  mkScope (parent s) (_syms s) (_unique_player_selectors s) (_active_vars s) v (is_block s).

(** ** The monad of analyzer computations *)

Inductive result (A : Type) :=
  | OK (a : A) (st : Analyzer)
  | Raise (e : exn).
Arguments OK {A} a st.
Arguments Raise {A} e.

Definition M (A : Type) : Type := Analyzer -> result A.

Definition ret {A} (a : A) : M A := fun st => OK a st.
Definition raise {A} (e : exn) : M A := fun _ => Raise e.
Definition bind {A B} (m : M A) (k : A -> M B) : M B :=
  fun st => match m st with OK a st1 => k a st1 | Raise e => Raise e end.
Definition get : M Analyzer := fun st => OK st st.
Definition modify (f : Analyzer -> Analyzer) : M unit := fun st => OK tt (f st).

Notation "'let!' x ':=' m 'in' k" := (bind m (fun x => k))
  (at level 10, x name, m at level 200, k at level 200).
Notation "'do!' m 'in' k" := (bind m (fun _ => k))
  (at level 10, m at level 200, k at level 200).

(** Store access. *)
Definition deref (h : nat) : M Scope :=
  fun st => match scope_objs st !! h with
            | Some sc => OK sc st
            | None => Raise InvalidHandle
            end.
Definition store (h : nat) (sc : Scope) : M unit :=
  fun st => match scope_objs st !! h with
            | Some _ => OK tt (set_scope_objs (<[h:=sc]> (scope_objs st)) st)
            | None => Raise InvalidHandle
            end.
Definition alloc_scope (sc : Scope) : M nat :=
  fun st => OK (length (scope_objs st)) (set_scope_objs (scope_objs st ++ [sc]) st).
Definition read_list (l : nat) : M (list Symbol) :=
  fun st => match list_objs st !! l with
            | Some xs => OK xs st
            | None => Raise InvalidHandle
            end.
Definition write_list (l : nat) (xs : list Symbol) : M unit :=
  fun st => match list_objs st !! l with
            | Some _ => OK tt (set_list_objs (<[l:=xs]> (list_objs st)) st)
            | None => Raise InvalidHandle
            end.
Definition alloc_list (xs : list Symbol) : M nat :=
  fun st => OK (length (list_objs st)) (set_list_objs (list_objs st ++ [xs]) st).

(** ** class Scope *)

(** [Scope(parent, is_block)]: a new object with its own empty lists and
    sets. *)
Definition Scope_init (parent : option nat) (is_block : bool) : M nat :=
  let! av := alloc_list [] in
  alloc_scope (mkScope parent [] ∅ av ∅ is_block).

Definition new_block (self : nat) : M nat :=
  Scope_init (Some self) true.

(** [res._active_vars = self._active_vars[:]]: the slice is a new list
    object with the same elements. *)
Definition new_branch (self : nat) : M nat :=
  let! res := Scope_init (Some self) false in
  let! me := deref self in
  let! xs := read_list (_active_vars me) in
  let! copy := alloc_list xs in
  let! r := deref res in
  do! store res (with_active_vars copy r) in
  ret res.

Definition is_block_sym_named (literal : string) (sym : Symbol) : bool :=
  bool_decide (sym_kind sym = block) && bool_decide (sym_literal sym = literal).

(** The recursion of [lookup_block_by_name] through [self.parent]; [fuel]
    bounds the number of scopes visited. *)
Fixpoint lookup_block_by_name_rec (fuel : nat) (self : nat) (literal : string) : M Symbol :=
  match fuel with
  | O => raise OutOfFuel
  | S fuel =>
      let! me := deref self in
      match find (is_block_sym_named literal) (reverse (_syms me)) with
      | Some sym => ret sym
      | None =>
          match parent me with
          | Some p => lookup_block_by_name_rec fuel p literal
          | None => raise (SemError (UnableToFindSymbol literal))
          end
      end
  end.

(** A chain of distinct scopes is no longer than the store. *)
Definition lookup_block_by_name (self : nat) (literal : string) : M Symbol :=
  let! st := get in
  lookup_block_by_name_rec (length (scope_objs st)) self literal.

(** The [while] loop of [is_block_local_var]; [cur] is [None] once the
    walk has left the root, and the next turn of the loop then reads
    [cur._syms]. *)
Fixpoint is_block_local_var_loop (fuel : nat) (cur : option nat) (sym : Symbol) : M bool :=
  match fuel with
  | O => raise OutOfFuel
  | S fuel =>
      match cur with
      | None => raise AttributeError
      | Some c =>
          let! sc := deref c in
          if bool_decide (sym ∈ _syms sc) then ret true
          else if is_block sc then ret false
          else is_block_local_var_loop fuel (parent sc) sym
      end
  end.

(** A chain of distinct scopes is no longer than the store; one more turn
    of the loop meets [None] above a root that is not a block. *)
Definition is_block_local_var (self : nat) (sym : Symbol) : M bool :=
  let! st := get in
  is_block_local_var_loop (S (length (scope_objs st))) (Some self) sym.

Definition put_sym (self : nat) (sym : Symbol) : M Symbol :=
  let! me := deref self in
  do! store self (with_syms (_syms me ++ [sym]) me) in
  ret sym.

Definition activate_var (self : nat) (sym : Symbol) : M unit :=
  let! me := deref self in
  let! xs := read_list (_active_vars me) in
  if bool_decide (sym ∈ xs) then raise (SemError (ActivateAlreadyActive sym))
  else write_list (_active_vars me) (xs ++ [sym]).

(** [list.remove(x)]: drop the first element equal to [x]. *)
Fixpoint remove_first (x : Symbol) (xs : list Symbol) : option (list Symbol) :=
  match xs with
  | [] => None
  | y :: ys => if bool_decide (y = x) then Some ys
               else match remove_first x ys with
                    | Some ys' => Some (y :: ys')
                    | None => None
                    end
  end.

Definition kill_var (self : nat) (sym : Symbol) : M unit :=
  let! local := is_block_local_var self sym in
  if negb local then raise (SemError KillNotBlockLocal)
  else
    let! me := deref self in
    let! xs := read_list (_active_vars me) in
    if negb (bool_decide (sym ∈ xs)) then raise (SemError (KillInactive sym))
    else
      do! store self (with_cleaned_vars ({[sym]} ∪ _cleaned_vars me) me) in
      match remove_first sym xs with
      | Some xs' => write_list (_active_vars me) xs'
      | None => raise ValueError
      end.

(** ** class Analyzer *)

(** [self.scope], which must be a scope to have attributes. *)
Definition the_scope : M nat :=
  let! st := get in
  match scope st with
  | Some s => ret s
  | None => raise AttributeError
  end.

Definition Analyzer_init (stmts : list Stmt) : Analyzer :=
  mkAnalyzer (Some 0%nat) 0 [] stmts 0 0 [] [mkScope None [] ∅ 0%nat ∅ true] [[]] [].

Definition open_block : M unit :=
  let! s := the_scope in
  let! b := new_block s in
  do! modify (set_scope (Some b)) in
  do! modify (fun st => set_loop_nesting_stack (_loop_nesting_stack st ++ [_loop_nesting_level st]) st) in
  do! modify (set_loop_nesting_level 0) in
  modify (fun st => set_block_nesting_level (_block_nesting_level st + 1) st).

(** [self.scope = self.scope.parent] *)
Definition leave_scope : M unit :=
  let! s := the_scope in
  let! sc := deref s in
  modify (set_scope (parent sc)).

Definition pop_loop_nesting_stack : M Z :=
  let! st := get in
  match last (_loop_nesting_stack st) with
  | Some v => do! modify (set_loop_nesting_stack (removelast (_loop_nesting_stack st))) in ret v
  | None => raise IndexError
  end.

Definition close_block : M unit :=
  do! leave_scope in
  let! v := pop_loop_nesting_stack in
  do! modify (set_loop_nesting_level v) in
  modify (fun st => set_block_nesting_level (_block_nesting_level st - 1) st).

(** [self.scope = self.scope.new_branch()] *)
Definition enter_branch : M unit :=
  let! s := the_scope in
  let! b := new_branch s in
  modify (set_scope (Some b)).

Definition open_loop : M unit :=
  do! enter_branch in
  modify (fun st => set_loop_nesting_level (_loop_nesting_level st + 1) st).

Definition close_loop : M unit :=
  do! leave_scope in
  modify (fun st => set_loop_nesting_level (_loop_nesting_level st - 1) st).

Definition gen_sym_id : M Z :=
  let! st := get in
  let result := _next_sym_id st in
  do! modify (set_next_sym_id (_next_sym_id st + 1)) in
  ret result.

Definition gen_block_sym (name : string) : M Symbol :=
  let! s := the_scope in
  let! i := gen_sym_id in
  put_sym s (mkSymbol name i block).

Definition gen_var_sym (name : string) : M Symbol :=
  let! s := the_scope in
  let! i := gen_sym_id in
  put_sym s (mkSymbol (":" ++ name ++ ":") i variable).

Definition gen_label_sym (name : string) : M Symbol :=
  let! s := the_scope in
  let! i := gen_sym_id in
  put_sym s (mkSymbol (":" ++ name) i label).

Definition def_var : M Symbol :=
  let! var_sym := gen_var_sym "anonymous" in
  let! s := the_scope in
  do! activate_var s var_sym in
  ret var_sym.

Definition mark_var_dead (sym : Symbol) : M unit :=
  let! s := the_scope in
  kill_var s sym.

(** [for var in reversed(lst)]: the iterator keeps an index into the list
    object, starting at the last position and going down; it reads the
    list as it is at each step, and stops at an index past the end.  Here
    [n] is the index plus one. *)
Fixpoint gen_cleanup_loop (n : nat) (lst : nat) (res : list Stmt) : M (list Stmt) :=
  match n with
  | O => ret res
  | S i =>
      let! xs := read_list lst in
      match xs !! i with
      | None => ret res
      | Some var =>
          do! mark_var_dead var in
          gen_cleanup_loop i lst (res ++ [KillVarStmt var])
      end
  end.

Definition gen_cleanup_all_vars : M Stmt :=
  let! s := the_scope in
  let! sc := deref s in
  let! xs := read_list (_active_vars sc) in
  let! res := gen_cleanup_loop (length xs) (_active_vars sc) [] in
  ret (StmtList res).

Definition sem_expr (expr : Expression) : Expression := expr.

(** [for inner in stmts: if semmed := f(inner): res.append(semmed)] *)
Fixpoint sem_each (f : Stmt -> M Stmt) (stmts : list Stmt) (res : list Stmt) : M (list Stmt) :=
  match stmts with
  | [] => ret res
  | inner :: rest =>
      let! semmed := f inner in
      sem_each f rest (if truthy semmed then res ++ [semmed] else res)
  end.

Definition not_token : Token := mkToken keyword_not "not" (mkLineInfo (-1) (-1) (-1)).

(** The body of [sem_stmt]; the parameter [sem_stmt] stands for the
    recursive calls [self.sem_stmt(...)]. *)
Definition sem_stmt_body (sem_stmt : Stmt -> M Stmt) (stmt : Stmt) : M Stmt :=
  match stmt with
  | BlockDefStmt name body =>
      match name with
      | IdentExpression ident =>
          let! sym := gen_block_sym ident in
          match body with
          | StmtList stmts =>
              do! open_block in
              let! body' := sem_stmt (StmtList (stmts ++ [ReturnStmt])) in
              do! close_block in
              let stmt' := BlockDefStmt (SymExpression sym) body' in
              do! modify (fun st => set_sym_defnode ((sym, stmt') :: sym_defnode st) st) in
              do! modify (fun st => set_block_defs (_block_defs st ++ [stmt']) st) in
              ret NoneStmt
          | _ => raise AttributeError
          end
      | _ => raise (SemError OnlyIdentAllowed)
      end
  | StmtList stmts =>
      let! res := sem_each sem_stmt stmts [] in
      ret (StmtList res)
  | CallStmt name =>
      let! sym := match name with
                  | IdentExpression ident =>
                      let! s := the_scope in lookup_block_by_name s ident
                  | SymExpression sym => ret sym
                  | _ => raise (SemError MalformedCall)
                  end in
      ret (CallStmt (SymExpression sym))
  | CommandStmt command =>
      let! s := the_scope in
      let! sc := deref s in
      do! store s (with_selectors ({[player_selector command]} ∪ _unique_player_selectors sc) sc) in
      ret stmt
  | IfStmt expr branch_true branch_false =>
      let expr' := sem_expr expr in
      do! enter_branch in
      let! branch_true' := sem_stmt branch_true in
      do! leave_scope in
      do! enter_branch in
      let! branch_false' := sem_stmt branch_false in
      do! leave_scope in
      ret (IfStmt expr' branch_true' branch_false')
  | LoopStmt body =>
      do! open_loop in
      let! body' := sem_stmt body in
      do! close_loop in
      ret (LoopStmt body')
  | WhileStmt expr body =>
      let expr' := sem_expr expr in
      do! open_loop in
      let! body' := sem_stmt body in
      do! close_loop in
      ret (WhileStmt expr' body')
  | UntilStmt expr0 body0 =>
      do! open_loop in
      let expr := sem_expr expr0 in
      let! body := sem_stmt body0 in
      do! close_loop in
      ret (IfStmt expr (StmtList [])
             (StmtList [UntilRegion expr (WhileStmt (UnaryExpression not_token expr) body)]))
  | TimesStmt num body =>
      let! var_sym := def_var in
      let prologue := [DefVarStmt var_sym; WriteVarStmt var_sym (NumberExpression num)] in
      let epilogue := [KillVarStmt var_sym] in
      let cond := GreaterExpression (ReadVarExpr (SymExpression var_sym)) (NumberExpression 0) in
      match body with
      | StmtList stmts =>
          let body1 :=
            StmtList (stmts ++ [WriteVarStmt var_sym
               (SubExpression (ReadVarExpr (SymExpression var_sym)) (NumberExpression 1))]) in
          let! w := sem_stmt (WhileStmt cond body1) in
          let res := StmtList (prologue ++ [w] ++ epilogue) in
          do! mark_var_dead var_sym in
          ret res
      | _ => raise AttributeError
      end
  | ReturnStmt =>
      let! st := get in
      if (_block_nesting_level st <=? 0)%Z then raise (SemError ReturnOutsideBlock)
      else
        let! cleanup := gen_cleanup_all_vars in
        ret (StmtList [cleanup; stmt])
  | BreakStmt =>
      let! st := get in
      if (_loop_nesting_level st <=? 0)%Z then raise (SemError BreakOutsideLoop)
      else ret stmt
  | DefVarStmt _ | WriteVarStmt _ _ | KillVarStmt _ => ret stmt
  | _ => raise (SemError UnhandledStatement)
  end.

(** [sem_stmt]; [fuel] bounds the depth of the recursion (the appended
    statements of the block and [times] cases make the recursion
    non-structural). *)
Fixpoint sem_stmt (fuel : nat) (stmt : Stmt) : M Stmt :=
  match fuel with
  | O => raise OutOfFuel
  | S fuel => sem_stmt_body (sem_stmt fuel) stmt
  end.

(** [analyze_program]; it runs on the statements the analyzer was built
    with. *)
Definition analyze_program (fuel : nat) : M unit :=
  let! st := get in
  let! res := sem_each (sem_stmt fuel) (_stmts st) [] in
  modify (set_stmts res).

(** What [Analyzer(stmts).analyze_program()] leaves in the analyzer. *)
Definition run_analyzer (fuel : nat) (stmts : list Stmt) : result unit :=
  analyze_program fuel (Analyzer_init stmts).

(** * Reasoning about computations *)

Lemma bind_OK {A B} (m : M A) (k : A -> M B) st b st' :
  bind m k st = OK b st' ->
  exists a st1, m st = OK a st1 /\ k a st1 = OK b st'.
Proof.
  unfold bind. destruct (m st) as [a st1|e]; [eauto | discriminate].
Qed.

Lemma bind_eq {A B} (m : M A) (k : A -> M B) st a st1 :
  m st = OK a st1 -> bind m k st = k a st1.
Proof. unfold bind. intros ->. reflexivity. Qed.

Lemma bind_raise {A B} (m : M A) (k : A -> M B) st e :
  m st = Raise e -> bind m k st = Raise e.
Proof. unfold bind. intros ->. reflexivity. Qed.

(** Splits a hypothesis [H : (let! x := m in k) st = OK b st'] into the
    runs of [m] and of [k]. *)
Tactic Notation "bind_inv" hyp(H) "as" simple_intropattern(a) simple_intropattern(st1)
    ident(H1) :=
  apply bind_OK in H; destruct H as (a & st1 & H1 & H).

(** ** Reading and writing the store *)

Lemma the_scope_eq st c : scope st = Some c -> the_scope st = OK c st.
Proof. unfold the_scope, bind, get, ret. intros ->. reflexivity. Qed.

Lemma the_scope_OK st c st' : the_scope st = OK c st' -> scope st = Some c /\ st' = st.
Proof.
  unfold the_scope, bind, get, ret, raise.
  destruct (scope st); intros H; [injection H as <- <-; auto | discriminate].
Qed.

Lemma deref_eq st h sc : scope_objs st !! h = Some sc -> deref h st = OK sc st.
Proof. unfold deref. intros ->. reflexivity. Qed.

Lemma deref_OK st h sc st' : deref h st = OK sc st' -> scope_objs st !! h = Some sc /\ st' = st.
Proof.
  unfold deref. destruct (scope_objs st !! h); intros H;
    [injection H as <- <-; auto | discriminate].
Qed.

Lemma read_list_eq st l xs : list_objs st !! l = Some xs -> read_list l st = OK xs st.
Proof. unfold read_list. intros ->. reflexivity. Qed.

Lemma read_list_OK st l xs st' :
  read_list l st = OK xs st' -> list_objs st !! l = Some xs /\ st' = st.
Proof.
  unfold read_list. destruct (list_objs st !! l); intros H;
    [injection H as <- <-; auto | discriminate].
Qed.

Lemma store_eq st h sc0 sc :
  scope_objs st !! h = Some sc0 ->
  store h sc st = OK tt (set_scope_objs (<[h:=sc]> (scope_objs st)) st).
Proof. unfold store. intros ->. reflexivity. Qed.

Lemma store_OK st h sc u st' :
  store h sc st = OK u st' ->
  is_Some (scope_objs st !! h) /\ st' = set_scope_objs (<[h:=sc]> (scope_objs st)) st.
Proof.
  unfold store. destruct (scope_objs st !! h) eqn:E; intros H;
    [injection H as <- <-; eauto | discriminate].
Qed.

Lemma write_list_eq st l xs0 xs :
  list_objs st !! l = Some xs0 ->
  write_list l xs st = OK tt (set_list_objs (<[l:=xs]> (list_objs st)) st).
Proof. unfold write_list. intros ->. reflexivity. Qed.

Lemma write_list_OK st l xs u st' :
  write_list l xs st = OK u st' ->
  is_Some (list_objs st !! l) /\ st' = set_list_objs (<[l:=xs]> (list_objs st)) st.
Proof.
  unfold write_list. destruct (list_objs st !! l) eqn:E; intros H;
    [injection H as <- <-; eauto | discriminate].
Qed.

(** ** Shape of the scope tree *)

(** Every scope was created after its parent, and only a block scope is a
    root. *)
Definition wf_store (objs : list Scope) : Prop :=
  forall h sc, objs !! h = Some sc ->
    match parent sc with
    | Some p => (p < h)%nat
    | None => is_block sc = true
    end.

(** [on_local_path objs h h']: [h'] is met when walking up from [h]
    through parents, with no block scope strictly before it. *)
Inductive on_local_path (objs : list Scope) : nat -> nat -> Prop :=
  | olp_here h sc :
      objs !! h = Some sc -> on_local_path objs h h
  | olp_up h sc p h' :
      objs !! h = Some sc -> is_block sc = false -> parent sc = Some p ->
      on_local_path objs p h' -> on_local_path objs h h'.

(** A symbol is block local at [h] when a scope on the local path of [h]
    declares it. *)
Definition BlockLocal (objs : list Scope) (h : nat) (sym : Symbol) : Prop :=
  exists h' sc', on_local_path objs h h' /\ objs !! h' = Some sc' /\ sym ∈ _syms sc'.

(** [on_chain objs h h']: [h'] is [h] or one of its ancestors. *)
Inductive on_chain (objs : list Scope) : nat -> nat -> Prop :=
  | oc_here h sc :
      objs !! h = Some sc -> on_chain objs h h
  | oc_up h sc p h' :
      objs !! h = Some sc -> parent sc = Some p ->
      on_chain objs p h' -> on_chain objs h h'.

Lemma is_block_local_var_loop_spec objs :
  wf_store objs ->
  forall fuel h sym st,
    scope_objs st = objs -> (h < fuel)%nat -> (h < length objs)%nat ->
    exists b, is_block_local_var_loop fuel (Some h) sym st = OK b st
              /\ (b = true <-> BlockLocal objs h sym).
Proof.
  intros Hwf fuel. induction fuel as [|fuel IH]; intros h sym st Hobjs Hf Hlen; [lia|].
  destruct (lookup_lt_is_Some_2 objs h Hlen) as [sc Hsc].
  simpl. rewrite (bind_eq _ _ _ sc st) by (apply deref_eq; congruence).
  case_bool_decide as Hin.
  - exists true. split; [reflexivity|]. split; [intros _|reflexivity].
    exists h, sc. split; [econstructor; eauto | auto].
  - destruct (is_block sc) eqn:Hb.
    + exists false. split; [reflexivity|]. split; [discriminate|].
      intros (h' & sc' & Hp & Hsc' & Hin'). exfalso.
      inversion Hp; subst; simplify_eq; congruence.
    + pose proof (Hwf h sc Hsc) as Hpar.
      destruct (parent sc) as [p|] eqn:Hp; [|congruence].
      destruct (IH p sym st Hobjs) as (b & Hrun & Hb'); [lia | lia |].
      exists b. split; [exact Hrun|]. rewrite Hb'. split.
      * intros (h' & sc' & Hpath & Hsc' & Hin').
        exists h', sc'. split; [eapply olp_up; eauto | auto].
      * intros (h' & sc' & Hpath & Hsc' & Hin').
        inversion Hpath; subst; simplify_eq.
        -- contradiction.
        -- exists h', sc'. auto.
Qed.

Lemma is_block_local_var_spec st h sym :
  wf_store (scope_objs st) -> (h < length (scope_objs st))%nat ->
  exists b, is_block_local_var h sym st = OK b st
            /\ (b = true <-> BlockLocal (scope_objs st) h sym).
Proof.
  intros Hwf Hlen. unfold is_block_local_var.
  rewrite (bind_eq _ _ _ st st) by reflexivity.
  apply is_block_local_var_loop_spec; auto.
Qed.

(** Above a root that is not a block the walk reads [None._syms]. *)
Lemma is_block_local_var_above_root st h sc sym :
  scope_objs st !! h = Some sc -> parent sc = None -> is_block sc = false ->
  sym ∉ _syms sc ->
  is_block_local_var h sym st = Raise AttributeError.
Proof.
  intros Hsc Hp Hb Hin. unfold is_block_local_var.
  rewrite (bind_eq _ _ _ st st) by reflexivity.
  cbn [is_block_local_var_loop]. rewrite (bind_eq _ _ _ sc st) by (apply deref_eq; exact Hsc).
  rewrite bool_decide_false by exact Hin. rewrite Hb, Hp.
  apply lookup_lt_Some in Hsc. destruct (length (scope_objs st)); [lia | reflexivity].
Qed.

(** ** Growth of the store *)

(** [store_le objs objs']: every scope of [objs] is still there, with the
    same parent and kind and at least the same declared symbols. *)
Definition store_le (objs objs' : list Scope) : Prop :=
  forall h sc, objs !! h = Some sc ->
    exists sc', objs' !! h = Some sc' /\ parent sc' = parent sc
                /\ is_block sc' = is_block sc
                /\ (forall x, x ∈ _syms sc -> x ∈ _syms sc').

Lemma store_le_refl objs : store_le objs objs.
Proof. intros h sc H. exists sc. auto. Qed.

Lemma store_le_trans o1 o2 o3 : store_le o1 o2 -> store_le o2 o3 -> store_le o1 o3.
Proof.
  intros H12 H23 h sc H.
  destruct (H12 h sc H) as (sc2 & H2 & Hp2 & Hb2 & Hs2).
  destruct (H23 h sc2 H2) as (sc3 & H3 & Hp3 & Hb3 & Hs3).
  exists sc3. repeat split; try congruence. auto.
Qed.

Lemma store_le_snoc objs sc : store_le objs (objs ++ [sc]).
Proof.
  intros h s H. exists s. rewrite lookup_app_l by (eapply lookup_lt_Some; eauto). auto.
Qed.

Lemma store_le_insert objs c sc sc' :
  objs !! c = Some sc -> parent sc' = parent sc -> is_block sc' = is_block sc ->
  (forall x, x ∈ _syms sc -> x ∈ _syms sc') ->
  store_le objs (<[c:=sc']> objs).
Proof.
  intros Hc Hp Hb Hs h s H. destruct (decide (h = c)) as [->|Hne].
  - simplify_eq. exists sc'. rewrite list_lookup_insert_eq by (eapply lookup_lt_Some; eauto). auto.
  - exists s. rewrite list_lookup_insert_ne by auto. auto.
Qed.

Lemma on_local_path_mono objs objs' h h' :
  store_le objs objs' -> on_local_path objs h h' -> on_local_path objs' h h'.
Proof.
  intros Hle Hp. induction Hp as [h sc Hsc | h sc p h' Hsc Hb Hpar _ IH].
  - destruct (Hle h sc Hsc) as (sc' & H' & _). econstructor; eauto.
  - destruct (Hle h sc Hsc) as (sc' & H' & Hp' & Hb' & _).
    eapply olp_up; eauto; congruence.
Qed.

Lemma BlockLocal_mono objs objs' h x :
  store_le objs objs' -> BlockLocal objs h x -> BlockLocal objs' h x.
Proof.
  intros Hle (h' & sc' & Hp & Hsc & Hin).
  destruct (Hle h' sc' Hsc) as (sc'' & H'' & _ & _ & Hs).
  exists h', sc''. split; [eapply on_local_path_mono; eauto | auto].
Qed.

Lemma BlockLocal_here objs h sc x :
  objs !! h = Some sc -> x ∈ _syms sc -> BlockLocal objs h x.
Proof. intros H Hin. exists h, sc. split; [econstructor; eauto | auto]. Qed.

Lemma BlockLocal_branch objs b sc c x :
  objs !! b = Some sc -> is_block sc = false -> parent sc = Some c ->
  BlockLocal objs c x -> BlockLocal objs b x.
Proof.
  intros Hb Hk Hp (h' & sc' & Hpath & Hsc' & Hin).
  exists h', sc'. split; [eapply olp_up; eauto | auto].
Qed.

(** ** The invariant of the analyzer state *)

Record Inv (st : Analyzer) : Prop := mkInv {
  inv_scope : exists c, scope st = Some c /\ (c < length (scope_objs st))%nat;
  inv_wf : wf_store (scope_objs st);
  inv_loc_valid : forall h sc,
    scope_objs st !! h = Some sc -> (_active_vars sc < length (list_objs st))%nat;
  inv_loc_inj : forall h1 h2 sc1 sc2,
    scope_objs st !! h1 = Some sc1 -> scope_objs st !! h2 = Some sc2 ->
    _active_vars sc1 = _active_vars sc2 -> h1 = h2;
  inv_active : forall h sc xs,
    scope_objs st !! h = Some sc -> list_objs st !! _active_vars sc = Some xs ->
    NoDup xs /\ forall x, x ∈ xs -> BlockLocal (scope_objs st) h x;
  inv_ids_lt : forall h sc x,
    scope_objs st !! h = Some sc -> x ∈ _syms sc -> 0 <= sym_id x < _next_sym_id st;
  inv_ids_all : forall i, 0 <= i < _next_sym_id st ->
    exists h sc x, scope_objs st !! h = Some sc /\ x ∈ _syms sc /\ sym_id x = i;
  inv_ids_inj : forall h1 h2 sc1 sc2 i j x y,
    scope_objs st !! h1 = Some sc1 -> scope_objs st !! h2 = Some sc2 ->
    _syms sc1 !! i = Some x -> _syms sc2 !! j = Some y ->
    sym_id x = sym_id y -> h1 = h2 /\ i = j;
  inv_ids_sorted : forall h sc i j x y,
    scope_objs st !! h = Some sc ->
    _syms sc !! i = Some x -> _syms sc !! j = Some y -> (i < j)%nat ->
    sym_id x < sym_id y;
  inv_levels : 0 <= _block_nesting_level st /\ 0 <= _loop_nesting_level st
               /\ Forall (fun v => 0 <= v) (_loop_nesting_stack st);
  inv_next : 0 <= _next_sym_id st }.

Lemma lookup_single {A} (x y : A) (h : nat) : [x] !! h = Some y -> h = 0%nat /\ y = x.
Proof. destruct h as [|h]; simpl; [intros [= <-]; auto | destruct h; discriminate]. Qed.

Lemma Inv_init stmts : Inv (Analyzer_init stmts).
Proof.
  constructor; simpl.
  - exists 0%nat. split; [reflexivity | lia].
  - intros h sc H. apply lookup_single in H as [-> ->]. reflexivity.
  - intros h sc H. apply lookup_single in H as [-> ->]. simpl. lia.
  - intros h1 h2 sc1 sc2 H1 H2 _.
    apply lookup_single in H1 as [-> ->]. apply lookup_single in H2 as [-> ->]. reflexivity.
  - intros h sc xs H Hl. apply lookup_single in H as [-> ->]. simpl in Hl.
    injection Hl as <-. split; [constructor | intros x Hx; inversion Hx].
  - intros h sc x H Hin. apply lookup_single in H as [-> ->]. inversion Hin.
  - intros i Hi. lia.
  - intros h1 h2 sc1 sc2 i j x y H1 H2 Hi.
    apply lookup_single in H1 as [-> ->]. destruct i; discriminate.
  - intros h sc i j x y H Hi. apply lookup_single in H as [-> ->]. destruct i; discriminate.
  - repeat split; try lia. constructor.
  - lia.
Qed.

(** Changing only the fields outside the store and the id counter keeps
    the invariant, as long as the current scope exists and the nesting
    levels stay non-negative. *)
Lemma Inv_scalars st st' :
  Inv st ->
  scope_objs st' = scope_objs st -> list_objs st' = list_objs st ->
  _next_sym_id st' = _next_sym_id st ->
  (exists c, scope st' = Some c /\ (c < length (scope_objs st))%nat) ->
  0 <= _block_nesting_level st' -> 0 <= _loop_nesting_level st' ->
  Forall (fun v => 0 <= v) (_loop_nesting_stack st') ->
  Inv st'.
Proof.
  intros [] Ho Hl Hn Hc Hb Hlo Hs.
  constructor; rewrite ?Ho, ?Hl, ?Hn; auto.
Qed.

(** Case analysis on a lookup in an updated list. *)
Ltac ins H :=
  apply list_lookup_insert_Some in H;
  destruct H as [(?Heq & ?Heq & ?Hlt) | (?Hne & H)]; subst.

(** Updating a scope object without touching its parent, kind, active
    list or declared symbols. *)
Lemma Inv_update_scope st c sc sc' :
  Inv st -> scope_objs st !! c = Some sc ->
  parent sc' = parent sc -> is_block sc' = is_block sc ->
  _active_vars sc' = _active_vars sc -> _syms sc' = _syms sc ->
  Inv (set_scope_objs (<[c:=sc']> (scope_objs st)) st).
Proof.
  intros HI Hc Hp Hb Ha Hs.
  assert (Hle : store_le (scope_objs st) (<[c:=sc']> (scope_objs st))).
  { eapply store_le_insert; eauto. intros x. rewrite Hs. auto. }
  destruct HI. constructor; simpl.
  - rewrite length_insert. auto.
  - intros h s H. ins H; [rewrite Hp, Hb; apply (inv_wf0 _ _ Hc) | apply (inv_wf0 _ _ H)].
  - intros h s H. ins H; [rewrite Ha; eauto | eauto].
  - intros h1 h2 s1 s2 H1 H2 E. ins H1; ins H2; rewrite ?Ha in E; eauto.
  - intros h s xs H Hl. ins H.
    + rewrite Ha in Hl. destruct (inv_active0 _ _ _ Hc Hl) as [Hnd Hbl].
      split; [auto|]. intros x Hx. eapply BlockLocal_mono; eauto.
    + destruct (inv_active0 _ _ _ H Hl) as [Hnd Hbl].
      split; [auto|]. intros x Hx. eapply BlockLocal_mono; eauto.
  - intros h s x H Hin. ins H; [rewrite Hs in Hin; eauto | eauto].
  - intros i Hi. destruct (inv_ids_all0 i Hi) as (h & s & x & H & Hin & E).
    destruct (Hle h s H) as (s' & H' & _ & _ & Hsub). exists h, s', x. auto.
  - intros h1 h2 s1 s2 i j x y H1 H2 Hi Hj E. ins H1; ins H2; rewrite ?Hs in *; eauto.
  - intros h s i j x y H Hi Hj Hlt'. ins H; rewrite ?Hs in *; eauto.
  - auto.
  - auto.
Qed.

(** Declaring a symbol with the next id in scope [c]. *)
Definition declared (c : nat) (sc : Scope) (sym : Symbol) (st : Analyzer) : Analyzer :=
  set_scope_objs (<[c:=with_syms (_syms sc ++ [sym]) sc]> (scope_objs st))
    (set_next_sym_id (_next_sym_id st + 1) st).

Lemma Inv_declared st c sc sym :
  Inv st -> scope_objs st !! c = Some sc -> sym_id sym = _next_sym_id st ->
  Inv (declared c sc sym st).
Proof.
  intros HI Hc Hid.
  assert (Hle : store_le (scope_objs st)
                  (<[c:=with_syms (_syms sc ++ [sym]) sc]> (scope_objs st))).
  { eapply store_le_insert; eauto. simpl. intros x Hx. apply elem_of_app. auto. }
  destruct HI. constructor; simpl.
  - rewrite length_insert. auto.
  - intros h s H. ins H; simpl; [apply (inv_wf0 _ _ Hc) | apply (inv_wf0 _ _ H)].
  - intros h s H. ins H; simpl; eauto.
  - intros h1 h2 s1 s2 H1 H2 E. ins H1; ins H2; simpl in *; eauto.
  - intros h s xs H Hl. ins H; simpl in *.
    + destruct (inv_active0 _ _ _ Hc Hl) as [Hnd Hbl].
      split; [auto|]. intros x Hx. eapply BlockLocal_mono; eauto.
    + destruct (inv_active0 _ _ _ H Hl) as [Hnd Hbl].
      split; [auto|]. intros x Hx. eapply BlockLocal_mono; eauto.
  - intros h s x H Hin. ins H; simpl in *.
    + apply elem_of_app in Hin as [Hin|Hin].
      * specialize (inv_ids_lt0 _ _ _ Hc Hin). lia.
      * apply list_elem_of_singleton in Hin. subst. lia.
    + specialize (inv_ids_lt0 _ _ _ H Hin). lia.
  - intros i Hi. destruct (decide (i = _next_sym_id st)) as [->|Hne].
    + exists c, (with_syms (_syms sc ++ [sym]) sc), sym.
      rewrite list_lookup_insert_eq by (eapply lookup_lt_Some; eauto).
      split; [reflexivity|]. split; [|auto]. simpl. apply elem_of_app. right.
      apply list_elem_of_singleton. reflexivity.
    + destruct (inv_ids_all0 i ltac:(lia)) as (h & s & x & H & Hin & E).
      destruct (Hle h s H) as (s' & H' & _ & _ & Hsub). exists h, s', x. auto.
  - assert (Hold : forall h s i x, scope_objs st !! h = Some s -> _syms s !! i = Some x ->
                     sym_id x < _next_sym_id st).
    { intros h s i x H Hi. eapply (inv_ids_lt0 h s x); eauto.
      eapply list_elem_of_lookup_2; eauto. }
    intros h1 h2 s1 s2 i j x y H1 H2 Hi Hj E. ins H1; ins H2; simpl in *.
    + split; [reflexivity|].
      apply lookup_snoc_Some in Hi as [[Hi1 Hi]|[-> <-]];
        apply lookup_snoc_Some in Hj as [[Hj1 Hj]|[-> <-]]; auto.
      * edestruct inv_ids_inj0 as [_ ?]; [exact Hc | exact Hc | exact Hi | exact Hj | exact E | auto].
      * specialize (Hold _ _ _ _ Hc Hi). lia.
      * specialize (Hold _ _ _ _ Hc Hj). lia.
    + apply lookup_snoc_Some in Hi as [[Hi1 Hi]|[-> <-]].
      * eapply inv_ids_inj0; eauto.
      * specialize (Hold _ _ _ _ H2 Hj). lia.
    + apply lookup_snoc_Some in Hj as [[Hj1 Hj]|[-> <-]].
      * eapply inv_ids_inj0; eauto.
      * specialize (Hold _ _ _ _ H1 Hi). lia.
    + eapply inv_ids_inj0; eauto.
  - intros h s i j x y H Hi Hj Hlt'. ins H; simpl in *; [|eauto].
    apply lookup_snoc_Some in Hi as [[Hi1 Hi]|[-> <-]];
      apply lookup_snoc_Some in Hj as [[Hj1 Hj]|[-> <-]]; try lia.
    + eauto.
    + assert (0 <= sym_id x < _next_sym_id st); [|lia].
      eapply inv_ids_lt0; eauto. eapply list_elem_of_lookup_2; eauto.
  - auto.
  - lia.
Qed.

(** Replacing the content of the active list of scope [c]. *)
Lemma Inv_write_active st c sc xs :
  Inv st -> scope_objs st !! c = Some sc ->
  NoDup xs -> (forall x, x ∈ xs -> BlockLocal (scope_objs st) c x) ->
  Inv (set_list_objs (<[_active_vars sc:=xs]> (list_objs st)) st).
Proof.
  intros HI Hc Hnd Hbl. destruct HI. constructor; simpl; auto.
  - intros h s H. rewrite length_insert. eauto.
  - intros h s ys H Hl. ins Hl.
    + assert (h = c) by eauto. subst. simplify_eq. auto.
    + eauto.
Qed.

(** Allocating a scope object whose active list is one of the list
    objects allocated with it. *)
Lemma Inv_alloc st c sc extra l xs :
  Inv st -> (c < length (scope_objs st))%nat ->
  parent sc = Some c -> _syms sc = [] ->
  (length (list_objs st) <= _active_vars sc)%nat ->
  (list_objs st ++ extra) !! _active_vars sc = Some xs ->
  NoDup xs ->
  (forall x, x ∈ xs -> BlockLocal (scope_objs st ++ [sc]) (length (scope_objs st)) x) ->
  l = list_objs st ++ extra ->
  Inv (set_scope_objs (scope_objs st ++ [sc]) (set_list_objs l st)).
Proof.
  intros HI Hclt Hp Hs Hge Hxs Hnd Hbl ->.
  pose proof (store_le_snoc (scope_objs st) sc) as Hle.
  destruct HI. constructor; simpl; auto.
  - destruct inv_scope0 as (c0 & ? & ?). exists c0. rewrite length_app. simpl. split; [auto|lia].
  - intros h s H. apply lookup_snoc_Some in H as [[_ H]|[-> <-]]; [apply (inv_wf0 _ _ H)|].
    rewrite Hp. auto.
  - intros h s H. apply lookup_snoc_Some in H as [[_ H]|[-> <-]].
    + rewrite length_app. specialize (inv_loc_valid0 _ _ H). lia.
    + eapply lookup_lt_Some; eauto.
  - intros h1 h2 s1 s2 H1 H2 E.
    apply lookup_snoc_Some in H1 as [[_ H1]|[-> <-]];
      apply lookup_snoc_Some in H2 as [[_ H2]|[-> <-]]; eauto.
    + specialize (inv_loc_valid0 _ _ H1). lia.
    + specialize (inv_loc_valid0 _ _ H2). lia.
  - intros h s ys H Hl. apply lookup_snoc_Some in H as [[_ H]|[-> <-]].
    + rewrite lookup_app_l in Hl by eauto.
      destruct (inv_active0 _ _ _ H Hl) as [? Hb]. split; [auto|].
      intros x Hx. eapply BlockLocal_mono; eauto.
    + simplify_eq. auto.
  - intros h s x H Hin. apply lookup_snoc_Some in H as [[_ H]|[-> <-]]; [eauto|].
    rewrite Hs in Hin. inversion Hin.
  - intros i Hi. destruct (inv_ids_all0 i Hi) as (h & s & x & H & Hin & E).
    destruct (Hle h s H) as (s' & H' & _ & _ & Hsub). exists h, s', x. auto.
  - intros h1 h2 s1 s2 i j x y H1 H2 Hi Hj E.
    apply lookup_snoc_Some in H1 as [[_ H1]|[-> <-]];
      apply lookup_snoc_Some in H2 as [[_ H2]|[-> <-]];
      rewrite ?Hs in *; try discriminate; eauto.
  - intros h s i j x y H Hi Hj Hlt'.
    apply lookup_snoc_Some in H as [[_ H]|[-> <-]]; rewrite ?Hs in *; try discriminate; eauto.
Qed.

(** ** What a computation leaves unchanged *)

Record scalars_eq (st st' : Analyzer) : Prop := mkScalarsEq {
  se_scope : scope st' = scope st;
  se_block : _block_nesting_level st' = _block_nesting_level st;
  se_loop : _loop_nesting_level st' = _loop_nesting_level st;
  se_stack : _loop_nesting_stack st' = _loop_nesting_stack st;
  se_stmts : _stmts st' = _stmts st;
  se_next : _next_sym_id st <= _next_sym_id st';
  se_defs : _block_defs st `prefix_of` _block_defs st' }.

Definition same_scope_shape (sc sc' : Scope) : Prop :=
  parent sc' = parent sc /\ is_block sc' = is_block sc
  /\ _active_vars sc' = _active_vars sc /\ _syms sc `prefix_of` _syms sc'.

(** [frame c st st']: between [st] and [st'] only the scope object [c] and
    its active list were updated (the scope keeps its parent, kind and
    list object and only gains symbols); other objects may have been
    created. *)
Record frame (c : nat) (st st' : Analyzer) : Prop := mkFrame {
  fr_scalars : scalars_eq st st';
  fr_cur : exists sc sc', scope_objs st !! c = Some sc /\ scope_objs st' !! c = Some sc'
                          /\ same_scope_shape sc sc';
  fr_objs : forall h sc, h <> c -> scope_objs st !! h = Some sc -> scope_objs st' !! h = Some sc;
  fr_lists : forall l xs sc, scope_objs st !! c = Some sc -> l <> _active_vars sc ->
               list_objs st !! l = Some xs -> list_objs st' !! l = Some xs }.

(** [preserved st st']: no object of [st] was updated. *)
Record preserved (st st' : Analyzer) : Prop := mkPreserved {
  pr_scalars : scalars_eq st st';
  pr_objs : forall h sc, scope_objs st !! h = Some sc -> scope_objs st' !! h = Some sc;
  pr_lists : forall l xs, list_objs st !! l = Some xs -> list_objs st' !! l = Some xs }.

Lemma scalars_eq_refl st : scalars_eq st st.
Proof. constructor; auto; lia. Qed.

Lemma scalars_eq_trans s1 s2 s3 : scalars_eq s1 s2 -> scalars_eq s2 s3 -> scalars_eq s1 s3.
Proof.
  intros [] []. constructor; try congruence; try lia.
  etransitivity; eauto.
Qed.

Lemma same_scope_shape_refl sc : same_scope_shape sc sc.
Proof. repeat split; auto. Qed.

Lemma same_scope_shape_trans a b c :
  same_scope_shape a b -> same_scope_shape b c -> same_scope_shape a c.
Proof.
  intros (? & ? & ? & ?) (? & ? & ? & ?). repeat split; try congruence.
  etransitivity; eauto.
Qed.

Lemma preserved_refl st : preserved st st.
Proof. constructor; auto using scalars_eq_refl. Qed.

Lemma preserved_trans s1 s2 s3 : preserved s1 s2 -> preserved s2 s3 -> preserved s1 s3.
Proof. intros [] []. constructor; eauto using scalars_eq_trans. Qed.

Lemma preserved_frame c st st' :
  is_Some (scope_objs st !! c) -> preserved st st' -> frame c st st'.
Proof.
  intros [sc Hc] []. constructor; eauto.
  exists sc, sc. eauto using same_scope_shape_refl.
Qed.

Lemma frame_refl c st : is_Some (scope_objs st !! c) -> frame c st st.
Proof. intros H. apply preserved_frame; auto using preserved_refl. Qed.

Lemma frame_trans c s1 s2 s3 : frame c s1 s2 -> frame c s2 s3 -> frame c s1 s3.
Proof.
  intros [Hs1 (a & b & Ha & Hb & Hab) Ho1 Hl1] [Hs2 (b' & d & Hb' & Hd & Hbd) Ho2 Hl2].
  simplify_eq. constructor.
  - eauto using scalars_eq_trans.
  - exists a, d. eauto using same_scope_shape_trans.
  - eauto.
  - intros l xs sc Hsc Hne Hl. simplify_eq.
    eapply Hl2; eauto. destruct Hab as (_ & _ & -> & _). auto.
Qed.

(** ** The operations on a state that satisfies the invariant *)

Definition opened_block (c : nat) (st : Analyzer) : Analyzer :=
  set_block_nesting_level (_block_nesting_level st + 1)
    (set_loop_nesting_level 0
       (set_loop_nesting_stack (_loop_nesting_stack st ++ [_loop_nesting_level st])
          (set_scope (Some (length (scope_objs st)))
             (set_scope_objs
                (scope_objs st ++ [mkScope (Some c) [] ∅ (length (list_objs st)) ∅ true])
                (set_list_objs (list_objs st ++ [[]]) st))))).

Lemma open_block_eq st c : scope st = Some c -> open_block st = OK tt (opened_block c st).
Proof.
  intros Hc. unfold open_block.
  rewrite (bind_eq _ _ _ c st) by (apply the_scope_eq; auto).
  reflexivity.
Qed.

Lemma Inv_opened_block st c :
  Inv st -> scope st = Some c -> Inv (opened_block c st).
Proof.
  intros HI Hc.
  assert (Hlt : (c < length (scope_objs st))%nat).
  { destruct (inv_scope _ HI) as (c' & ? & ?). congruence. }
  eapply (Inv_scalars
            (set_scope_objs
               (scope_objs st ++ [mkScope (Some c) [] ∅ (length (list_objs st)) ∅ true])
               (set_list_objs (list_objs st ++ [[]]) st))).
  - eapply (Inv_alloc st c _ [[]] _ []); simpl; eauto.
    + rewrite lookup_app_r by lia. rewrite Nat.sub_diag. reflexivity.
    + constructor.
    + intros x Hx. inversion Hx.
  - reflexivity.
  - reflexivity.
  - simpl. lia.
  - simpl. exists (length (scope_objs st)). rewrite length_app. simpl. split; [auto | lia].
  - simpl. destruct (inv_levels _ HI). lia.
  - simpl. lia.
  - simpl. destruct (inv_levels _ HI) as (? & ? & ?).
    apply Forall_app. split; [auto|]. constructor; [auto | constructor].
Qed.

Definition entered_branch (c : nat) (xs : list Symbol) (st : Analyzer) : Analyzer :=
  set_scope (Some (length (scope_objs st)))
    (set_scope_objs
       (scope_objs st ++ [mkScope (Some c) [] ∅ (S (length (list_objs st))) ∅ false])
       (set_list_objs (list_objs st ++ [[]; xs]) st)).

Lemma insert_snoc {A} (l : list A) (x y : A) : <[length l:=y]> (l ++ [x]) = l ++ [y].
Proof.
  rewrite insert_app_r_alt by lia. rewrite Nat.sub_diag. reflexivity.
Qed.

Lemma lookup_snoc_here {A} (l : list A) (x : A) : (l ++ [x]) !! length l = Some x.
Proof. rewrite lookup_app_r by lia. rewrite Nat.sub_diag. reflexivity. Qed.

Lemma enter_branch_eq st c sc xs :
  scope st = Some c -> scope_objs st !! c = Some sc ->
  list_objs st !! _active_vars sc = Some xs ->
  enter_branch st = OK tt (entered_branch c xs st).
Proof.
  intros Hc Hsc Hxs. unfold enter_branch.
  rewrite (bind_eq _ _ _ c st) by (apply the_scope_eq; auto).
  set (child := mkScope (Some c) [] ∅ (length (list_objs st)) ∅ false).
  set (st1 := set_scope_objs (scope_objs st ++ [child]) (set_list_objs (list_objs st ++ [[]]) st)).
  set (st2 := set_list_objs (list_objs st1 ++ [xs]) st1).
  assert (Hnew : new_branch c st
                 = OK (length (scope_objs st))
                      (set_scope_objs (<[length (scope_objs st):=
                          with_active_vars (length (list_objs st1)) child]> (scope_objs st2)) st2)).
  { unfold new_branch.
    rewrite (bind_eq _ _ _ (length (scope_objs st)) st1) by reflexivity.
    rewrite (bind_eq _ _ _ sc st1).
    2:{ apply deref_eq. simpl. rewrite lookup_app_l by (eapply lookup_lt_Some; eauto). auto. }
    rewrite (bind_eq _ _ _ xs st1).
    2:{ apply read_list_eq. simpl. rewrite lookup_app_l by (eapply lookup_lt_Some; eauto). auto. }
    rewrite (bind_eq _ _ _ (length (list_objs st1)) st2) by reflexivity.
    rewrite (bind_eq _ _ _ child st2) by (apply deref_eq; simpl; apply lookup_snoc_here).
    erewrite bind_eq; [reflexivity|].
    eapply store_eq. simpl. apply lookup_snoc_here. }
  rewrite (bind_eq _ _ _ _ _ Hnew). unfold modify, entered_branch. f_equal.
  simpl. rewrite insert_snoc. rewrite length_app. simpl. rewrite Nat.add_1_r.
  unfold st2, st1, set_scope_objs, set_list_objs, set_scope, with_active_vars. simpl.
  rewrite <- app_assoc. reflexivity.
Qed.

Lemma Inv_entered_branch st c sc xs :
  Inv st -> scope st = Some c -> scope_objs st !! c = Some sc ->
  list_objs st !! _active_vars sc = Some xs ->
  Inv (entered_branch c xs st).
Proof.
  intros HI Hc Hsc Hxs.
  assert (Hlt : (c < length (scope_objs st))%nat) by (eapply lookup_lt_Some; eauto).
  destruct (inv_active _ HI _ _ _ Hsc Hxs) as [Hnd Hbl].
  eapply (Inv_scalars
            (set_scope_objs
               (scope_objs st ++ [mkScope (Some c) [] ∅ (S (length (list_objs st))) ∅ false])
               (set_list_objs (list_objs st ++ [[]; xs]) st))).
  - eapply (Inv_alloc st c _ [[]; xs] _ xs); simpl; eauto.
    + rewrite lookup_app_r by lia.
      replace (S (length (list_objs st)) - length (list_objs st))%nat with 1%nat by lia.
      reflexivity.
    + intros x Hx. eapply BlockLocal_branch.
      * apply lookup_snoc_here.
      * reflexivity.
      * reflexivity.
      * eapply BlockLocal_mono; [apply store_le_snoc | auto].
  - reflexivity.
  - reflexivity.
  - simpl. lia.
  - simpl. exists (length (scope_objs st)). rewrite length_app. simpl. split; [auto | lia].
  - simpl. destruct (inv_levels _ HI). lia.
  - simpl. destruct (inv_levels _ HI) as (? & ? & ?). lia.
  - simpl. destruct (inv_levels _ HI) as (? & ? & ?). auto.
Qed.

(** Leaving a scope: the state after [close_block], [close_loop] or
    [self.scope = self.scope.parent], when the construct was entered in
    [st] and its body ended in [st2]. *)
Definition restore (st st2 : Analyzer) : Analyzer :=
  mkAnalyzer (scope st) (_next_sym_id st2) (_block_defs st2) (_stmts st2)
    (_block_nesting_level st) (_loop_nesting_level st) (_loop_nesting_stack st)
    (scope_objs st2) (list_objs st2) (sym_defnode st2).

Lemma leave_scope_eq st b sc :
  scope st = Some b -> scope_objs st !! b = Some sc ->
  leave_scope st = OK tt (set_scope (parent sc) st).
Proof.
  intros Hb Hsc. unfold leave_scope.
  rewrite (bind_eq _ _ _ b st) by (apply the_scope_eq; auto).
  rewrite (bind_eq _ _ _ sc st) by (apply deref_eq; auto).
  reflexivity.
Qed.

Lemma leave_scope_restore st st2 b sc :
  scope st2 = Some b -> scope_objs st2 !! b = Some sc -> parent sc = scope st ->
  _block_nesting_level st2 = _block_nesting_level st ->
  _loop_nesting_level st2 = _loop_nesting_level st ->
  _loop_nesting_stack st2 = _loop_nesting_stack st ->
  leave_scope st2 = OK tt (restore st st2).
Proof.
  intros Hb Hsc Hp E1 E2 E3. rewrite (leave_scope_eq _ _ _ Hb Hsc).
  unfold restore, set_scope. rewrite Hp, E1, E2, E3. reflexivity.
Qed.

Lemma close_loop_restore st st2 b sc :
  scope st2 = Some b -> scope_objs st2 !! b = Some sc -> parent sc = scope st ->
  _block_nesting_level st2 = _block_nesting_level st ->
  _loop_nesting_level st2 = _loop_nesting_level st + 1 ->
  _loop_nesting_stack st2 = _loop_nesting_stack st ->
  close_loop st2 = OK tt (restore st st2).
Proof.
  intros Hb Hsc Hp E1 E2 E3. unfold close_loop.
  rewrite (bind_eq _ _ _ _ _ (leave_scope_eq _ _ _ Hb Hsc)).
  unfold modify, restore, set_scope, set_loop_nesting_level. simpl.
  rewrite Hp, E1, E2, E3. do 2 f_equal. lia.
Qed.

Lemma removelast_snoc {A} (l : list A) (x : A) : removelast (l ++ [x]) = l.
Proof. apply removelast_last. Qed.

Lemma close_block_restore st st2 b sc :
  scope st2 = Some b -> scope_objs st2 !! b = Some sc -> parent sc = scope st ->
  _block_nesting_level st2 = _block_nesting_level st + 1 ->
  _loop_nesting_stack st2 = _loop_nesting_stack st ++ [_loop_nesting_level st] ->
  close_block st2 = OK tt (restore st st2).
Proof.
  intros Hb Hsc Hp E1 E3. unfold close_block.
  rewrite (bind_eq _ _ _ _ _ (leave_scope_eq _ _ _ Hb Hsc)).
  unfold pop_loop_nesting_stack, bind, get. simpl.
  rewrite E3, last_snoc, removelast_snoc.
  unfold modify, ret, restore. simpl. rewrite Hp, E1.
  unfold set_block_nesting_level. simpl. do 2 f_equal. lia.
Qed.

(** The body of a construct ran in a scope [b] created from [st]; leaving
    it gives back a state in which every object of [st] is as it was. *)
Lemma restore_sound st c st1 b child st2 :
  Inv st -> scope st = Some c ->
  b = length (scope_objs st) ->
  scope_objs st1 = scope_objs st ++ [child] ->
  (length (list_objs st) <= _active_vars child)%nat ->
  (forall l xs, list_objs st !! l = Some xs -> list_objs st1 !! l = Some xs) ->
  _next_sym_id st <= _next_sym_id st1 ->
  _block_defs st `prefix_of` _block_defs st1 ->
  _stmts st1 = _stmts st ->
  Inv st2 -> frame b st1 st2 ->
  Inv (restore st st2) /\ preserved st (restore st st2).
Proof.
  intros HI Hc -> Ho Hloc Hl Hn Hd Hs HI2 Hfr.
  destruct Hfr as [Hsc (s1 & s2 & Hs1 & Hs2 & Hsh) Hfo Hfl].
  rewrite Ho, lookup_snoc_here in Hs1. injection Hs1 as <-.
  assert (Hold : forall h sc, scope_objs st !! h = Some sc -> scope_objs st2 !! h = Some sc).
  { intros h sc H. apply Hfo.
    - apply lookup_lt_Some in H. lia.
    - rewrite Ho, lookup_app_l by (eapply lookup_lt_Some; eauto). auto. }
  split.
  - eapply (Inv_scalars st2); simpl; auto.
    + exists c. split; [auto|]. destruct (inv_scope _ HI) as (c' & ? & Hlt).
      assert (c' = c) by congruence. subst c'.
      destruct (lookup_lt_is_Some_2 _ _ Hlt) as [sc Hsc'].
      eapply lookup_lt_Some. eapply Hold; eauto.
    + apply (inv_levels _ HI).
    + apply (inv_levels _ HI).
    + apply (inv_levels _ HI).
  - constructor; simpl.
    + constructor; simpl; auto.
      * destruct Hsc. congruence.
      * destruct Hsc. lia.
      * destruct Hsc. etransitivity; eauto.
    + auto.
    + intros l xs H. eapply Hfl.
      * rewrite Ho. apply lookup_snoc_here.
      * apply lookup_lt_Some in H. lia.
      * auto.
Qed.

(** ** Declaring, activating and killing *)

Lemma gen_sym_eq st c sc lit k :
  scope st = Some c -> scope_objs st !! c = Some sc ->
  (let! s := the_scope in
   let! i := gen_sym_id in
   put_sym s (mkSymbol lit i k)) st
  = OK (mkSymbol lit (_next_sym_id st) k)
       (declared c sc (mkSymbol lit (_next_sym_id st) k) st).
Proof.
  intros Hc Hsc.
  rewrite (bind_eq _ _ _ c st) by (apply the_scope_eq; auto).
  rewrite (bind_eq _ _ _ (_next_sym_id st) (set_next_sym_id (_next_sym_id st + 1) st))
    by reflexivity.
  unfold put_sym.
  rewrite (bind_eq _ _ _ sc (set_next_sym_id (_next_sym_id st + 1) st))
    by (apply deref_eq; auto).
  erewrite bind_eq; [reflexivity|]. eapply store_eq. simpl. eauto.
Qed.

Lemma gen_block_sym_eq st c sc name :
  scope st = Some c -> scope_objs st !! c = Some sc ->
  gen_block_sym name st
  = OK (mkSymbol name (_next_sym_id st) block)
       (declared c sc (mkSymbol name (_next_sym_id st) block) st).
Proof. apply gen_sym_eq. Qed.

Lemma gen_var_sym_eq st c sc name :
  scope st = Some c -> scope_objs st !! c = Some sc ->
  gen_var_sym name st
  = OK (mkSymbol (":" ++ name ++ ":") (_next_sym_id st) variable)
       (declared c sc (mkSymbol (":" ++ name ++ ":") (_next_sym_id st) variable) st).
Proof. apply gen_sym_eq. Qed.

Lemma frame_declared st c sc sym :
  scope_objs st !! c = Some sc -> frame c st (declared c sc sym st).
Proof.
  intros Hsc. constructor; simpl.
  - constructor; simpl; auto. lia.
  - exists sc, (with_syms (_syms sc ++ [sym]) sc).
    rewrite list_lookup_insert_eq by (eapply lookup_lt_Some; eauto).
    repeat split; auto. simpl. apply prefix_app_r. reflexivity.
  - intros h s Hne H. rewrite list_lookup_insert_ne by auto. auto.
  - auto.
Qed.

Lemma BlockLocal_declared_somewhere objs h x :
  BlockLocal objs h x -> exists h' sc', objs !! h' = Some sc' /\ x ∈ _syms sc'.
Proof. intros (h' & sc' & _ & ? & ?). eauto. Qed.

(** An active variable was declared, so its id is below the counter. *)
Lemma active_id_lt st h sc xs x :
  Inv st -> scope_objs st !! h = Some sc -> list_objs st !! _active_vars sc = Some xs ->
  x ∈ xs -> sym_id x < _next_sym_id st.
Proof.
  intros HI Hsc Hxs Hx.
  destruct (inv_active _ HI _ _ _ Hsc Hxs) as [_ Hbl].
  destruct (BlockLocal_declared_somewhere _ _ _ (Hbl x Hx)) as (h' & sc' & H' & Hin).
  eapply inv_ids_lt; eauto.
Qed.

(** The state after [def_var] in scope [c]. *)
Definition defined_var (c : nat) (sc : Scope) (xs : list Symbol) (st : Analyzer) : Analyzer :=
  let var := mkSymbol ":anonymous:" (_next_sym_id st) variable in
  set_list_objs (<[_active_vars sc:=xs ++ [var]]> (list_objs st)) (declared c sc var st).

Lemma activate_var_eq st c sc xs sym :
  scope_objs st !! c = Some sc -> list_objs st !! _active_vars sc = Some xs ->
  sym ∉ xs ->
  activate_var c sym st
  = OK tt (set_list_objs (<[_active_vars sc:=xs ++ [sym]]> (list_objs st)) st).
Proof.
  intros Hsc Hxs Hnin. unfold activate_var.
  rewrite (bind_eq _ _ _ sc st) by (apply deref_eq; auto).
  rewrite (bind_eq _ _ _ xs st) by (apply read_list_eq; auto).
  rewrite bool_decide_eq_false_2 by auto.
  eapply write_list_eq; eauto.
Qed.

Lemma activate_var_active st c sc xs sym :
  scope_objs st !! c = Some sc -> list_objs st !! _active_vars sc = Some xs ->
  sym ∈ xs ->
  activate_var c sym st = Raise (SemError (ActivateAlreadyActive sym)).
Proof.
  intros Hsc Hxs Hin. unfold activate_var.
  rewrite (bind_eq _ _ _ sc st) by (apply deref_eq; auto).
  rewrite (bind_eq _ _ _ xs st) by (apply read_list_eq; auto).
  rewrite bool_decide_eq_true_2 by auto. reflexivity.
Qed.

Lemma def_var_eq st c sc xs :
  Inv st -> scope st = Some c -> scope_objs st !! c = Some sc ->
  list_objs st !! _active_vars sc = Some xs ->
  def_var st = OK (mkSymbol ":anonymous:" (_next_sym_id st) variable) (defined_var c sc xs st).
Proof.
  intros HI Hc Hsc Hxs. unfold def_var.
  rewrite (bind_eq _ _ _ _ _ (gen_var_sym_eq st c sc "anonymous" Hc Hsc)).
  set (var := mkSymbol ":anonymous:" (_next_sym_id st) variable).
  change (mkSymbol (":" ++ "anonymous" ++ ":") (_next_sym_id st) variable) with var.
  rewrite (bind_eq _ _ _ c (declared c sc var st)) by (apply the_scope_eq; auto).
  rewrite (bind_eq _ _ _ tt (defined_var c sc xs st)); [reflexivity|].
  etransitivity;
    [eapply (activate_var_eq (declared c sc var st) c (with_syms (_syms sc ++ [var]) sc) xs)
    | reflexivity].
  - simpl. apply list_lookup_insert_eq. eapply lookup_lt_Some; eauto.
  - auto.
  - intros Hin. pose proof (active_id_lt _ _ _ _ _ HI Hsc Hxs Hin) as Hlt. simpl in Hlt. lia.
Qed.

Lemma Inv_defined_var st c sc xs :
  Inv st -> scope st = Some c -> scope_objs st !! c = Some sc ->
  list_objs st !! _active_vars sc = Some xs ->
  Inv (defined_var c sc xs st).
Proof.
  intros HI Hc Hsc Hxs. unfold defined_var.
  set (var := mkSymbol ":anonymous:" (_next_sym_id st) variable).
  assert (HI1 : Inv (declared c sc var st)) by (apply Inv_declared; auto).
  assert (Hsc1 : scope_objs (declared c sc var st) !! c
                 = Some (with_syms (_syms sc ++ [var]) sc)).
  { simpl. apply list_lookup_insert_eq. eapply lookup_lt_Some; eauto. }
  destruct (inv_active _ HI _ _ _ Hsc Hxs) as [Hnd Hbl].
  apply (Inv_write_active (declared c sc var st) c (with_syms (_syms sc ++ [var]) sc)); auto.
  - apply NoDup_app. repeat split; auto.
    + intros x Hx Hv. apply list_elem_of_singleton in Hv. subst x.
      pose proof (active_id_lt _ _ _ _ _ HI Hsc Hxs Hx) as Hlt. simpl in Hlt. lia.
    + apply NoDup_singleton.
  - intros x Hx. apply elem_of_app in Hx as [Hx|Hx].
    + eapply BlockLocal_mono; [|apply Hbl; auto].
      eapply store_le_insert; eauto. simpl. intros y Hy. apply elem_of_app. auto.
    + apply list_elem_of_singleton in Hx. subst x.
      eapply BlockLocal_here; [exact Hsc1|]. simpl. apply elem_of_app. right.
      apply list_elem_of_singleton. reflexivity.
Qed.

Lemma frame_defined_var st c sc xs :
  scope_objs st !! c = Some sc -> frame c st (defined_var c sc xs st).
Proof.
  intros Hsc.
  destruct (frame_declared st c sc (mkSymbol ":anonymous:" (_next_sym_id st) variable) Hsc)
    as [Hs Hcur Ho Hl].
  constructor.
  - destruct Hs. constructor; auto.
  - exact Hcur.
  - exact Ho.
  - intros l ys s Hs' Hne H. simpl. simplify_eq. rewrite list_lookup_insert_ne by auto. auto.
Qed.

(** [remove_first] *)
Lemma remove_first_elem x xs :
  x ∈ xs -> exists xs', remove_first x xs = Some xs'.
Proof.
  induction xs as [|y ys IH]; intros Hin; [inversion Hin|].
  simpl. case_bool_decide; [eauto|].
  apply elem_of_cons in Hin as [->|Hin]; [congruence|].
  destruct (IH Hin) as [ys' ->]. eauto.
Qed.

Lemma remove_first_sub x xs xs' :
  remove_first x xs = Some xs' -> forall y, y ∈ xs' -> y ∈ xs.
Proof.
  revert xs'. induction xs as [|z zs IH]; intros xs' H y Hy; [discriminate|].
  simpl in H. case_bool_decide.
  - injection H as <-. apply elem_of_cons. auto.
  - destruct (remove_first x zs) as [zs'|] eqn:E; [|discriminate].
    injection H as <-. apply elem_of_cons in Hy as [->|Hy].
    + apply elem_of_cons. auto.
    + apply elem_of_cons. right. eapply IH; eauto.
Qed.

Lemma remove_first_NoDup x xs xs' :
  remove_first x xs = Some xs' -> NoDup xs -> NoDup xs' /\ x ∉ xs'.
Proof.
  revert xs'. induction xs as [|z zs IH]; intros xs' H Hnd; [discriminate|].
  apply NoDup_cons in Hnd as [Hz Hnd]. simpl in H. case_bool_decide.
  - injection H as <-. subst z. auto.
  - destruct (remove_first x zs) as [zs'|] eqn:E; [|discriminate].
    injection H as <-. destruct (IH _ eq_refl Hnd) as [Hnd' Hx]. split.
    + apply NoDup_cons. split; [|auto]. intros Hin. apply Hz. eapply remove_first_sub; eauto.
    + intros Hin. apply elem_of_cons in Hin as [->|Hin]; [congruence | auto].
Qed.

Lemma remove_first_snoc x xs :
  x ∉ xs -> remove_first x (xs ++ [x]) = Some xs.
Proof.
  induction xs as [|y ys IH]; intros Hx; simpl.
  - rewrite bool_decide_eq_true_2 by reflexivity. reflexivity.
  - apply not_elem_of_cons in Hx as [Hne Hx].
    rewrite bool_decide_eq_false_2 by congruence. rewrite IH by auto. reflexivity.
Qed.

(** The state after [kill_var] in scope [c]. *)
Definition killed_var (c : nat) (sc : Scope) (sym : Symbol) (xs' : list Symbol)
    (st : Analyzer) : Analyzer :=
  set_list_objs (<[_active_vars sc:=xs']> (list_objs st))
    (set_scope_objs (<[c:=with_cleaned_vars ({[sym]} ∪ _cleaned_vars sc) sc]> (scope_objs st)) st).

Lemma kill_var_eq st c sc xs sym :
  Inv st -> scope_objs st !! c = Some sc ->
  list_objs st !! _active_vars sc = Some xs -> sym ∈ xs ->
  exists xs', remove_first sym xs = Some xs'
              /\ kill_var c sym st = OK tt (killed_var c sc sym xs' st).
Proof.
  intros HI Hsc Hxs Hin.
  destruct (remove_first_elem _ _ Hin) as [xs' Hrm]. exists xs'. split; [auto|].
  destruct (inv_active _ HI _ _ _ Hsc Hxs) as [_ Hbl].
  destruct (is_block_local_var_spec st c sym (inv_wf _ HI)) as (b & Hrun & Hb).
  { eapply lookup_lt_Some; eauto. }
  assert (b = true) by (apply Hb; auto). subst b.
  unfold kill_var. rewrite (bind_eq _ _ _ _ _ Hrun). simpl.
  rewrite (bind_eq _ _ _ sc st) by (apply deref_eq; auto).
  rewrite (bind_eq _ _ _ xs st) by (apply read_list_eq; auto).
  rewrite bool_decide_eq_true_2 by auto. simpl.
  erewrite bind_eq; [|eapply store_eq; eauto].
  rewrite Hrm. eapply write_list_eq. simpl. eauto.
Qed.

Lemma Inv_killed_var st c sc xs sym xs' :
  Inv st -> scope_objs st !! c = Some sc ->
  list_objs st !! _active_vars sc = Some xs -> remove_first sym xs = Some xs' ->
  Inv (killed_var c sc sym xs' st).
Proof.
  intros HI Hsc Hxs Hrm. unfold killed_var.
  set (sc' := with_cleaned_vars ({[sym]} ∪ _cleaned_vars sc) sc).
  assert (HI1 : Inv (set_scope_objs (<[c:=sc']> (scope_objs st)) st))
    by (eapply Inv_update_scope; eauto).
  destruct (inv_active _ HI _ _ _ Hsc Hxs) as [Hnd Hbl].
  apply (Inv_write_active (set_scope_objs (<[c:=sc']> (scope_objs st)) st) c sc' xs'); auto.
  - simpl. apply list_lookup_insert_eq. eapply lookup_lt_Some; eauto.
  - eapply remove_first_NoDup; eauto.
  - intros x Hx. simpl. eapply BlockLocal_mono.
    + eapply store_le_insert; eauto.
    + apply Hbl. eapply remove_first_sub; eauto.
Qed.

Lemma frame_killed_var st c sc sym xs' :
  scope_objs st !! c = Some sc -> frame c st (killed_var c sc sym xs' st).
Proof.
  intros Hsc. constructor; simpl.
  - constructor; simpl; auto. lia.
  - exists sc, (with_cleaned_vars ({[sym]} ∪ _cleaned_vars sc) sc).
    rewrite list_lookup_insert_eq by (eapply lookup_lt_Some; eauto).
    repeat split; auto.
  - intros h s Hne H. rewrite list_lookup_insert_ne by auto. auto.
  - intros l ys s Hs Hne H. simplify_eq. rewrite list_lookup_insert_ne by auto. auto.
Qed.

Lemma mark_var_dead_eq st c sc xs sym :
  Inv st -> scope st = Some c -> scope_objs st !! c = Some sc ->
  list_objs st !! _active_vars sc = Some xs -> sym ∈ xs ->
  exists xs', remove_first sym xs = Some xs'
              /\ mark_var_dead sym st = OK tt (killed_var c sc sym xs' st).
Proof.
  intros HI Hc Hsc Hxs Hin.
  destruct (kill_var_eq st c sc xs sym HI Hsc Hxs Hin) as (xs' & Hrm & Hk).
  exists xs'. split; [auto|]. unfold mark_var_dead.
  rewrite (bind_eq _ _ _ c st) by (apply the_scope_eq; auto). exact Hk.
Qed.

(** ** Cleanup of all active variables *)

(** What [gen_cleanup_all_vars] does to the current scope: the active list
    becomes empty and its elements join the cleaned set. *)
Definition cleaned_up (c : nat) (sc : Scope) (xs : list Symbol) (st st' : Analyzer) : Prop :=
  exists sc',
    scope_objs st' !! c = Some sc'
    /\ list_objs st' !! _active_vars sc = Some []
    /\ _active_vars sc' = _active_vars sc
    /\ _syms sc' = _syms sc
    /\ _unique_player_selectors sc' = _unique_player_selectors sc
    /\ _cleaned_vars sc' = list_to_set xs ∪ _cleaned_vars sc.

Lemma gen_cleanup_loop_spec xs :
  forall st c sc res,
    Inv st -> scope st = Some c -> scope_objs st !! c = Some sc ->
    list_objs st !! _active_vars sc = Some xs ->
    exists st',
      gen_cleanup_loop (length xs) (_active_vars sc) res st
      = OK (res ++ map KillVarStmt (reverse xs)) st'
      /\ Inv st' /\ frame c st st' /\ cleaned_up c sc xs st st'.
Proof.
  induction xs as [|x ys IH] using rev_ind; intros st c sc res HI Hc Hsc Hxs.
  - exists st. simpl. rewrite app_nil_r.
    split; [reflexivity|]. split; [auto|]. split; [apply frame_refl; eauto|].
    exists sc. repeat split; auto. simpl. rewrite (left_id_L ∅ (∪)). reflexivity.
  - rewrite length_app, Nat.add_1_r. simpl.
    rewrite (bind_eq _ _ _ (ys ++ [x]) st) by (apply read_list_eq; auto).
    rewrite lookup_snoc_here.
    destruct (inv_active _ HI _ _ _ Hsc Hxs) as [Hnd _].
    apply NoDup_app in Hnd as (Hnd & Hdisj & _).
    assert (Hx : x ∉ ys).
    { intros Hin. apply (Hdisj x Hin). apply list_elem_of_singleton. reflexivity. }
    destruct (mark_var_dead_eq st c sc (ys ++ [x]) x HI Hc Hsc Hxs) as (xs' & Hrm & Hk).
    { apply elem_of_app. right. apply list_elem_of_singleton. reflexivity. }
    rewrite (remove_first_snoc _ _ Hx) in Hrm. injection Hrm as <-.
    rewrite (bind_eq _ _ _ _ _ Hk).
    set (st1 := killed_var c sc x ys st).
    set (sc1 := with_cleaned_vars ({[x]} ∪ _cleaned_vars sc) sc).
    assert (HI1 : Inv st1).
    { eapply Inv_killed_var; eauto. apply remove_first_snoc. auto. }
    assert (Hsc1 : scope_objs st1 !! c = Some sc1).
    { simpl. apply list_lookup_insert_eq. eapply lookup_lt_Some; eauto. }
    assert (Hxs1 : list_objs st1 !! _active_vars sc1 = Some ys).
    { simpl. apply list_lookup_insert_eq. eapply lookup_lt_Some; eauto. }
    destruct (IH st1 c sc1 (res ++ [KillVarStmt x]) HI1 Hc Hsc1 Hxs1)
      as (st' & Hrun & HI' & Hfr & (sc' & H1 & H2 & H3 & H4 & H5 & H6)).
    exists st'. split; [|split; [auto|split]].
    + change (_active_vars sc1) with (_active_vars sc) in Hrun. rewrite Hrun.
      rewrite reverse_snoc. simpl. rewrite <- app_assoc. reflexivity.
    + eapply frame_trans; [|exact Hfr]. apply frame_killed_var. auto.
    + exists sc'. simpl in *. repeat split; auto.
      rewrite H6. rewrite list_to_set_app_L. simpl.
      rewrite (right_id_L ∅ (∪)). rewrite (assoc_L (∪)). reflexivity.
Qed.

Lemma gen_cleanup_all_vars_spec st c sc xs :
  Inv st -> scope st = Some c -> scope_objs st !! c = Some sc ->
  list_objs st !! _active_vars sc = Some xs ->
  exists st',
    gen_cleanup_all_vars st = OK (StmtList (map KillVarStmt (reverse xs))) st'
    /\ Inv st' /\ frame c st st' /\ cleaned_up c sc xs st st'.
Proof.
  intros HI Hc Hsc Hxs.
  destruct (gen_cleanup_loop_spec xs st c sc [] HI Hc Hsc Hxs) as (st' & Hrun & H).
  exists st'. split; [|exact H]. unfold gen_cleanup_all_vars.
  rewrite (bind_eq _ _ _ c st) by (apply the_scope_eq; auto).
  rewrite (bind_eq _ _ _ sc st) by (apply deref_eq; auto).
  rewrite (bind_eq _ _ _ xs st) by (apply read_list_eq; auto).
  rewrite (bind_eq _ _ _ _ _ Hrun). reflexivity.
Qed.

(** The current scope and its active list, which exist in every state that
    satisfies the invariant. *)
Lemma Inv_current st :
  Inv st ->
  exists c sc xs, scope st = Some c /\ scope_objs st !! c = Some sc
                  /\ list_objs st !! _active_vars sc = Some xs.
Proof.
  intros HI. destruct (inv_scope _ HI) as (c & Hc & Hlt).
  destruct (lookup_lt_is_Some_2 _ _ Hlt) as [sc Hsc].
  destruct (lookup_lt_is_Some_2 _ _ (inv_loc_valid _ HI _ _ Hsc)) as [xs Hxs].
  eauto 10.
Qed.

(** ** Lookup of a block symbol by name *)

Definition declares_block (sc : Scope) (literal : string) : Prop :=
  exists sym, sym ∈ _syms sc /\ sym_kind sym = block /\ sym_literal sym = literal.

(** [sym] is the block symbol named [literal] that [sc] declared last. *)
Definition latest_block (sc : Scope) (literal : string) (sym : Symbol) : Prop :=
  exists pre post,
    _syms sc = pre ++ sym :: post
    /\ sym_kind sym = block /\ sym_literal sym = literal
    /\ forall y, y ∈ post -> ~ (sym_kind y = block /\ sym_literal y = literal).

(** [first_declaring objs literal h h']: walking up from [h], [h'] is the
    first scope that declares a block named [literal]. *)
Inductive first_declaring (objs : list Scope) (literal : string) : nat -> nat -> Prop :=
  | fd_here h sc :
      objs !! h = Some sc -> declares_block sc literal ->
      first_declaring objs literal h h
  | fd_up h sc p h' :
      objs !! h = Some sc -> ~ declares_block sc literal -> parent sc = Some p ->
      first_declaring objs literal p h' ->
      first_declaring objs literal h h'.

Lemma is_block_sym_named_true literal sym :
  is_block_sym_named literal sym = true <-> sym_kind sym = block /\ sym_literal sym = literal.
Proof.
  unfold is_block_sym_named. rewrite andb_true_iff, !bool_decide_eq_true. reflexivity.
Qed.

Lemma find_reverse_Some literal syms sym :
  find (is_block_sym_named literal) (reverse syms) = Some sym ->
  exists pre post,
    syms = pre ++ sym :: post
    /\ sym_kind sym = block /\ sym_literal sym = literal
    /\ forall y, y ∈ post -> ~ (sym_kind y = block /\ sym_literal y = literal).
Proof.
  induction syms as [|a l IH] using rev_ind; [discriminate|].
  rewrite reverse_snoc. simpl.
  destruct (is_block_sym_named literal a) eqn:E.
  - intros [= <-]. apply is_block_sym_named_true in E as [? ?].
    exists l, []. repeat split; auto. intros y Hy. inversion Hy.
  - intros H. destruct (IH H) as (pre & post & -> & Hk & Hl & Hpost).
    exists pre, (post ++ [a]). rewrite <- app_assoc. repeat split; auto.
    intros y Hy. apply elem_of_app in Hy as [Hy|Hy]; [auto|].
    apply list_elem_of_singleton in Hy. subst y. intros Hc.
    apply is_block_sym_named_true in Hc. congruence.
Qed.

Lemma find_reverse_None literal syms :
  find (is_block_sym_named literal) (reverse syms) = None ->
  forall y, y ∈ syms -> ~ (sym_kind y = block /\ sym_literal y = literal).
Proof.
  induction syms as [|a l IH] using rev_ind; intros H y Hy; [inversion Hy|].
  rewrite reverse_snoc in H. simpl in H.
  destruct (is_block_sym_named literal a) eqn:E; [discriminate|].
  apply elem_of_app in Hy as [Hy|Hy]; [auto|].
  apply list_elem_of_singleton in Hy. subst y. intros Hc.
  apply is_block_sym_named_true in Hc. congruence.
Qed.

Lemma lookup_block_by_name_rec_spec objs :
  wf_store objs ->
  forall fuel h literal st,
    scope_objs st = objs -> (h < fuel)%nat -> (h < length objs)%nat ->
    match lookup_block_by_name_rec fuel h literal st with
    | OK sym st' =>
        st' = st
        /\ exists h' sc', first_declaring objs literal h h' /\ objs !! h' = Some sc'
                          /\ latest_block sc' literal sym
    | Raise e =>
        e = SemError (UnableToFindSymbol literal)
        /\ forall h' sc', on_chain objs h h' -> objs !! h' = Some sc' ->
                          ~ declares_block sc' literal
    end.
Proof.
  intros Hwf fuel. induction fuel as [|fuel IH]; intros h literal st Hobjs Hf Hlen; [lia|].
  destruct (lookup_lt_is_Some_2 objs h Hlen) as [sc Hsc].
  simpl. rewrite (bind_eq _ _ _ sc st) by (apply deref_eq; congruence).
  destruct (find (is_block_sym_named literal) (reverse (_syms sc))) as [sym|] eqn:Hfind.
  - split; [reflexivity|]. exists h, sc.
    pose proof (find_reverse_Some _ _ _ Hfind) as (pre & post & Hs & Hk & Hl & Hpost).
    split; [|split; [auto|]].
    + eapply fd_here; eauto. exists sym. split; [|auto].
      rewrite Hs. apply elem_of_app. right. apply elem_of_cons. auto.
    + exists pre, post. auto.
  - assert (Hno : ~ declares_block sc literal).
    { intros (y & Hy & Hyk). eapply find_reverse_None; eauto. }
    pose proof (Hwf h sc Hsc) as Hpar.
    destruct (parent sc) as [p|] eqn:Hp.
    + specialize (IH p literal st Hobjs). 
      destruct (lookup_block_by_name_rec fuel p literal st) as [sym st'|e].
      * destruct IH as (-> & h' & sc' & Hfd & Hsc' & Hlb); [lia | lia |].
        split; [reflexivity|]. exists h', sc'. split; [eapply fd_up; eauto | auto].
      * destruct IH as (-> & Hnone); [lia | lia |].
        split; [reflexivity|]. intros h' sc' Hch Hsc'.
        inversion Hch; subst; simplify_eq; [auto|]. eapply Hnone; eauto.
    + split; [reflexivity|]. intros h' sc' Hch Hsc'.
      inversion Hch; subst; simplify_eq. auto.
Qed.

Lemma lookup_block_by_name_spec st h literal :
  wf_store (scope_objs st) -> (h < length (scope_objs st))%nat ->
  match lookup_block_by_name h literal st with
  | OK sym st' =>
      st' = st
      /\ exists h' sc', first_declaring (scope_objs st) literal h h'
                        /\ scope_objs st !! h' = Some sc' /\ latest_block sc' literal sym
  | Raise e =>
      e = SemError (UnableToFindSymbol literal)
      /\ forall h' sc', on_chain (scope_objs st) h h' -> scope_objs st !! h' = Some sc' ->
                        ~ declares_block sc' literal
  end.
Proof.
  intros Hwf Hlen. unfold lookup_block_by_name.
  rewrite (bind_eq _ _ _ st st) by reflexivity.
  apply lookup_block_by_name_rec_spec; auto.
Qed.

(** * Soundness of the analysis: invariant, frame and errors *)

(** The exceptions a run from a state satisfying the invariant can end
    with.  The lifetime errors of [activate_var] and [kill_var], and the
    exceptions of a broken store, are not among them. *)
Definition benign (e : exn) : Prop :=
  match e with
  | SemError (ActivateAlreadyActive _) | SemError KillNotBlockLocal
  | SemError (KillInactive _) => False
  | IndexError | ValueError | InvalidHandle => False
  | _ => True
  end.

(** [good m]: from a state satisfying the invariant, [m] either ends in
    such a state, having updated only the current scope, or raises a
    benign exception. *)
Definition good {A} (m : M A) : Prop :=
  forall st c, Inv st -> scope st = Some c ->
    match m st with
    | OK _ st' => Inv st' /\ frame c st st'
    | Raise e => benign e
    end.

(** [good_strong m]: the same, and [m] updates no object at all. *)
Definition good_strong {A} (m : M A) : Prop :=
  forall st c, Inv st -> scope st = Some c ->
    match m st with
    | OK _ st' => Inv st' /\ preserved st st'
    | Raise e => benign e
    end.

Lemma Inv_cur_is_Some st c : Inv st -> scope st = Some c -> is_Some (scope_objs st !! c).
Proof.
  intros HI Hc. destruct (inv_scope _ HI) as (c' & ? & Hlt).
  assert (c' = c) by congruence. subst. apply lookup_lt_is_Some_2. auto.
Qed.

Lemma Inv_after_good {A} (m : M A) st a st' :
  good m -> Inv st -> m st = OK a st' -> Inv st'.
Proof.
  intros Hm HI H. destruct (inv_scope _ HI) as (c & Hc & _).
  specialize (Hm st c HI Hc). rewrite H in Hm. apply Hm.
Qed.

Lemma good_strong_good {A} (m : M A) : good_strong m -> good m.
Proof.
  intros H st c HI Hc. specialize (H st c HI Hc).
  destruct (m st); [|auto]. destruct H. split; [auto|].
  apply preserved_frame; eauto using Inv_cur_is_Some.
Qed.

Lemma good_ext {A} (m m' : M A) : (forall st, m st = m' st) -> good m' -> good m.
Proof. intros E H st c HI Hc. rewrite E. exact (H st c HI Hc). Qed.

Lemma good_strong_ext {A} (m m' : M A) :
  (forall st, m st = m' st) -> good_strong m' -> good_strong m.
Proof. intros E H st c HI Hc. rewrite E. exact (H st c HI Hc). Qed.

Lemma good_strong_ret {A} (a : A) : good_strong (ret a).
Proof. intros st c HI Hc. simpl. split; [auto | apply preserved_refl]. Qed.

Lemma good_ret {A} (a : A) : good (ret a).
Proof. apply good_strong_good, good_strong_ret. Qed.

Lemma good_raise {A} (e : exn) : benign e -> good (@raise A e).
Proof. intros H st c _ _. exact H. Qed.

Lemma good_strong_raise {A} (e : exn) : benign e -> good_strong (@raise A e).
Proof. intros H st c _ _. exact H. Qed.

Lemma good_bind {A B} (m : M A) (k : A -> M B) :
  good m -> (forall a, good (k a)) -> good (bind m k).
Proof.
  intros Hm Hk st c HI Hc. unfold bind. specialize (Hm st c HI Hc).
  destruct (m st) as [a st1|e]; [|auto]. destruct Hm as [HI1 Hfr1].
  assert (Hc1 : scope st1 = Some c) by (rewrite (se_scope _ _ (fr_scalars _ _ _ Hfr1)); auto).
  specialize (Hk a st1 c HI1 Hc1).
  destruct (k a st1) as [b st2|e]; [|auto]. destruct Hk as [HI2 Hfr2].
  split; [auto | eapply frame_trans; eauto].
Qed.

Lemma good_strong_bind {A B} (m : M A) (k : A -> M B) :
  good_strong m -> (forall a, good_strong (k a)) -> good_strong (bind m k).
Proof.
  intros Hm Hk st c HI Hc. unfold bind. specialize (Hm st c HI Hc).
  destruct (m st) as [a st1|e]; [|auto]. destruct Hm as [HI1 Hfr1].
  assert (Hc1 : scope st1 = Some c) by (rewrite (se_scope _ _ (pr_scalars _ _ Hfr1)); auto).
  specialize (Hk a st1 c HI1 Hc1).
  destruct (k a st1) as [b st2|e]; [|auto]. destruct Hk as [HI2 Hfr2].
  split; [auto | eapply preserved_trans; eauto].
Qed.

Lemma good_strong_get : good_strong get.
Proof. intros st c HI Hc. simpl. split; [auto | apply preserved_refl]. Qed.

Lemma good_strong_the_scope : good_strong the_scope.
Proof.
  intros st c HI Hc. rewrite (the_scope_eq _ _ Hc). split; [auto | apply preserved_refl].
Qed.

(** Recording a block definition. *)
Lemma good_strong_record_def sym stmt' :
  good_strong (modify (fun st => set_sym_defnode ((sym, stmt') :: sym_defnode st) st)).
Proof.
  intros st c HI Hc. simpl. split.
  - eapply Inv_scalars; eauto; simpl; try lia; try apply (inv_levels _ HI).
    destruct (inv_scope _ HI) as (c' & ? & ?). eauto.
  - constructor; auto. constructor; simpl; auto. lia.
Qed.

Lemma good_strong_append_def stmt' :
  good_strong (modify (fun st => set_block_defs (_block_defs st ++ [stmt']) st)).
Proof.
  intros st c HI Hc. simpl. split.
  - eapply Inv_scalars; eauto; simpl; try lia; try apply (inv_levels _ HI).
    destruct (inv_scope _ HI) as (c' & ? & ?). eauto.
  - constructor; auto. constructor; simpl; auto; [lia|]. apply prefix_app_r. reflexivity.
Qed.

Lemma good_gen_block_sym name : good (gen_block_sym name).
Proof.
  intros st c HI Hc. destruct (Inv_cur_is_Some _ _ HI Hc) as [sc Hsc].
  rewrite (gen_block_sym_eq st c sc name Hc Hsc).
  split; [apply Inv_declared; auto | apply frame_declared; auto].
Qed.

Lemma good_gen_cleanup_all_vars : good gen_cleanup_all_vars.
Proof.
  intros st c HI Hc. destruct (Inv_current _ HI) as (c' & sc & xs & Hc' & Hsc & Hxs).
  assert (c' = c) by congruence. subst c'.
  destruct (gen_cleanup_all_vars_spec st c sc xs HI Hc Hsc Hxs) as (st' & -> & HI' & Hfr & _).
  auto.
Qed.

Lemma good_strong_lookup ident :
  good_strong (let! s := the_scope in lookup_block_by_name s ident).
Proof.
  intros st c HI Hc. rewrite (bind_eq _ _ _ c st) by (apply the_scope_eq; auto).
  destruct (inv_scope _ HI) as (c' & Hc' & Hlt). assert (c' = c) by congruence. subst c'.
  pose proof (lookup_block_by_name_spec st c ident (inv_wf _ HI) Hlt) as H.
  destruct (lookup_block_by_name c ident st) as [sym st'|e].
  - destruct H as [-> _]. split; [auto | apply preserved_refl].
  - destruct H as [-> _]. exact I.
Qed.

Lemma good_record_selector {A} sel (a : A) :
  good (let! s := the_scope in
        let! sc := deref s in
        do! store s (with_selectors ({[sel]} ∪ _unique_player_selectors sc) sc) in
        ret a).
Proof.
  intros st c HI Hc. destruct (Inv_cur_is_Some _ _ HI Hc) as [sc Hsc].
  rewrite (bind_eq _ _ _ c st) by (apply the_scope_eq; auto).
  rewrite (bind_eq _ _ _ sc st) by (apply deref_eq; auto).
  rewrite (bind_eq _ _ _ _ _ (store_eq _ _ sc _ Hsc)). simpl. split.
  - eapply Inv_update_scope; eauto.
  - constructor; simpl.
    + constructor; simpl; auto. lia.
    + exists sc, (with_selectors ({[sel]} ∪ _unique_player_selectors sc) sc).
      rewrite list_lookup_insert_eq by (eapply lookup_lt_Some; eauto).
      repeat split; auto.
    + intros h s Hne H. rewrite list_lookup_insert_ne by auto. auto.
    + auto.
Qed.

(** ** Constructs that run their body in a new scope *)

Lemma scoped_generic {A} (body : M A) (closer : M unit) st c st1 child :
  good body -> Inv st -> scope st = Some c -> Inv st1 ->
  scope st1 = Some (length (scope_objs st)) ->
  scope_objs st1 = scope_objs st ++ [child] -> parent child = Some c ->
  (length (list_objs st) <= _active_vars child)%nat ->
  (forall l xs, list_objs st !! l = Some xs -> list_objs st1 !! l = Some xs) ->
  _next_sym_id st1 = _next_sym_id st -> _block_defs st1 = _block_defs st ->
  _stmts st1 = _stmts st ->
  (forall st2 sc2,
      scope st2 = Some (length (scope_objs st)) ->
      scope_objs st2 !! length (scope_objs st) = Some sc2 -> parent sc2 = Some c ->
      _block_nesting_level st2 = _block_nesting_level st1 ->
      _loop_nesting_level st2 = _loop_nesting_level st1 ->
      _loop_nesting_stack st2 = _loop_nesting_stack st1 ->
      closer st2 = OK tt (restore st st2)) ->
  match (let! r := body in do! closer in ret r) st1 with
  | OK _ st' => Inv st' /\ preserved st st'
  | Raise e => benign e
  end.
Proof.
  intros Hbody HI Hc HI1 Hc1 Ho Hp Hloc Hl Hn Hd Hs Hclose.
  specialize (Hbody st1 _ HI1 Hc1). unfold bind at 1.
  destruct (body st1) as [r st2|e]; [|auto]. destruct Hbody as [HI2 Hfr].
  destruct (fr_cur _ _ _ Hfr) as (s1 & s2 & Hs1 & Hs2 & Hsh).
  rewrite Ho, lookup_snoc_here in Hs1. injection Hs1 as <-.
  destruct Hsh as (Hp2 & _).
  destruct (fr_scalars _ _ _ Hfr) as [E1 E2 E3 E4 E5 E6 E7].
  rewrite (bind_eq _ _ _ tt (restore st st2)).
  2:{ eapply Hclose; eauto; congruence. }
  eapply (restore_sound st c st1 _ child st2); eauto.
  - lia.
  - rewrite Hd. reflexivity.
Qed.

Lemma scoped_branch {A} (body : M A) :
  good body ->
  good_strong (do! enter_branch in let! r := body in do! leave_scope in ret r).
Proof.
  intros Hbody st c HI Hc.
  destruct (Inv_current _ HI) as (c' & sc & xs & Hc' & Hsc & Hxs).
  assert (c' = c) by congruence. subst c'.
  rewrite (bind_eq _ _ _ _ _ (enter_branch_eq st c sc xs Hc Hsc Hxs)).
  eapply (scoped_generic body leave_scope st c (entered_branch c xs st)
            (mkScope (Some c) [] ∅ (S (length (list_objs st))) ∅ false));
    try reflexivity; try assumption.
  - eapply Inv_entered_branch; eauto.
  - simpl. lia.
  - intros l ys H. simpl. rewrite lookup_app_l by (eapply lookup_lt_Some; eauto). auto.
  - intros st2 sc2 H1 H2 H3 H4 H5 H6.
    eapply leave_scope_restore; eauto; simpl in *; try congruence; lia.
Qed.

Definition opened_loop (c : nat) (xs : list Symbol) (st : Analyzer) : Analyzer :=
  set_loop_nesting_level (_loop_nesting_level st + 1) (entered_branch c xs st).

Lemma open_loop_eq st c sc xs :
  scope st = Some c -> scope_objs st !! c = Some sc ->
  list_objs st !! _active_vars sc = Some xs ->
  open_loop st = OK tt (opened_loop c xs st).
Proof.
  intros Hc Hsc Hxs. unfold open_loop.
  rewrite (bind_eq _ _ _ _ _ (enter_branch_eq st c sc xs Hc Hsc Hxs)). reflexivity.
Qed.

Lemma Inv_opened_loop st c sc xs :
  Inv st -> scope st = Some c -> scope_objs st !! c = Some sc ->
  list_objs st !! _active_vars sc = Some xs ->
  Inv (opened_loop c xs st).
Proof.
  intros HI Hc Hsc Hxs.
  pose proof (Inv_entered_branch st c sc xs HI Hc Hsc Hxs) as HI1.
  eapply (Inv_scalars (entered_branch c xs st)); auto; simpl.
  - eexists. split; [reflexivity|]. rewrite length_app. simpl. lia.
  - apply (inv_levels _ HI).
  - destruct (inv_levels _ HI) as (_ & ? & _). lia.
  - apply (inv_levels _ HI).
Qed.

Lemma scoped_loop {A} (body : M A) :
  good body ->
  good_strong (do! open_loop in let! r := body in do! close_loop in ret r).
Proof.
  intros Hbody st c HI Hc.
  destruct (Inv_current _ HI) as (c' & sc & xs & Hc' & Hsc & Hxs).
  assert (c' = c) by congruence. subst c'.
  rewrite (bind_eq _ _ _ _ _ (open_loop_eq st c sc xs Hc Hsc Hxs)).
  eapply (scoped_generic body close_loop st c (opened_loop c xs st)
            (mkScope (Some c) [] ∅ (S (length (list_objs st))) ∅ false));
    try reflexivity; try assumption.
  - eapply Inv_opened_loop; eauto.
  - simpl. lia.
  - intros l ys H. simpl. rewrite lookup_app_l by (eapply lookup_lt_Some; eauto). auto.
  - intros st2 sc2 H1 H2 H3 H4 H5 H6.
    eapply close_loop_restore; eauto; simpl in *; try congruence; lia.
Qed.

Lemma scoped_block {A} (body : M A) :
  good body ->
  good_strong (do! open_block in let! r := body in do! close_block in ret r).
Proof.
  intros Hbody st c HI Hc.
  rewrite (bind_eq _ _ _ _ _ (open_block_eq st c Hc)).
  eapply (scoped_generic body close_block st c (opened_block c st)
            (mkScope (Some c) [] ∅ (length (list_objs st)) ∅ true));
    try reflexivity; try assumption.
  - eapply Inv_opened_block; eauto.
  - intros l ys H. simpl. rewrite lookup_app_l by (eapply lookup_lt_Some; eauto). auto.
  - intros st2 sc2 H1 H2 H3 H4 H5 H6.
    eapply close_block_restore; eauto; simpl in *; try congruence; lia.
Qed.

(** Re-bracketing: what follows the closing of a scope is a continuation
    of the scoped computation. *)
Lemma scoped_assoc {A B} (o : M unit) (body : M A) (c : M unit) (k : A -> M B) st :
  (do! o in let! r := body in do! c in k r) st
  = bind (do! o in let! r := body in do! c in ret r) k st.
Proof.
  unfold bind, ret. destruct (o st); [|reflexivity].
  destruct (body _); [|reflexivity]. destruct (c _); reflexivity.
Qed.

Lemma good_sem_each (f : Stmt -> M Stmt) :
  (forall s, good (f s)) -> forall stmts res, good (sem_each f stmts res).
Proof.
  intros Hf stmts. induction stmts as [|s rest IH]; intros res; simpl.
  - apply good_ret.
  - apply good_bind; [apply Hf|]. intros semmed. apply IH.
Qed.

(** ** The statements *)

Lemma sem_stmt_O stmt : sem_stmt 0 stmt = raise OutOfFuel.
Proof. reflexivity. Qed.

Lemma good_strong_If fuel expr branch_true branch_false :
  (forall s, good (sem_stmt fuel s)) ->
  good_strong (sem_stmt (S fuel) (IfStmt expr branch_true branch_false)).
Proof.
  intros IH. cbn [sem_stmt sem_stmt_body].
  eapply good_strong_ext; [intros st; apply scoped_assoc|].
  apply good_strong_bind; [apply scoped_branch, IH|]. intros bt.
  eapply good_strong_ext; [intros st; apply scoped_assoc|].
  apply good_strong_bind; [apply scoped_branch, IH|]. intros bf.
  apply good_strong_ret.
Qed.

Lemma good_strong_Loop fuel body :
  (forall s, good (sem_stmt fuel s)) ->
  good_strong (sem_stmt (S fuel) (LoopStmt body)).
Proof.
  intros IH. cbn [sem_stmt sem_stmt_body].
  eapply good_strong_ext; [intros st; apply scoped_assoc|].
  apply good_strong_bind; [apply scoped_loop, IH|]. intros b.
  apply good_strong_ret.
Qed.

Lemma good_strong_While fuel expr body :
  (forall s, good (sem_stmt fuel s)) ->
  good_strong (sem_stmt (S fuel) (WhileStmt expr body)).
Proof.
  intros IH. cbn [sem_stmt sem_stmt_body].
  eapply good_strong_ext; [intros st; apply scoped_assoc|].
  apply good_strong_bind; [apply scoped_loop, IH|]. intros b.
  apply good_strong_ret.
Qed.

Lemma good_strong_Until fuel expr body :
  (forall s, good (sem_stmt fuel s)) ->
  good_strong (sem_stmt (S fuel) (UntilStmt expr body)).
Proof.
  intros IH. cbn [sem_stmt sem_stmt_body]. cbv zeta.
  eapply good_strong_ext; [intros st; apply scoped_assoc|].
  apply good_strong_bind; [apply scoped_loop, IH|]. intros b.
  apply good_strong_ret.
Qed.

Lemma good_Times fuel num body :
  (forall m, (m <= fuel)%nat -> forall s, good (sem_stmt m s)) ->
  good (sem_stmt (S fuel) (TimesStmt num body)).
Proof.
  intros IH st c HI Hc. cbn [sem_stmt sem_stmt_body].
  destruct (Inv_current _ HI) as (c' & sc & xs & Hc' & Hsc & Hxs).
  assert (c' = c) by congruence. subst c'.
  rewrite (bind_eq _ _ _ _ _ (def_var_eq st c sc xs HI Hc Hsc Hxs)). cbv zeta.
  set (var := mkSymbol ":anonymous:" (_next_sym_id st) variable).
  set (st1 := defined_var c sc xs st).
  destruct body; try exact I.
  assert (HI1 : Inv st1) by (apply Inv_defined_var; auto).
  assert (Hc1 : scope st1 = Some c) by exact Hc.
  set (sc1 := with_syms (_syms sc ++ [var]) sc).
  assert (Hsc1 : scope_objs st1 !! c = Some sc1).
  { simpl. apply list_lookup_insert_eq. eapply lookup_lt_Some; eauto. }
  assert (Hxs1 : list_objs st1 !! _active_vars sc1 = Some (xs ++ [var])).
  { simpl. apply list_lookup_insert_eq. eapply lookup_lt_Some; eauto. }
  unfold bind at 1.
  destruct fuel as [|fuel]; [exact I|].
  pose proof (good_strong_While fuel
                (GreaterExpression (ReadVarExpr (SymExpression var)) (NumberExpression 0))
                (StmtList (stmts ++ [WriteVarStmt var
                   (SubExpression (ReadVarExpr (SymExpression var)) (NumberExpression 1))]))
                (IH fuel ltac:(lia)) st1 c HI1 Hc1) as Hw.
  destruct (sem_stmt (S fuel) _ st1) as [w st2|e]; [|exact Hw].
  destruct Hw as [HI2 Hpr].
  assert (Hc2 : scope st2 = Some c) by (rewrite (se_scope _ _ (pr_scalars _ _ Hpr)); auto).
  pose proof (pr_objs _ _ Hpr _ _ Hsc1) as Hsc2.
  pose proof (pr_lists _ _ Hpr _ _ Hxs1) as Hxs2.
  destruct (mark_var_dead_eq st2 c sc1 (xs ++ [var]) var HI2 Hc2 Hsc2 Hxs2) as (xs' & Hrm & Hk).
  { apply elem_of_app. right. apply list_elem_of_singleton. reflexivity. }
  rewrite (bind_eq _ _ _ _ _ Hk). simpl. split.
  - eapply Inv_killed_var; eauto.
  - eapply frame_trans; [apply (frame_defined_var st c sc xs Hsc)|].
    eapply frame_trans; [apply (preserved_frame c st1 st2); eauto|].
    apply frame_killed_var. auto.
Qed.

Lemma good_BlockDef fuel name body :
  (forall s, good (sem_stmt fuel s)) ->
  good (sem_stmt (S fuel) (BlockDefStmt name body)).
Proof.
  intros IH. cbn [sem_stmt sem_stmt_body].
  destruct name; try (apply good_raise; exact I).
  apply good_bind; [apply good_gen_block_sym|]. intros sym.
  destruct body; try (apply good_raise; exact I).
  eapply good_ext; [intros st; apply scoped_assoc|].
  apply good_bind; [apply good_strong_good, scoped_block, IH|]. intros body'. cbv zeta.
  apply good_bind; [apply good_strong_good, good_strong_record_def|]. intros _.
  apply good_bind; [apply good_strong_good, good_strong_append_def|]. intros _.
  apply good_ret.
Qed.

Lemma good_sem_stmt_step fuel :
  (forall m, (m <= fuel)%nat -> forall s, good (sem_stmt m s)) ->
  forall stmt, good (sem_stmt (S fuel) stmt).
Proof.
  intros IH stmt.
  assert (IH0 : forall s, good (sem_stmt fuel s)) by (apply IH; lia).
  destruct stmt.
  - apply good_raise. exact I.
  - apply good_BlockDef; auto.
  - cbn [sem_stmt sem_stmt_body]. apply good_bind; [apply good_sem_each; auto|]. intros res. apply good_ret.
  - cbn [sem_stmt sem_stmt_body]. apply good_bind; [|intros sym; apply good_ret].
    destruct name; try (apply good_raise; exact I).
    + apply good_strong_good, good_strong_lookup.
    + apply good_ret.
  - cbn [sem_stmt sem_stmt_body]. apply good_record_selector.
  - apply good_strong_good, good_strong_If; auto.
  - apply good_strong_good, good_strong_Loop; auto.
  - apply good_strong_good, good_strong_While; auto.
  - apply good_strong_good, good_strong_Until; auto.
  - apply good_Times; auto.
  - cbn [sem_stmt sem_stmt_body]. apply good_bind; [apply good_strong_good, good_strong_get|]. intros s.
    destruct (_block_nesting_level s <=? 0); [apply good_raise; exact I|].
    apply good_bind; [apply good_gen_cleanup_all_vars|]. intros cl. apply good_ret.
  - cbn [sem_stmt sem_stmt_body]. apply good_bind; [apply good_strong_good, good_strong_get|]. intros s.
    destruct (_loop_nesting_level s <=? 0); [apply good_raise; exact I | apply good_ret].
  - apply good_ret.
  - apply good_ret.
  - apply good_ret.
  - apply good_raise. exact I.
  - apply good_raise. exact I.
Qed.

(** Every statement, with any fuel: the analysis keeps the invariant and
    updates only the current scope; it never raises a lifetime error. *)
Lemma good_sem_stmt fuel : forall stmt, good (sem_stmt fuel stmt).
Proof.
  induction fuel as [fuel IH] using lt_wf_ind. destruct fuel as [|fuel].
  - intros stmt. rewrite sem_stmt_O. apply good_raise. exact I.
  - apply good_sem_stmt_step. intros m Hm. apply IH. lia.
Qed.

Lemma Inv_set_stmts st res : Inv st -> Inv (set_stmts res st).
Proof.
  intros HI. eapply Inv_scalars; eauto; simpl; try lia; try apply (inv_levels _ HI).
  destruct (inv_scope _ HI) as (c' & ? & ?). eauto.
Qed.

Lemma analyze_program_sound fuel st c :
  Inv st -> scope st = Some c ->
  match analyze_program fuel st with
  | OK _ st' =>
      exists res st1,
        sem_each (sem_stmt fuel) (_stmts st) [] st = OK res st1
        /\ st' = set_stmts res st1 /\ Inv st1 /\ frame c st st1 /\ Inv st'
  | Raise e => benign e
  end.
Proof.
  intros HI Hc. unfold analyze_program.
  rewrite (bind_eq _ _ _ st st) by reflexivity.
  pose proof (good_sem_each _ (good_sem_stmt fuel) (_stmts st) [] st c HI Hc) as H.
  unfold bind. destruct (sem_each _ _ _ st) as [res st1|e]; [|exact H].
  destruct H as [HI1 Hfr]. simpl. exists res, st1.
  repeat (split; [first [reflexivity | assumption]|]). apply Inv_set_stmts. auto.
Qed.

(** * Statement lists *)

Lemma sem_each_acc (f : Stmt -> M Stmt) stmts :
  forall res st,
    sem_each f stmts res st
    = match sem_each f stmts [] st with
      | OK out st' => OK (res ++ out) st'
      | Raise e => Raise e
      end.
Proof.
  induction stmts as [|s rest IH]; intros res st; simpl.
  - unfold ret. rewrite app_nil_r. reflexivity.
  - unfold bind. destruct (f s st) as [semmed st1|e]; [|reflexivity].
    rewrite IH. rewrite (IH (if truthy semmed then [] ++ [semmed] else [])).
    destruct (sem_each f rest [] st1) as [out st2|e]; [|reflexivity].
    destruct (truthy semmed); simpl; rewrite <- ?app_assoc; reflexivity.
Qed.

Lemma sem_each_app (f : Stmt -> M Stmt) l1 l2 :
  forall res st,
    sem_each f (l1 ++ l2) res st
    = match sem_each f l1 res st with
      | OK out st1 => sem_each f l2 out st1
      | Raise e => Raise e
      end.
Proof.
  induction l1 as [|s rest IH]; intros res st; simpl.
  - reflexivity.
  - unfold bind. destruct (f s st) as [semmed st1|e]; [|reflexivity]. apply IH.
Qed.

Lemma sem_stmt_OK_fuel fuel stmt st r st' :
  sem_stmt fuel stmt st = OK r st' -> exists fuel', fuel = S fuel'.
Proof. destruct fuel; [discriminate | eauto]. Qed.

(** ** The invariant along a run *)

Lemma good_def_var : good def_var.
Proof.
  intros st c HI Hc. destruct (Inv_current _ HI) as (c' & sc & xs & Hc' & Hsc & Hxs).
  assert (c' = c) by congruence. subst c'.
  rewrite (def_var_eq st c sc xs HI Hc Hsc Hxs).
  split; [apply Inv_defined_var; auto | apply frame_defined_var; auto].
Qed.

Lemma Inv_after_open_block st u st' : Inv st -> open_block st = OK u st' -> Inv st'.
Proof.
  intros HI H. destruct (inv_scope _ HI) as (c & Hc & _).
  rewrite (open_block_eq st c Hc) in H. injection H as _ <-. apply Inv_opened_block; auto.
Qed.

Lemma Inv_after_enter_branch st u st' : Inv st -> enter_branch st = OK u st' -> Inv st'.
Proof.
  intros HI H. destruct (Inv_current _ HI) as (c & sc & xs & Hc & Hsc & Hxs).
  rewrite (enter_branch_eq st c sc xs Hc Hsc Hxs) in H. injection H as _ <-.
  eapply Inv_entered_branch; eauto.
Qed.

Lemma Inv_after_open_loop st u st' : Inv st -> open_loop st = OK u st' -> Inv st'.
Proof.
  intros HI H. destruct (Inv_current _ HI) as (c & sc & xs & Hc & Hsc & Hxs).
  rewrite (open_loop_eq st c sc xs Hc Hsc Hxs) in H. injection H as _ <-.
  eapply Inv_opened_loop; eauto.
Qed.

Lemma Inv_after_sem_stmt fuel stmt st r st' :
  Inv st -> sem_stmt fuel stmt st = OK r st' -> Inv st'.
Proof. apply Inv_after_good, good_sem_stmt. Qed.

Lemma Inv_after_sem_each fuel stmts res st out st' :
  Inv st -> sem_each (sem_stmt fuel) stmts res st = OK out st' -> Inv st'.
Proof. apply Inv_after_good, good_sem_each, good_sem_stmt. Qed.

(** ** More fuel *)

(** [refines r r']: [r'] is [r], unless [r] ran out of fuel. *)
Definition refines {A} (r r' : result A) : Prop :=
  r = Raise OutOfFuel \/ r = r'.

Lemma refines_refl {A} (r : result A) : refines r r.
Proof. right. reflexivity. Qed.

Lemma refines_trans {A} (r1 r2 r3 : result A) :
  refines r1 r2 -> refines r2 r3 -> refines r1 r3.
Proof.
  intros [->| ->] H; [left; reflexivity | exact H].
Qed.

Lemma refines_bind {A B} (m m' : M A) (k k' : A -> M B) st :
  refines (m st) (m' st) -> (forall a st1, refines (k a st1) (k' a st1)) ->
  refines (bind m k st) (bind m' k' st).
Proof.
  intros [H| H] Hk; unfold bind.
  - rewrite H. left. reflexivity.
  - rewrite <- H. destruct (m st) as [a st1|e]; [apply Hk | apply refines_refl].
Qed.

Lemma sem_each_refines (f f' : Stmt -> M Stmt) :
  (forall s st, refines (f s st) (f' s st)) ->
  forall stmts res st, refines (sem_each f stmts res st) (sem_each f' stmts res st).
Proof.
  intros Hf stmts. induction stmts as [|s rest IH]; intros res st; simpl.
  - apply refines_refl.
  - apply refines_bind; [apply Hf|]. intros a st1. apply IH.
Qed.

Ltac refines_step Hrec :=
  first
    [ apply refines_refl
    | apply Hrec
    | apply sem_each_refines; exact Hrec
    | apply refines_bind; [|intros ? ?] ].

Lemma sem_stmt_body_refines (rec rec' : Stmt -> M Stmt) :
  (forall s st, refines (rec s st) (rec' s st)) ->
  forall stmt st, refines (sem_stmt_body rec stmt st) (sem_stmt_body rec' stmt st).
Proof.
  intros Hrec stmt st. destruct stmt; cbn [sem_stmt_body]; cbv zeta;
    try apply refines_refl.
  - destruct name; try apply refines_refl.
    apply refines_bind; [apply refines_refl|]. intros sym st1.
    destruct stmt; try apply refines_refl. repeat refines_step Hrec.
  - repeat refines_step Hrec.
  - repeat refines_step Hrec.
  - repeat refines_step Hrec.
  - repeat refines_step Hrec.
  - repeat refines_step Hrec.
  - apply refines_bind; [apply refines_refl|]. intros var st1.
    destruct stmt; try apply refines_refl. repeat refines_step Hrec.
Qed.

Lemma sem_stmt_fuel_S fuel :
  forall stmt st, refines (sem_stmt fuel stmt st) (sem_stmt (S fuel) stmt st).
Proof.
  induction fuel as [|fuel IH]; intros stmt st.
  - left. reflexivity.
  - apply (sem_stmt_body_refines (sem_stmt fuel) (sem_stmt (S fuel)) IH).
Qed.

(** The result of a run that did not run out of fuel is the result with
    any larger fuel. *)
Lemma sem_stmt_fuel_mono fuel fuel' stmt st :
  (fuel <= fuel')%nat -> refines (sem_stmt fuel stmt st) (sem_stmt fuel' stmt st).
Proof.
  induction 1 as [|fuel' _ IH]; [apply refines_refl|].
  eapply refines_trans; [exact IH | apply sem_stmt_fuel_S].
Qed.

Lemma sem_stmt_fuel_OK fuel fuel' stmt st r st' :
  sem_stmt fuel stmt st = OK r st' -> (fuel <= fuel')%nat ->
  sem_stmt fuel' stmt st = OK r st'.
Proof.
  intros H Hle. destruct (sem_stmt_fuel_mono fuel fuel' stmt st Hle) as [E|E]; congruence.
Qed.

(** ** Enough fuel *)

(** Fuel that is enough for a statement. *)
Fixpoint fuel_for (s : Stmt) : nat :=
  match s with
  | BlockDefStmt _ body => S (S (fuel_for body))
  | StmtList stmts =>
      S (S ((fix go (l : list Stmt) : nat :=
               match l with
               | [] => O
               | x :: r => Nat.max (fuel_for x) (go r)
               end) stmts))
  | IfStmt _ a b => S (Nat.max (fuel_for a) (fuel_for b))
  | LoopStmt body | WhileStmt _ body | UntilStmt _ body => S (fuel_for body)
  | TimesStmt _ body => S (S (S (fuel_for body)))
  | _ => 1%nat
  end.

Definition fuel_for_all (stmts : list Stmt) : nat :=
  foldr (fun x acc => Nat.max (fuel_for x) acc) O stmts.

Lemma fuel_for_StmtList stmts : fuel_for (StmtList stmts) = S (S (fuel_for_all stmts)).
Proof. reflexivity. Qed.

Lemma fuel_for_all_app l1 l2 :
  fuel_for_all (l1 ++ l2) = Nat.max (fuel_for_all l1) (fuel_for_all l2).
Proof.
  induction l1 as [|x r IH]; simpl; [reflexivity|]. rewrite IH. lia.
Qed.

Lemma fuel_for_pos s : (1 <= fuel_for s)%nat.
Proof. destruct s; simpl; lia. Qed.

(** [nf m]: [m] never runs out of fuel.  [nofuel m]: it does not from a
    state satisfying the invariant.  [keeps m]: it keeps the invariant. *)
Definition nf {A} (m : M A) : Prop := forall st, m st <> Raise OutOfFuel.

Definition nofuel {A} (m : M A) : Prop := forall st, Inv st -> m st <> Raise OutOfFuel.

Definition keeps {A} (m : M A) : Prop :=
  forall st a st', Inv st -> m st = OK a st' -> Inv st'.

Lemma nf_nofuel {A} (m : M A) : nf m -> nofuel m.
Proof. intros H st _. apply H. Qed.

Lemma nf_bind {A B} (m : M A) (k : A -> M B) : nf m -> (forall a, nf (k a)) -> nf (bind m k).
Proof.
  intros Hm Hk st. unfold bind. specialize (Hm st).
  destruct (m st) as [a st1|e]; [apply Hk | congruence].
Qed.

Lemma nofuel_bind {A B} (m : M A) (k : A -> M B) :
  keeps m -> nofuel m -> (forall a, nofuel (k a)) -> nofuel (bind m k).
Proof.
  intros Hkeep Hm Hk st HI. unfold bind. specialize (Hm st HI).
  destruct (m st) as [a st1|e] eqn:E; [|congruence]. apply Hk. eapply Hkeep; eauto.
Qed.

Lemma nofuel_ext {A} (m m' : M A) : (forall st, m st = m' st) -> nofuel m' -> nofuel m.
Proof. intros E H st HI. rewrite E. apply H. auto. Qed.

Lemma keeps_good {A} (m : M A) : good m -> keeps m.
Proof. intros Hg st a st' HI H. eapply Inv_after_good; eauto. Qed.

Lemma nf_ret {A} (a : A) : nf (ret a).
Proof. intros st. discriminate. Qed.

Lemma nf_modify f : nf (modify f).
Proof. intros st. discriminate. Qed.

Lemma nf_leave_scope : nf leave_scope.
Proof.
  intros st. unfold leave_scope, bind, the_scope, bind, get, deref, modify, ret, raise.
  destruct (scope st) as [b|]; [|discriminate].
  destruct (scope_objs st !! b); discriminate.
Qed.

Lemma nf_close_loop : nf close_loop.
Proof. apply nf_bind; [apply nf_leave_scope | intros; apply nf_modify]. Qed.

Lemma nf_close_block : nf close_block.
Proof.
  apply nf_bind; [apply nf_leave_scope|]. intros _.
  apply nf_bind.
  - intros st. unfold pop_loop_nesting_stack, bind, get, modify, ret, raise.
    destruct (last (_loop_nesting_stack st)); discriminate.
  - intros v. apply nf_bind; [apply nf_modify | intros; apply nf_modify].
Qed.

Lemma nofuel_OK {A} (m : M A) :
  (forall st, Inv st -> exists a st', m st = OK a st') -> nofuel m.
Proof. intros H st HI. destruct (H st HI) as (a & st' & ->). discriminate. Qed.

Lemma nofuel_enter_branch : nofuel enter_branch.
Proof.
  apply nofuel_OK. intros st HI.
  destruct (Inv_current _ HI) as (c & sc & xs & Hc & Hsc & Hxs).
  rewrite (enter_branch_eq st c sc xs Hc Hsc Hxs). eauto.
Qed.

Lemma nofuel_open_loop : nofuel open_loop.
Proof.
  apply nofuel_OK. intros st HI.
  destruct (Inv_current _ HI) as (c & sc & xs & Hc & Hsc & Hxs).
  rewrite (open_loop_eq st c sc xs Hc Hsc Hxs). eauto.
Qed.

Lemma nofuel_open_block : nofuel open_block.
Proof.
  apply nofuel_OK. intros st HI. destruct (inv_scope _ HI) as (c & Hc & _).
  rewrite (open_block_eq st c Hc). eauto.
Qed.

Lemma nofuel_gen_block_sym name : nofuel (gen_block_sym name).
Proof.
  apply nofuel_OK. intros st HI.
  destruct (Inv_current _ HI) as (c & sc & xs & Hc & Hsc & Hxs).
  rewrite (gen_block_sym_eq st c sc name Hc Hsc). eauto.
Qed.

Lemma nofuel_def_var : nofuel def_var.
Proof.
  apply nofuel_OK. intros st HI.
  destruct (Inv_current _ HI) as (c & sc & xs & Hc & Hsc & Hxs).
  rewrite (def_var_eq st c sc xs HI Hc Hsc Hxs). eauto.
Qed.

Lemma nofuel_gen_cleanup_all_vars : nofuel gen_cleanup_all_vars.
Proof.
  apply nofuel_OK. intros st HI.
  destruct (Inv_current _ HI) as (c & sc & xs & Hc & Hsc & Hxs).
  destruct (gen_cleanup_all_vars_spec st c sc xs HI Hc Hsc Hxs) as (st' & -> & _). eauto.
Qed.

Lemma nofuel_lookup ident : nofuel (let! s := the_scope in lookup_block_by_name s ident).
Proof.
  intros st HI. destruct (inv_scope _ HI) as (c & Hc & Hlt).
  rewrite (bind_eq _ _ _ c st) by (apply the_scope_eq; auto).
  pose proof (lookup_block_by_name_spec st c ident (inv_wf _ HI) Hlt) as H.
  destruct (lookup_block_by_name c ident st) as [sym st'|e]; [discriminate|].
  destruct H as [-> _]. discriminate.
Qed.

Lemma nf_raise {A} (e : exn) : e <> OutOfFuel -> nf (@raise A e).
Proof. intros H st. unfold raise. congruence. Qed.

Lemma nf_deref h : nf (deref h).
Proof. intros st. unfold deref. destruct (scope_objs st !! h); discriminate. Qed.

Lemma nf_read_list l : nf (read_list l).
Proof. intros st. unfold read_list. destruct (list_objs st !! l); discriminate. Qed.

Lemma nf_store h sc : nf (store h sc).
Proof. intros st. unfold store. destruct (scope_objs st !! h); discriminate. Qed.

Lemma nf_write_list l xs : nf (write_list l xs).
Proof. intros st. unfold write_list. destruct (list_objs st !! l); discriminate. Qed.

Lemma nofuel_mark_var_dead sym : nofuel (mark_var_dead sym).
Proof.
  intros st HI. destruct (inv_scope _ HI) as (c & Hc & Hlt).
  unfold mark_var_dead. rewrite (bind_eq _ _ _ c st) by (apply the_scope_eq; auto).
  destruct (is_block_local_var_spec st c sym (inv_wf _ HI) Hlt) as (b & Hrun & _).
  unfold kill_var. rewrite (bind_eq _ _ _ _ _ Hrun).
  destruct b; simpl; [|discriminate].
  apply nf_bind; [apply nf_deref|]. intros me.
  apply nf_bind; [apply nf_read_list|]. intros xs.
  destruct (negb (bool_decide (sym ∈ xs))); [apply nf_raise; discriminate|].
  apply nf_bind; [apply nf_store|]. intros _.
  destruct (remove_first sym xs); [apply nf_write_list | apply nf_raise; discriminate].
Qed.

Lemma nf_the_scope : nf the_scope.
Proof.
  intros st. unfold the_scope, bind, get, ret, raise. destruct (scope st); discriminate.
Qed.

Lemma nofuel_record_selector {A} sel (a : A) :
  nofuel (let! s := the_scope in
          let! sc := deref s in
          do! store s (with_selectors ({[sel]} ∪ _unique_player_selectors sc) sc) in
          ret a).
Proof.
  apply nf_nofuel. apply nf_bind; [apply nf_the_scope|]. intros s.
  apply nf_bind; [apply nf_deref|]. intros sc.
  apply nf_bind; [apply nf_store|]. intros _. apply nf_ret.
Qed.

Lemma nofuel_sem_each (f : Stmt -> M Stmt) stmts :
  (forall s, keeps (f s)) -> (forall s, s ∈ stmts -> nofuel (f s)) ->
  forall res, nofuel (sem_each f stmts res).
Proof.
  intros Hk. induction stmts as [|s rest IH]; intros Hf res; simpl.
  - apply nf_nofuel, nf_ret.
  - apply nofuel_bind; [apply Hk | apply Hf; apply elem_of_cons; auto|].
    intros a. apply IH. intros s' Hs'. apply Hf. apply elem_of_cons. auto.
Qed.

Lemma fuel_for_all_elem s stmts : s ∈ stmts -> (fuel_for s <= fuel_for_all stmts)%nat.
Proof.
  induction stmts as [|x r IH]; intros H; [inversion H|].
  simpl. apply elem_of_cons in H as [->|H]; [lia|]. specialize (IH H). lia.
Qed.

Lemma nofuel_bind_nf {A B} (m : M A) (k : A -> M B) :
  nofuel m -> (forall a, nf (k a)) -> nofuel (bind m k).
Proof.
  intros Hm Hk st HI. unfold bind. specialize (Hm st HI).
  destruct (m st) as [a st1|e]; [apply Hk | congruence].
Qed.

Lemma keeps_open_block : keeps open_block.
Proof. intros st a st' HI H. eapply Inv_after_open_block; eauto. Qed.

Lemma keeps_enter_branch : keeps enter_branch.
Proof. intros st a st' HI H. eapply Inv_after_enter_branch; eauto. Qed.

Lemma keeps_open_loop : keeps open_loop.
Proof. intros st a st' HI H. eapply Inv_after_open_loop; eauto. Qed.

Lemma keeps_sem_stmt fuel stmt : keeps (sem_stmt fuel stmt).
Proof. apply keeps_good, good_sem_stmt. Qed.

(** A scoped body never runs out of fuel when the body does not. *)
Lemma nofuel_scoped {A} (opener closer : M unit) (body : M A) :
  keeps opener -> nofuel opener -> keeps body -> nofuel body -> nf closer ->
  nofuel (do! opener in let! r := body in do! closer in ret r).
Proof.
  intros Hko Hno Hkb Hnb Hc.
  apply nofuel_bind; [exact Hko | exact Hno|]. intros _.
  apply nofuel_bind_nf; [exact Hnb|]. intros r.
  apply nf_bind; [exact Hc | intros; apply nf_ret].
Qed.

(** With [fuel_for stmt] or more fuel, the analysis of [stmt] from a state
    satisfying the invariant does not run out of fuel. *)
Lemma sem_stmt_enough_fuel fuel :
  forall stmt, (fuel_for stmt <= fuel)%nat -> nofuel (sem_stmt fuel stmt).
Proof.
  induction fuel as [|fuel IH]; intros stmt Hf.
  { pose proof (fuel_for_pos stmt). lia. }
  destruct stmt; cbn [sem_stmt sem_stmt_body]; cbv zeta;
    try (apply nf_nofuel; first [apply nf_ret | apply nf_raise; discriminate]).
  - (* block definition *)
    destruct name; try (apply nf_nofuel, nf_raise; discriminate).
    apply nofuel_bind;
      [apply keeps_good, good_gen_block_sym | apply nofuel_gen_block_sym|]. intros sym.
    destruct stmt; try (apply nf_nofuel, nf_raise; discriminate).
    eapply nofuel_ext; [intros st; apply scoped_assoc|].
    apply nofuel_bind.
    + apply keeps_good, good_strong_good, scoped_block, good_sem_stmt.
    + apply nofuel_scoped;
        [apply keeps_open_block | apply nofuel_open_block | apply keeps_sem_stmt
        | | apply nf_close_block].
      apply IH. rewrite fuel_for_StmtList, fuel_for_all_app.
      change (fuel_for (BlockDefStmt (IdentExpression ident) (StmtList stmts)))
        with (S (S (fuel_for (StmtList stmts)))) in Hf.
      rewrite fuel_for_StmtList in Hf. simpl. lia.
    + intros body'. apply nf_nofuel.
      apply nf_bind; [apply nf_modify|]. intros _.
      apply nf_bind; [apply nf_modify|]. intros _. apply nf_ret.
  - (* list *)
    rewrite fuel_for_StmtList in Hf.
    apply nofuel_bind_nf; [|intros; apply nf_ret].
    apply nofuel_sem_each; [intros s; apply keeps_sem_stmt|].
    intros s Hs. apply IH. pose proof (fuel_for_all_elem _ _ Hs). lia.
  - (* call *)
    apply nofuel_bind_nf; [|intros; apply nf_ret].
    destruct name; try (apply nf_nofuel; first [apply nf_ret | apply nf_raise; discriminate]).
    apply nofuel_lookup.
  - apply nofuel_record_selector.
  - (* conditional *)
    simpl in Hf.
    eapply nofuel_ext; [intros st; apply scoped_assoc|].
    apply nofuel_bind.
    + apply keeps_good, good_strong_good, scoped_branch, good_sem_stmt.
    + apply nofuel_scoped;
        [apply keeps_enter_branch | apply nofuel_enter_branch | apply keeps_sem_stmt
        | apply IH; lia | apply nf_leave_scope].
    + intros bt. eapply nofuel_ext; [intros st; apply scoped_assoc|].
      apply nofuel_bind_nf; [|intros; apply nf_ret].
      apply nofuel_scoped;
        [apply keeps_enter_branch | apply nofuel_enter_branch | apply keeps_sem_stmt
        | apply IH; lia | apply nf_leave_scope].
  - simpl in Hf. eapply nofuel_ext; [intros st; apply scoped_assoc|].
    apply nofuel_bind_nf; [|intros; apply nf_ret].
    apply nofuel_scoped;
      [apply keeps_open_loop | apply nofuel_open_loop | apply keeps_sem_stmt
      | apply IH; lia | apply nf_close_loop].
  - simpl in Hf. eapply nofuel_ext; [intros st; apply scoped_assoc|].
    apply nofuel_bind_nf; [|intros; apply nf_ret].
    apply nofuel_scoped;
      [apply keeps_open_loop | apply nofuel_open_loop | apply keeps_sem_stmt
      | apply IH; lia | apply nf_close_loop].
  - simpl in Hf. eapply nofuel_ext; [intros st; apply scoped_assoc|].
    apply nofuel_bind_nf; [|intros; apply nf_ret].
    apply nofuel_scoped;
      [apply keeps_open_loop | apply nofuel_open_loop | apply keeps_sem_stmt
      | apply IH; lia | apply nf_close_loop].
  - (* counted repetition *)
    apply nofuel_bind; [apply keeps_good, good_def_var | apply nofuel_def_var|].
    intros var. destruct stmt; try (apply nf_nofuel, nf_raise; discriminate).
    apply nofuel_bind; [apply keeps_sem_stmt | |].
    + apply IH.
      change (fuel_for (TimesStmt num (StmtList stmts)))
        with (S (S (S (fuel_for (StmtList stmts))))) in Hf.
      rewrite fuel_for_StmtList in Hf.
      change (fuel_for (WhileStmt ?e (StmtList ?l))) with (S (fuel_for (StmtList l))).
      rewrite fuel_for_StmtList, fuel_for_all_app. simpl. lia.
    + intros w. apply nofuel_bind_nf; [apply nofuel_mark_var_dead | intros; apply nf_ret].
  - (* return *)
    apply nofuel_bind; [intros st a st' HI [= <- <-]; exact HI | apply nf_nofuel; intros st; discriminate|].
    intros s. destruct (_block_nesting_level s <=? 0);
      [apply nf_nofuel, nf_raise; discriminate|].
    apply nofuel_bind_nf; [apply nofuel_gen_cleanup_all_vars | intros; apply nf_ret].
  - (* break *)
    apply nf_nofuel. apply nf_bind; [intros st; discriminate|]. intros s.
    destruct (_loop_nesting_level s <=? 0); [apply nf_raise; discriminate | apply nf_ret].
Qed.

(** From a state satisfying the invariant, the result of the analysis is
    the same for every fuel from [fuel_for stmt] on. *)
Lemma sem_stmt_fuel_independent fuel stmt st :
  Inv st -> (fuel_for stmt <= fuel)%nat ->
  sem_stmt fuel stmt st = sem_stmt (fuel_for stmt) stmt st.
Proof.
  intros HI Hf. destruct (sem_stmt_fuel_mono (fuel_for stmt) fuel stmt st Hf) as [E|E].
  - exfalso. eapply (sem_stmt_enough_fuel (fuel_for stmt) stmt); eauto.
  - symmetry. exact E.
Qed.

(** ** Leaving the scope of a body that returned *)

Lemma loop_body_closes {A} (body : M A) st c sc xs r st2 :
  good body -> Inv st -> scope st = Some c -> scope_objs st !! c = Some sc ->
  list_objs st !! _active_vars sc = Some xs ->
  body (opened_loop c xs st) = OK r st2 ->
  close_loop st2 = OK tt (restore st st2)
  /\ Inv (restore st st2) /\ preserved st (restore st st2).
Proof.
  intros Hbody HI Hc Hsc Hxs Hrun.
  assert (HI1 : Inv (opened_loop c xs st)) by (eapply Inv_opened_loop; eauto).
  pose proof (Hbody (opened_loop c xs st) (length (scope_objs st)) HI1 eq_refl) as Hg.
  rewrite Hrun in Hg. destruct Hg as [HI2 Hfr].
  destruct (fr_cur _ _ _ Hfr) as (s1 & s2 & Hs1 & Hs2 & (Hp & _)).
  simpl in Hs1. rewrite lookup_snoc_here in Hs1. injection Hs1 as <-. simpl in Hp.
  destruct (fr_scalars _ _ _ Hfr) as [E1 E2 E3 E4 E5 E6 E7]. simpl in *.
  split.
  - eapply close_loop_restore; eauto; congruence.
  - eapply (restore_sound st c (opened_loop c xs st) _
              (mkScope (Some c) [] ∅ (S (length (list_objs st))) ∅ false) st2);
      eauto; try reflexivity.
    + simpl. lia.
    + intros l ys H. simpl. rewrite lookup_app_l by (eapply lookup_lt_Some; eauto). auto.
Qed.

Lemma block_body_closes {A} (body : M A) st c r st2 :
  good body -> Inv st -> scope st = Some c ->
  body (opened_block c st) = OK r st2 ->
  close_block st2 = OK tt (restore st st2)
  /\ Inv (restore st st2) /\ preserved st (restore st st2).
Proof.
  intros Hbody HI Hc Hrun.
  assert (HI1 : Inv (opened_block c st)) by (eapply Inv_opened_block; eauto).
  pose proof (Hbody (opened_block c st) (length (scope_objs st)) HI1 eq_refl) as Hg.
  rewrite Hrun in Hg. destruct Hg as [HI2 Hfr].
  destruct (fr_cur _ _ _ Hfr) as (s1 & s2 & Hs1 & Hs2 & (Hp & _)).
  simpl in Hs1. rewrite lookup_snoc_here in Hs1. injection Hs1 as <-. simpl in Hp.
  destruct (fr_scalars _ _ _ Hfr) as [E1 E2 E3 E4 E5 E6 E7]. simpl in *.
  split.
  - eapply close_block_restore; eauto; congruence.
  - eapply (restore_sound st c (opened_block c st) _
              (mkScope (Some c) [] ∅ (length (list_objs st)) ∅ true) st2);
      eauto; try reflexivity.
    intros l ys H. simpl. rewrite lookup_app_l by (eapply lookup_lt_Some; eauto). auto.
Qed.

(** Unfolding of [sem_stmt] at the repetitions and at a list. *)
Lemma sem_stmt_While_eq fuel expr body :
  sem_stmt (S fuel) (WhileStmt expr body)
  = (do! open_loop in
     let! body' := sem_stmt fuel body in
     do! close_loop in
     ret (WhileStmt (sem_expr expr) body')).
Proof. reflexivity. Qed.

Lemma sem_stmt_Until_eq fuel expr body :
  sem_stmt (S fuel) (UntilStmt expr body)
  = (do! open_loop in
     let! body' := sem_stmt fuel body in
     do! close_loop in
     ret (IfStmt (sem_expr expr) (StmtList [])
            (StmtList [UntilRegion (sem_expr expr)
                         (WhileStmt (UnaryExpression not_token (sem_expr expr)) body')]))).
Proof. reflexivity. Qed.

Lemma sem_stmt_StmtList_eq fuel stmts :
  sem_stmt (S fuel) (StmtList stmts)
  = (let! res := sem_each (sem_stmt fuel) stmts [] in ret (StmtList res)).
Proof. reflexivity. Qed.

(** * C1: desugaring of counted repetition *)

Definition decrement (var : Symbol) : Stmt :=
  WriteVarStmt var (SubExpression (ReadVarExpr (SymExpression var)) (NumberExpression 1)).

Definition counter_positive (var : Symbol) : Expression :=
  GreaterExpression (ReadVarExpr (SymExpression var)) (NumberExpression 0).

Definition times_desugared (var : Symbol) (num : Z) (body' : list Stmt) : Stmt :=
  StmtList [DefVarStmt var;
            WriteVarStmt var (NumberExpression num);
            WhileStmt (counter_positive var) (StmtList (body' ++ [decrement var]));
            KillVarStmt var].

Lemma sem_stmt_Times_eq fuel num stmts :
  sem_stmt (S fuel) (TimesStmt num (StmtList stmts))
  = (let! var := def_var in
     let! w := sem_stmt fuel (WhileStmt (counter_positive var)
                                (StmtList (stmts ++ [decrement var]))) in
     do! mark_var_dead var in
     ret (StmtList ([DefVarStmt var; WriteVarStmt var (NumberExpression num)]
                    ++ [w] ++ [KillVarStmt var]))).
Proof. reflexivity. Qed.

(** The list of a loop body with the decrement at its end. *)
Lemma sem_body_with_decrement fuel stmts var st :
  sem_stmt (S (S fuel)) (StmtList (stmts ++ [decrement var])) st
  = match sem_each (sem_stmt (S fuel)) stmts [] st with
    | OK body' st2 => OK (StmtList (body' ++ [decrement var])) st2
    | Raise e => Raise e
    end.
Proof.
  rewrite sem_stmt_StmtList_eq. unfold bind at 1. rewrite sem_each_app.
  destruct (sem_each (sem_stmt (S fuel)) stmts [] st) as [body' st2|e]; reflexivity.
Qed.

(** The run of the analysis of a counted repetition in terms of the run of
    the analysis of its body. *)
Lemma sem_Times_run fuel num stmts st c sc xs :
  Inv st -> scope st = Some c -> scope_objs st !! c = Some sc ->
  list_objs st !! _active_vars sc = Some xs ->
  let var := mkSymbol ":anonymous:" (_next_sym_id st) variable in
  match sem_each (sem_stmt (S fuel)) stmts []
          (opened_loop c (xs ++ [var]) (defined_var c sc xs st)) with
  | OK body' st2 =>
      exists st', sem_stmt (S (S (S (S fuel)))) (TimesStmt num (StmtList stmts)) st
                  = OK (times_desugared var num body') st'
  | Raise e =>
      sem_stmt (S (S (S (S fuel)))) (TimesStmt num (StmtList stmts)) st = Raise e
  end.
Proof.
  intros HI Hc Hsc Hxs var.
  set (st1 := defined_var c sc xs st).
  set (sc1 := with_syms (_syms sc ++ [var]) sc).
  assert (HI1 : Inv st1) by (apply Inv_defined_var; auto).
  assert (Hc1 : scope st1 = Some c) by exact Hc.
  assert (Hsc1 : scope_objs st1 !! c = Some sc1).
  { simpl. apply list_lookup_insert_eq. eapply lookup_lt_Some; eauto. }
  assert (Hxs1 : list_objs st1 !! _active_vars sc1 = Some (xs ++ [var])).
  { simpl. apply list_lookup_insert_eq. eapply lookup_lt_Some; eauto. }
  rewrite sem_stmt_Times_eq.
  rewrite (bind_eq _ _ _ _ _ (def_var_eq st c sc xs HI Hc Hsc Hxs)).
  fold var. fold st1. rewrite sem_stmt_While_eq.
  pose proof (sem_body_with_decrement fuel stmts var (opened_loop c (xs ++ [var]) st1)) as Hb.
  destruct (sem_each (sem_stmt (S fuel)) stmts [] (opened_loop c (xs ++ [var]) st1))
    as [body' st2|e].
  - destruct (loop_body_closes _ st1 c sc1 (xs ++ [var]) _ st2
                (good_sem_stmt (S (S fuel)) (StmtList (stmts ++ [decrement var])))
                HI1 Hc1 Hsc1 Hxs1 Hb) as (Hclose & HI3 & Hpr).
    assert (Hc3 : scope (restore st1 st2) = Some c) by exact Hc.
    pose proof (pr_objs _ _ Hpr _ _ Hsc1) as Hsc3.
    pose proof (pr_lists _ _ Hpr _ _ Hxs1) as Hxs3.
    destruct (mark_var_dead_eq (restore st1 st2) c sc1 (xs ++ [var]) var HI3 Hc3 Hsc3 Hxs3)
      as (xs' & _ & Hk).
    { apply elem_of_app. right. apply list_elem_of_singleton. reflexivity. }
    eexists.
    rewrite (bind_eq _ _ _ (WhileStmt (counter_positive var)
                              (StmtList (body' ++ [decrement var]))) (restore st1 st2)).
    + rewrite (bind_eq _ _ _ _ _ Hk). reflexivity.
    + rewrite (bind_eq _ _ _ _ _ (open_loop_eq st1 c sc1 (xs ++ [var]) Hc1 Hsc1 Hxs1)).
      rewrite (bind_eq _ _ _ _ _ Hb). rewrite (bind_eq _ _ _ _ _ Hclose). reflexivity.
  - apply bind_raise.
    rewrite (bind_eq _ _ _ _ _ (open_loop_eq st1 c sc1 (xs ++ [var]) Hc1 Hsc1 Hxs1)).
    apply bind_raise. exact Hb.
Qed.

(** C1. In a state satisfying the invariant, with [var] the variable
    symbol [:anonymous:] that carries the next symbol id: no scope of the
    store declares [var] and every declared symbol has a smaller id.
    Analysis of [TimesStmt num (StmtList stmts)], when it returns, returns
    the list: declaration of [var], write of [num] to it, a [while] on
    [var > 0] whose body is the analyzed body followed by the decrement of
    [var], and the kill of [var]; the body is analyzed in the scope of
    the loop, after [var] was defined, and it is not in general the body
    as it was written (a nested repetition or a return in it comes back
    rewritten).  With fuel for
    the body, the analysis returns this list whenever the analysis of the
    body returns, and raises what the analysis of the body raises. *)
Theorem times_desugar fuel num stmts st c sc xs :
  Inv st -> scope st = Some c -> scope_objs st !! c = Some sc ->
  list_objs st !! _active_vars sc = Some xs ->
  let var := mkSymbol ":anonymous:" (_next_sym_id st) variable in
  let body_state := opened_loop c (xs ++ [var]) (defined_var c sc xs st) in
  (forall h sc0 x, scope_objs st !! h = Some sc0 -> x ∈ _syms sc0 ->
     x <> var /\ sym_id x < sym_id var)
  /\ (forall r st',
        sem_stmt fuel (TimesStmt num (StmtList stmts)) st = OK r st' ->
        exists body' fuel' st2,
          sem_each (sem_stmt fuel') stmts [] body_state = OK body' st2
          /\ r = times_desugared var num body')
  /\ match sem_each (sem_stmt (S fuel)) stmts [] body_state with
     | OK body' st2 =>
         exists st', sem_stmt (S (S (S (S fuel)))) (TimesStmt num (StmtList stmts)) st
                     = OK (times_desugared var num body') st'
     | Raise e =>
         sem_stmt (S (S (S (S fuel)))) (TimesStmt num (StmtList stmts)) st = Raise e
     end.
Proof.
  intros HI Hc Hsc Hxs var body_state. split; [|split].
  - intros h sc0 x Hsc0 Hx. pose proof (inv_ids_lt _ HI _ _ _ Hsc0 Hx) as Hlt.
    simpl. split; [|lia]. intros ->. simpl in Hlt. lia.
  - intros r st' H.
    destruct (sem_stmt_OK_fuel _ _ _ _ _ H) as [f1 ->]. rewrite sem_stmt_Times_eq in H.
    rewrite (bind_eq _ _ _ _ _ (def_var_eq st c sc xs HI Hc Hsc Hxs)) in H. fold var in H.
    bind_inv H as w st2 Hw. bind_inv H as u st3 Hkill. injection H as <- <-.
    destruct (sem_stmt_OK_fuel _ _ _ _ _ Hw) as [f2 ->]. rewrite sem_stmt_While_eq in Hw.
    assert (Hopen : open_loop (defined_var c sc xs st) = OK tt body_state).
    { eapply (open_loop_eq _ c (with_syms (_syms sc ++ [var]) sc)); auto.
      - simpl. apply list_lookup_insert_eq. eapply lookup_lt_Some; eauto.
      - simpl. apply list_lookup_insert_eq. eapply lookup_lt_Some; eauto. }
    rewrite (bind_eq _ _ _ _ _ Hopen) in Hw.
    bind_inv Hw as b st5 Hbody. bind_inv Hw as u' st6 Hclose. injection Hw as <- <-.
    destruct (sem_stmt_OK_fuel _ _ _ _ _ Hbody) as [f3 ->].
    destruct f3 as [|f4].
    { rewrite sem_stmt_StmtList_eq in Hbody. bind_inv Hbody as res st7 Heach.
      rewrite sem_each_app in Heach.
      destruct (sem_each (sem_stmt 0) stmts [] body_state); discriminate. }
    rewrite sem_body_with_decrement in Hbody.
    destruct (sem_each (sem_stmt (S f4)) stmts [] body_state) as [body' st8|e] eqn:Hb;
      [|discriminate].
    injection Hbody as <- <-. exists body', (S f4), st8. auto.
  - apply sem_Times_run; auto.
Qed.

(** The value and the final state of a run, for stating facts about
    concrete runs. *)
Definition result_value {A} (default : A) (r : result A) : A :=
  match r with OK a _ => a | Raise _ => default end.

Definition result_state (default : Analyzer) {A} (r : result A) : Analyzer :=
  match r with OK _ st => st | Raise _ => default end.

Definition demo_command (sel : string) : Stmt := CommandStmt (mkCommand sel "attack").

Lemma times_desugar_witness :
  let var := mkSymbol ":anonymous:" 0 variable in
  let inner := mkSymbol ":anonymous:" 1 variable in
  (forall h sc0 x, scope_objs (Analyzer_init []) !! h = Some sc0 -> x ∈ _syms sc0 ->
     x <> var /\ sym_id x < sym_id var)
  /\ exists st',
       sem_stmt 7 (TimesStmt 3 (StmtList [demo_command "p1"; TimesStmt 2 (StmtList [])]))
         (Analyzer_init [])
       = OK (times_desugared var 3 [demo_command "p1"; times_desugared inner 2 []]) st'.
Proof.
  destruct (times_desugar 3 3 [demo_command "p1"; TimesStmt 2 (StmtList [])]
              (Analyzer_init []) 0
              (mkScope None [] ∅ 0 ∅ true) [] (Inv_init []) eq_refl eq_refl eq_refl)
    as (Hfresh & _ & Hrun).
  split; [exact Hfresh | exact Hrun].
Defined.

(** C1, counterexample to the body of the [while] being the body as
    written: the counted repetition [times 3 { times 2 { } }] is analyzed
    from the initial state to a [while] whose body holds the desugared
    inner repetition, not the inner [TimesStmt]; so the result is not the
    list built from the written body, and no statement that gives the
    written body with the decrement appended for every body holds. *)
Lemma times_body_not_verbatim :
  let var := mkSymbol ":anonymous:" 0 variable in
  let inner := mkSymbol ":anonymous:" 1 variable in
  let stmts := [TimesStmt 2 (StmtList [])] in
  (exists st',
     sem_stmt 7 (TimesStmt 3 (StmtList stmts)) (Analyzer_init [])
     = OK (times_desugared var 3 [times_desugared inner 2 []]) st')
  /\ times_desugared var 3 [times_desugared inner 2 []] <> times_desugared var 3 stmts
  /\ ~ (forall fuel num body st r st',
          Inv st ->
          sem_stmt fuel (TimesStmt num (StmtList body)) st = OK r st' ->
          r = times_desugared (mkSymbol ":anonymous:" (_next_sym_id st) variable) num body).
Proof.
  intros var inner stmts.
  assert (Hrun : exists st',
             sem_stmt 7 (TimesStmt 3 (StmtList stmts)) (Analyzer_init [])
             = OK (times_desugared var 3 [times_desugared inner 2 []]) st').
  { eexists. vm_compute. reflexivity. }
  split; [exact Hrun|]. split; [discriminate|].
  intros Hall. destruct Hrun as [st' Hrun].
  pose proof (Hall _ _ _ _ _ _ (Inv_init []) Hrun) as E. discriminate E.
Qed.

(** * C2: desugaring of post-condition repetition *)

Definition until_desugared (guard : Expression) (body' : Stmt) : Stmt :=
  IfStmt guard (StmtList [])
    (StmtList [UntilRegion guard (WhileStmt (UnaryExpression not_token guard) body')]).

(** C2. In a state satisfying the invariant, with [guard] the analyzed
    guard expression: analysis of [UntilStmt expr body] returns exactly
    when the analysis of [body] in the scope and at the nesting level of a
    loop returns, say [body'], and it returns
    [if guard then (nothing) else until-region(guard, while not guard:
    body')]; the one analyzed guard is used in all three positions.  It
    raises what the analysis of the body raises. *)
Theorem until_desugar fuel expr body st c sc xs :
  Inv st -> scope st = Some c -> scope_objs st !! c = Some sc ->
  list_objs st !! _active_vars sc = Some xs ->
  let guard := sem_expr expr in
  (forall r st',
      sem_stmt (S fuel) (UntilStmt expr body) st = OK r st' ->
      exists body' st2,
        sem_stmt fuel body (opened_loop c xs st) = OK body' st2
        /\ r = until_desugared guard body' /\ st' = restore st st2)
  /\ match sem_stmt fuel body (opened_loop c xs st) with
     | OK body' st2 =>
         sem_stmt (S fuel) (UntilStmt expr body) st
         = OK (until_desugared guard body') (restore st st2)
     | Raise e => sem_stmt (S fuel) (UntilStmt expr body) st = Raise e
     end.
Proof.
  intros HI Hc Hsc Hxs guard.
  assert (Hrun : match sem_stmt fuel body (opened_loop c xs st) with
                 | OK body' st2 =>
                     sem_stmt (S fuel) (UntilStmt expr body) st
                     = OK (until_desugared guard body') (restore st st2)
                 | Raise e => sem_stmt (S fuel) (UntilStmt expr body) st = Raise e
                 end).
  { rewrite sem_stmt_Until_eq.
    rewrite (bind_eq _ _ _ _ _ (open_loop_eq st c sc xs Hc Hsc Hxs)).
    destruct (sem_stmt fuel body (opened_loop c xs st)) as [body' st2|e] eqn:Hb.
    - destruct (loop_body_closes _ st c sc xs _ st2 (good_sem_stmt fuel body)
                  HI Hc Hsc Hxs Hb) as (Hclose & _).
      rewrite (bind_eq _ _ _ _ _ Hb). rewrite (bind_eq _ _ _ _ _ Hclose). reflexivity.
    - apply bind_raise. exact Hb. }
  split; [|exact Hrun].
  intros r st' H.
  destruct (sem_stmt fuel body (opened_loop c xs st)) as [body' st2|e].
  - rewrite Hrun in H. injection H as <- <-. eauto.
  - rewrite Hrun in H. discriminate.
Qed.

Lemma until_desugar_witness :
  exists st',
    sem_stmt 4 (UntilStmt (OpaqueExpression "done") (StmtList [demo_command "p1"]))
      (Analyzer_init [])
    = OK (until_desugared (OpaqueExpression "done") (StmtList [demo_command "p1"])) st'.
Proof.
  destruct (until_desugar 3 (OpaqueExpression "done") (StmtList [demo_command "p1"])
              (Analyzer_init []) 0 (mkScope None [] ∅ 0 ∅ true) []
              (Inv_init []) eq_refl eq_refl eq_refl) as [_ Hrun].
  eexists. exact Hrun.
Defined.

(** ** The run of an early return inside a block *)

Lemma sem_Return_run fuel st c sc xs :
  Inv st -> scope st = Some c -> scope_objs st !! c = Some sc ->
  list_objs st !! _active_vars sc = Some xs ->
  0 < _block_nesting_level st ->
  exists st',
    sem_stmt (S fuel) ReturnStmt st
    = OK (StmtList [StmtList (map KillVarStmt (reverse xs)); ReturnStmt]) st'
    /\ Inv st' /\ frame c st st' /\ cleaned_up c sc xs st st'.
Proof.
  intros HI Hc Hsc Hxs Hlvl.
  destruct (gen_cleanup_all_vars_spec st c sc xs HI Hc Hsc Hxs)
    as (st' & Hrun & HI' & Hfr & Hclean).
  exists st'. split; [|auto].
  cbn [sem_stmt sem_stmt_body]. rewrite (bind_eq _ _ _ st st) by reflexivity.
  destruct (_block_nesting_level st <=? 0) eqn:E; [apply Z.leb_le in E; lia|].
  rewrite (bind_eq _ _ _ _ _ Hrun). reflexivity.
Qed.

(** * C3: cleanup before an early return *)

(** C3. In a state satisfying the invariant whose block nesting level is
    positive, with [xs] the active list of the current scope: activation
    appends to [xs], so [xs] is in activation order; [ReturnStmt] is
    rewritten to the list of a [StmtList] of one [KillVarStmt] for each
    element of [xs], last activated first, and then the [ReturnStmt];
    afterwards the active list of the current scope is empty. *)
Theorem return_cleanup fuel st c sc xs :
  Inv st -> scope st = Some c -> scope_objs st !! c = Some sc ->
  list_objs st !! _active_vars sc = Some xs ->
  0 < _block_nesting_level st ->
  (forall sym, sym ∉ xs ->
     exists st_a, activate_var c sym st = OK tt st_a
                  /\ list_objs st_a !! _active_vars sc = Some (xs ++ [sym]))
  /\ exists st',
       sem_stmt (S fuel) ReturnStmt st
       = OK (StmtList [StmtList (map KillVarStmt (reverse xs)); ReturnStmt]) st'
       /\ scope st' = Some c
       /\ cleaned_up c sc xs st st'.
Proof.
  intros HI Hc Hsc Hxs Hlvl. split.
  - intros sym Hnin. eexists. split; [eapply activate_var_eq; eauto|].
    simpl. apply list_lookup_insert_eq. eapply lookup_lt_Some; eauto.
  - destruct (sem_Return_run fuel st c sc xs HI Hc Hsc Hxs Hlvl)
      as (st' & Hrun & HI' & Hfr & Hclean).
    exists st'. split; [exact Hrun|]. split; [|exact Hclean].
    rewrite (se_scope _ _ (fr_scalars _ _ _ Hfr)). auto.
Qed.

(** A state inside a block in which three variables were defined one after
    the other. *)
Definition three_vars_state : Analyzer :=
  result_state (Analyzer_init [])
    ((do! open_block in do! def_var in do! def_var in def_var) (Analyzer_init [])).

Lemma Inv_three_vars_state : Inv three_vars_state.
Proof.
  pose (s1 := result_state (Analyzer_init []) (open_block (Analyzer_init []))).
  pose (s2 := result_state (Analyzer_init []) (def_var s1)).
  pose (s3 := result_state (Analyzer_init []) (def_var s2)).
  assert (H1 : Inv s1).
  { eapply (Inv_after_open_block (Analyzer_init []) tt); [apply Inv_init|].
    vm_compute. reflexivity. }
  assert (H2 : Inv s2).
  { eapply (Inv_after_good def_var s1 (mkSymbol ":anonymous:" 0 variable));
      [apply good_def_var | exact H1 | vm_compute; reflexivity]. }
  assert (H3 : Inv s3).
  { eapply (Inv_after_good def_var s2 (mkSymbol ":anonymous:" 1 variable));
      [apply good_def_var | exact H2 | vm_compute; reflexivity]. }
  eapply (Inv_after_good def_var s3 (mkSymbol ":anonymous:" 2 variable));
    [apply good_def_var | exact H3 | vm_compute; reflexivity].
Qed.

Definition anonymous (i : Z) : Symbol := mkSymbol ":anonymous:" i variable.

Lemma return_cleanup_witness :
  (forall sym, sym ∉ [anonymous 0; anonymous 1; anonymous 2] ->
     exists st_a, activate_var 1 sym three_vars_state = OK tt st_a
                  /\ list_objs st_a !! 1%nat
                     = Some ([anonymous 0; anonymous 1; anonymous 2] ++ [sym]))
  /\ exists st',
       sem_stmt 1 ReturnStmt three_vars_state
       = OK (StmtList [StmtList [KillVarStmt (anonymous 2); KillVarStmt (anonymous 1);
                                 KillVarStmt (anonymous 0)];
                       ReturnStmt]) st'
       /\ scope st' = Some 1%nat
       /\ cleaned_up 1
            (mkScope (Some 0%nat) [anonymous 0; anonymous 1; anonymous 2] ∅ 1 ∅ true)
            [anonymous 0; anonymous 1; anonymous 2] three_vars_state st'.
Proof.
  apply (return_cleanup 0 three_vars_state 1
           (mkScope (Some 0%nat) [anonymous 0; anonymous 1; anonymous 2] ∅ 1 ∅ true)
           [anonymous 0; anonymous 1; anonymous 2]).
  - apply Inv_three_vars_state.
  - reflexivity.
  - vm_compute. reflexivity.
  - vm_compute. reflexivity.
  - vm_compute. reflexivity.
Defined.

(** The same in a whole program: a routine whose body nests three counted
    repetitions around a conditional early return. *)
Definition nested_return_program : list Stmt :=
  [BlockDefStmt (IdentExpression "f")
     (StmtList [TimesStmt 2 (StmtList [TimesStmt 3 (StmtList [TimesStmt 4 (StmtList
        [IfStmt (OpaqueExpression "c") (StmtList [ReturnStmt]) (StmtList [])])])])])].

Definition returns_of_if (s : Stmt) : Stmt :=
  match s with IfStmt _ (StmtList [r]) _ => r | _ => NoneStmt end.

Definition body_of_while (s : Stmt) : list Stmt :=
  match s with
  | StmtList [_; _; WhileStmt _ (StmtList body); _] => body
  | _ => []
  end.

Definition body_of_block (s : Stmt) : list Stmt :=
  match s with BlockDefStmt _ (StmtList body) => body | _ => [] end.

Example nested_return_kills_in_reverse :
  match run_analyzer 20 nested_return_program with
  | OK _ st =>
      match _block_defs st with
      | [def] =>
          match body_of_block def with
          | t1 :: _ =>
              match body_of_while t1 with
              | t2 :: _ =>
                  match body_of_while t2 with
                  | t3 :: _ =>
                      match body_of_while t3 with
                      | i :: _ => Some (returns_of_if i)
                      | _ => None
                      end
                  | _ => None
                  end
              | _ => None
              end
          | _ => None
          end
      | _ => None
      end
  | Raise _ => None
  end
  = Some (StmtList [StmtList [KillVarStmt (anonymous 3); KillVarStmt (anonymous 2);
                              KillVarStmt (anonymous 1)];
                    ReturnStmt]).
Proof. vm_compute. reflexivity. Qed.

(** * C4: legality of early return and early break *)

Lemma sem_Return_outside fuel st :
  _block_nesting_level st <= 0 ->
  sem_stmt (S fuel) ReturnStmt st = Raise (SemError ReturnOutsideBlock).
Proof.
  intros H. cbn [sem_stmt sem_stmt_body]. rewrite (bind_eq _ _ _ st st) by reflexivity.
  destruct (_block_nesting_level st <=? 0) eqn:E; [reflexivity|].
  apply Z.leb_gt in E. lia.
Qed.

Lemma sem_Break_outside fuel st :
  _loop_nesting_level st <= 0 ->
  sem_stmt (S fuel) BreakStmt st = Raise (SemError BreakOutsideLoop).
Proof.
  intros H. cbn [sem_stmt sem_stmt_body]. rewrite (bind_eq _ _ _ st st) by reflexivity.
  destruct (_loop_nesting_level st <=? 0) eqn:E; [reflexivity|].
  apply Z.leb_gt in E. lia.
Qed.

Lemma sem_Break_inside fuel st :
  0 < _loop_nesting_level st ->
  sem_stmt (S fuel) BreakStmt st = OK BreakStmt st.
Proof.
  intros H. cbn [sem_stmt sem_stmt_body]. rewrite (bind_eq _ _ _ st st) by reflexivity.
  destruct (_loop_nesting_level st <=? 0) eqn:E; [|reflexivity].
  apply Z.leb_le in E. lia.
Qed.

(** Unfolding of [sem_stmt] at a block definition. *)
Lemma sem_stmt_BlockDef_eq fuel ident stmts :
  sem_stmt (S fuel) (BlockDefStmt (IdentExpression ident) (StmtList stmts))
  = (let! sym := gen_block_sym ident in
     do! open_block in
     let! body' := sem_stmt fuel (StmtList (stmts ++ [ReturnStmt])) in
     do! close_block in
     let stmt' := BlockDefStmt (SymExpression sym) body' in
     do! modify (fun st => set_sym_defnode ((sym, stmt') :: sym_defnode st) st) in
     do! modify (fun st => set_block_defs (_block_defs st ++ [stmt']) st) in
     ret NoneStmt).
Proof. reflexivity. Qed.

(** The state in which the body of a block definition is analyzed. *)
Definition block_body_state (c : nat) (sc : Scope) (ident : string) (st : Analyzer) : Analyzer :=
  opened_block c (declared c sc (mkSymbol ident (_next_sym_id st) block) st).

(** A [break] directly in the body of a block definition. *)
Lemma sem_BlockDef_break fuel ident pre post st c sc :
  Inv st -> scope st = Some c -> scope_objs st !! c = Some sc ->
  sem_stmt (S (S (S fuel)))
    (BlockDefStmt (IdentExpression ident) (StmtList (pre ++ BreakStmt :: post))) st
  = match sem_each (sem_stmt (S fuel)) pre [] (block_body_state c sc ident st) with
    | OK _ _ => Raise (SemError BreakOutsideLoop)
    | Raise e => Raise e
    end.
Proof.
  intros HI Hc Hsc. rewrite sem_stmt_BlockDef_eq. unfold block_body_state.
  rewrite (bind_eq _ _ _ _ _ (gen_block_sym_eq st c sc ident Hc Hsc)).
  set (sym := mkSymbol ident (_next_sym_id st) block).
  assert (HI1 : Inv (declared c sc sym st)) by (apply Inv_declared; auto).
  rewrite (bind_eq _ _ _ _ _ (open_block_eq (declared c sc sym st) c Hc)).
  set (st1 := opened_block c (declared c sc sym st)).
  assert (HI2 : Inv st1) by (apply Inv_opened_block; auto).
  rewrite sem_stmt_StmtList_eq.
  unfold bind at 1. unfold bind at 1.
  rewrite <- app_assoc. rewrite sem_each_app.
  pose proof (good_sem_each _ (good_sem_stmt (S fuel)) pre [] st1 _ HI2 eq_refl) as Hpre.
  destruct (sem_each (sem_stmt (S fuel)) pre [] st1) as [out st3|e]; [|reflexivity].
  destruct Hpre as [_ Hfr].
  change ((BreakStmt :: post) ++ [ReturnStmt]) with (BreakStmt :: (post ++ [ReturnStmt])).
  cbn [sem_each].
  rewrite (bind_raise _ _ _ (SemError BreakOutsideLoop)); [reflexivity|].
  apply sem_Break_outside.
  rewrite (se_loop _ _ (fr_scalars _ _ _ Hfr)). simpl. lia.
Qed.

(** C4. In a state satisfying the invariant, [ReturnStmt] raises exactly
    when the block nesting level is zero and [BreakStmt] raises exactly
    when the loop nesting level is zero, both with their [SemError].
    [open_block] saves the loop nesting level and sets it to zero, and the
    analysis of a block definition leaves both levels as they were.  So
    the analysis of a block definition whose body has a [break] directly in
    it never returns, whatever the loop nesting level around the
    definition: when the statements before the [break] are analyzed, the
    error of the [break] is raised. *)
Theorem return_break_legality fuel st c sc :
  Inv st -> scope st = Some c -> scope_objs st !! c = Some sc ->
  ((exists e, sem_stmt (S fuel) ReturnStmt st = Raise e) <-> _block_nesting_level st = 0)
  /\ (_block_nesting_level st = 0 ->
      sem_stmt (S fuel) ReturnStmt st = Raise (SemError ReturnOutsideBlock))
  /\ ((exists e, sem_stmt (S fuel) BreakStmt st = Raise e) <-> _loop_nesting_level st = 0)
  /\ (_loop_nesting_level st = 0 ->
      sem_stmt (S fuel) BreakStmt st = Raise (SemError BreakOutsideLoop))
  /\ (open_block st = OK tt (opened_block c st)
      /\ _loop_nesting_level (opened_block c st) = 0
      /\ _loop_nesting_stack (opened_block c st)
         = _loop_nesting_stack st ++ [_loop_nesting_level st]
      /\ _block_nesting_level (opened_block c st) = _block_nesting_level st + 1)
  /\ (forall name body r st',
        sem_stmt (S fuel) (BlockDefStmt name body) st = OK r st' ->
        _loop_nesting_level st' = _loop_nesting_level st
        /\ _loop_nesting_stack st' = _loop_nesting_stack st
        /\ _block_nesting_level st' = _block_nesting_level st)
  /\ (forall ident pre post,
        (forall fuel' r st',
            sem_stmt fuel'
              (BlockDefStmt (IdentExpression ident) (StmtList (pre ++ BreakStmt :: post))) st
            <> OK r st')
        /\ sem_stmt (S (S (S fuel)))
             (BlockDefStmt (IdentExpression ident) (StmtList (pre ++ BreakStmt :: post))) st
           = match sem_each (sem_stmt (S fuel)) pre [] (block_body_state c sc ident st) with
             | OK _ _ => Raise (SemError BreakOutsideLoop)
             | Raise e => Raise e
             end).
Proof.
  intros HI Hc Hsc.
  destruct (inv_levels _ HI) as (Hb & Hl & _).
  destruct (lookup_lt_is_Some_2 _ _ (inv_loc_valid _ HI _ _ Hsc)) as [xs Hxs].
  split; [|split; [|split; [|split; [|split; [|split]]]]].
  - split.
    + intros [e He]. destruct (Z.eq_dec (_block_nesting_level st) 0) as [|Hne]; [auto|].
      destruct (sem_Return_run fuel st c sc xs HI Hc Hsc Hxs ltac:(lia)) as (st' & Hrun & _).
      congruence.
    + intros E. eexists. apply sem_Return_outside. lia.
  - intros E. apply sem_Return_outside. lia.
  - split.
    + intros [e He]. destruct (Z.eq_dec (_loop_nesting_level st) 0) as [|Hne]; [auto|].
      rewrite sem_Break_inside in He by lia. discriminate.
    + intros E. eexists. apply sem_Break_outside. lia.
  - intros E. apply sem_Break_outside. lia.
  - split; [apply open_block_eq; auto | auto].
  - intros name body r st' H.
    pose proof (good_sem_stmt (S fuel) (BlockDefStmt name body) st c HI Hc) as Hg.
    rewrite H in Hg. destruct Hg as [_ Hfr].
    destruct (fr_scalars _ _ _ Hfr). auto.
  - intros ident pre post. split; [|apply sem_BlockDef_break; auto].
    intros fuel' r st' H.
    destruct fuel' as [|[|[|f]]].
    + discriminate.
    + rewrite sem_stmt_BlockDef_eq in H.
      rewrite (bind_eq _ _ _ _ _ (gen_block_sym_eq st c sc ident Hc Hsc)) in H.
      rewrite (bind_eq _ _ _ _ _ (open_block_eq
                 (declared c sc (mkSymbol ident (_next_sym_id st) block) st) c Hc)) in H. discriminate.
    + rewrite sem_stmt_BlockDef_eq in H.
      rewrite (bind_eq _ _ _ _ _ (gen_block_sym_eq st c sc ident Hc Hsc)) in H.
      rewrite (bind_eq _ _ _ _ _ (open_block_eq
                 (declared c sc (mkSymbol ident (_next_sym_id st) block) st) c Hc)) in H.
      rewrite sem_stmt_StmtList_eq in H.
      destruct pre; discriminate.
    + rewrite (sem_BlockDef_break f ident pre post st c sc HI Hc Hsc) in H.
      destruct (sem_each _ _ _ _); discriminate.
Qed.

(** A state inside a loop at top level. *)
Definition in_loop_state : Analyzer :=
  result_state (Analyzer_init []) (open_loop (Analyzer_init [])).

Lemma Inv_in_loop_state : Inv in_loop_state.
Proof.
  eapply (Inv_after_open_loop (Analyzer_init []) tt); [apply Inv_init|].
  vm_compute. reflexivity.
Qed.

Definition break_in_block : Stmt :=
  BlockDefStmt (IdentExpression "f") (StmtList ([] ++ BreakStmt :: [])).

Lemma return_break_legality_witness :
  _loop_nesting_level in_loop_state = 1
  /\ sem_stmt 1 ReturnStmt in_loop_state = Raise (SemError ReturnOutsideBlock)
  /\ sem_stmt 1 BreakStmt in_loop_state = OK BreakStmt in_loop_state
  /\ (forall fuel' r st', sem_stmt fuel' break_in_block in_loop_state <> OK r st')
  /\ sem_stmt 3 break_in_block in_loop_state = Raise (SemError BreakOutsideLoop).
Proof.
  destruct (return_break_legality 0 in_loop_state 1
              (mkScope (Some 0%nat) [] ∅ 2 ∅ false) Inv_in_loop_state eq_refl eq_refl)
    as (_ & Hret & _ & _ & _ & _ & Hblock).
  destruct (Hblock "f" [] []) as [Hnever Hexact].
  split; [reflexivity|]. split; [apply Hret; reflexivity|].
  split; [reflexivity|]. split; [exact Hnever | exact Hexact].
Defined.

(** In whole programs: a routine defined inside a loop whose body breaks,
    and a return at top level. *)
Example break_in_block_inside_loop :
  run_analyzer 10 [WhileStmt (OpaqueExpression "c") (StmtList [break_in_block])]
  = Raise (SemError BreakOutsideLoop).
Proof. vm_compute. reflexivity. Qed.

Example return_at_top_level :
  run_analyzer 10 [ReturnStmt] = Raise (SemError ReturnOutsideBlock).
Proof. vm_compute. reflexivity. Qed.

(** * C5: resolution of calls *)

(** C5. For a call whose target is a plain identifier, in a state
    satisfying the invariant with current scope [c]: the analysis either
    returns the call with the identifier replaced by a block symbol, which
    is the one declared last under that name in the first scope, going up
    from [c] through the parents, that declares a block of that name, and
    leaves the state as it is; or it raises the [SemError] for a symbol
    not found, and then no scope from [c] up to the root declares a block
    of that name.  Only symbols that are in the store at that point can be
    found. *)
Theorem call_resolution fuel ident st c :
  Inv st -> scope st = Some c ->
  match sem_stmt (S fuel) (CallStmt (IdentExpression ident)) st with
  | OK r st' =>
      st' = st
      /\ exists sym h' sc',
           r = CallStmt (SymExpression sym)
           /\ first_declaring (scope_objs st) ident c h'
           /\ scope_objs st !! h' = Some sc'
           /\ latest_block sc' ident sym
  | Raise e =>
      e = SemError (UnableToFindSymbol ident)
      /\ forall h' sc', on_chain (scope_objs st) c h' -> scope_objs st !! h' = Some sc' ->
                        ~ declares_block sc' ident
  end.
Proof.
  intros HI Hc. cbn [sem_stmt sem_stmt_body].
  destruct (inv_scope _ HI) as (c' & Hc' & Hlt). assert (c' = c) by congruence. subst c'.
  pose proof (lookup_block_by_name_spec st c ident (inv_wf _ HI) Hlt) as H.
  unfold bind at 1. rewrite (bind_eq _ _ _ c st) by (apply the_scope_eq; auto).
  destruct (lookup_block_by_name c ident st) as [sym st'|e].
  - destruct H as (-> & h' & sc' & Hfd & Hsc' & Hlb). simpl.
    split; [reflexivity|]. exists sym, h', sc'. auto.
  - exact H.
Qed.

(** A state in which the root scope declares blocks [f] and [g] and the
    current scope, the body of [g], declares another block [f]. *)
Definition shadowing_state : Analyzer :=
  result_state (Analyzer_init [])
    ((do! gen_block_sym "f" in do! gen_block_sym "g" in do! open_block in gen_block_sym "f")
       (Analyzer_init [])).

Lemma Inv_shadowing_state : Inv shadowing_state.
Proof.
  pose (s1 := result_state (Analyzer_init []) (gen_block_sym "f" (Analyzer_init []))).
  pose (s2 := result_state (Analyzer_init []) (gen_block_sym "g" s1)).
  pose (s3 := result_state (Analyzer_init []) (open_block s2)).
  assert (H1 : Inv s1).
  { eapply (Inv_after_good (gen_block_sym "f") (Analyzer_init []) (mkSymbol "f" 0 block));
      [apply good_gen_block_sym | apply Inv_init | vm_compute; reflexivity]. }
  assert (H2 : Inv s2).
  { eapply (Inv_after_good (gen_block_sym "g") s1 (mkSymbol "g" 1 block));
      [apply good_gen_block_sym | exact H1 | vm_compute; reflexivity]. }
  assert (H3 : Inv s3).
  { eapply (Inv_after_open_block s2 tt); [exact H2 | vm_compute; reflexivity]. }
  eapply (Inv_after_good (gen_block_sym "f") s3 (mkSymbol "f" 2 block));
    [apply good_gen_block_sym | exact H3 | vm_compute; reflexivity].
Qed.

Lemma call_resolution_witness :
  match sem_stmt 1 (CallStmt (IdentExpression "f")) shadowing_state with
  | OK r st' =>
      st' = shadowing_state
      /\ exists sym h' sc',
           r = CallStmt (SymExpression sym)
           /\ first_declaring (scope_objs shadowing_state) "f" 1 h'
           /\ scope_objs shadowing_state !! h' = Some sc'
           /\ latest_block sc' "f" sym
  | Raise e =>
      e = SemError (UnableToFindSymbol "f")
      /\ forall h' sc', on_chain (scope_objs shadowing_state) 1 h' ->
                        scope_objs shadowing_state !! h' = Some sc' ->
                        ~ declares_block sc' "f"
  end.
Proof.
  apply (call_resolution 0 "f" shadowing_state 1).
  - apply Inv_shadowing_state.
  - reflexivity.
Defined.

(** In the scope of the inner [f] a call of [f] gets the inner symbol and a
    call of [g] the one of the root; back in the root scope a call of [f]
    gets the outer symbol. *)
Example call_resolves_innermost :
  sem_stmt 1 (CallStmt (IdentExpression "f")) shadowing_state
  = OK (CallStmt (SymExpression (mkSymbol "f" 2 block))) shadowing_state
  /\ sem_stmt 1 (CallStmt (IdentExpression "g")) shadowing_state
     = OK (CallStmt (SymExpression (mkSymbol "g" 1 block))) shadowing_state
  /\ sem_stmt 1 (CallStmt (IdentExpression "f")) (set_scope (Some 0%nat) shadowing_state)
     = OK (CallStmt (SymExpression (mkSymbol "f" 0 block)))
          (set_scope (Some 0%nat) shadowing_state).
Proof. split; [|split]; vm_compute; reflexivity. Qed.

(** A call before the definition of the routine it names. *)
Example forward_reference_fails :
  run_analyzer 10 [CallStmt (IdentExpression "f");
                   BlockDefStmt (IdentExpression "f") (StmtList [])]
  = Raise (SemError (UnableToFindSymbol "f")).
Proof. vm_compute. reflexivity. Qed.

(** A routine may call itself: its symbol is declared before its body is
    analyzed. *)
Example recursive_call_resolves :
  match run_analyzer 10 [BlockDefStmt (IdentExpression "f")
                           (StmtList [CallStmt (IdentExpression "f")])] with
  | OK _ st =>
      match _block_defs st with
      | [BlockDefStmt _ (StmtList (call :: _))] => Some call
      | _ => None
      end
  | Raise _ => None
  end
  = Some (CallStmt (SymExpression (mkSymbol "f" 0 block))).
Proof. vm_compute. reflexivity. Qed.

(** * C6: activation and kill *)

Lemma kill_var_not_local st h sym :
  wf_store (scope_objs st) -> (h < length (scope_objs st))%nat ->
  ~ BlockLocal (scope_objs st) h sym ->
  kill_var h sym st = Raise (SemError KillNotBlockLocal).
Proof.
  intros Hwf Hlt Hnl.
  destruct (is_block_local_var_spec st h sym Hwf Hlt) as (b & Hrun & Hb).
  destruct b; [exfalso; apply Hnl, Hb; reflexivity|].
  unfold kill_var. rewrite (bind_eq _ _ _ _ _ Hrun). reflexivity.
Qed.

Lemma kill_var_inactive st h sc xs sym :
  wf_store (scope_objs st) -> scope_objs st !! h = Some sc ->
  list_objs st !! _active_vars sc = Some xs ->
  BlockLocal (scope_objs st) h sym -> sym ∉ xs ->
  kill_var h sym st = Raise (SemError (KillInactive sym)).
Proof.
  intros Hwf Hsc Hxs Hl Hnin.
  destruct (is_block_local_var_spec st h sym Hwf) as (b & Hrun & Hb).
  { eapply lookup_lt_Some; eauto. }
  assert (b = true) by (apply Hb; auto). subst b.
  unfold kill_var. rewrite (bind_eq _ _ _ _ _ Hrun). simpl.
  rewrite (bind_eq _ _ _ sc st) by (apply deref_eq; auto).
  rewrite (bind_eq _ _ _ xs st) by (apply read_list_eq; auto).
  rewrite bool_decide_eq_false_2 by auto. reflexivity.
Qed.

(** C6. For a scope [h] with active list [xs], in a state satisfying the
    invariant: activating a symbol of [xs] raises the [SemError] for an
    already active variable; [is_block_local_var] returns true exactly
    for the symbols declared by a scope on the path from [h] upwards that
    has no block scope strictly before it; killing a symbol that is not
    block local in this sense raises the [SemError] for a variable not
    local to the block; killing a block local symbol that is not in [xs]
    raises the [SemError] for an inactive variable.  So killing a symbol
    not in [xs] always raises. *)
Theorem lifetime_errors st h sc xs sym :
  Inv st -> scope_objs st !! h = Some sc ->
  list_objs st !! _active_vars sc = Some xs ->
  (sym ∈ xs -> activate_var h sym st = Raise (SemError (ActivateAlreadyActive sym)))
  /\ (exists b, is_block_local_var h sym st = OK b st
                /\ (b = true <-> BlockLocal (scope_objs st) h sym))
  /\ (~ BlockLocal (scope_objs st) h sym ->
      kill_var h sym st = Raise (SemError KillNotBlockLocal))
  /\ (BlockLocal (scope_objs st) h sym -> sym ∉ xs ->
      kill_var h sym st = Raise (SemError (KillInactive sym)))
  /\ (sym ∉ xs -> exists k, kill_var h sym st = Raise (SemError k)).
Proof.
  intros HI Hsc Hxs.
  assert (Hlt : (h < length (scope_objs st))%nat) by (eapply lookup_lt_Some; eauto).
  pose proof (is_block_local_var_spec st h sym (inv_wf _ HI) Hlt) as Hspec.
  split; [|split; [|split; [|split]]].
  - intros Hin. eapply activate_var_active; eauto.
  - exact Hspec.
  - apply kill_var_not_local; auto. apply (inv_wf _ HI).
  - intros Hl Hnin. apply (kill_var_inactive st h sc xs sym (inv_wf _ HI)); auto.
  - intros Hnin. destruct Hspec as (b & Hrun & Hb). destruct b.
    + eexists. apply (kill_var_inactive st h sc xs sym (inv_wf _ HI)); auto.
      apply Hb. reflexivity.
    + eexists. apply kill_var_not_local; auto; [apply (inv_wf _ HI)|].
      intros Hl. apply Hb in Hl. discriminate.
Qed.

Lemma Inv_after_leave_scope st u st' c :
  Inv st -> leave_scope st = OK u st' -> scope st' = Some c -> Inv st'.
Proof.
  intros HI H Hc'. destruct (Inv_current _ HI) as (b & sc & xs & Hb & Hsc & _).
  rewrite (leave_scope_eq st b sc Hb Hsc) in H. injection H as _ <-. simpl in Hc'.
  eapply (Inv_scalars st); auto; try apply (inv_levels _ HI).
  exists c. split; [exact Hc'|].
  pose proof (inv_wf _ HI b sc Hsc) as Hp. rewrite Hc' in Hp.
  apply lookup_lt_Some in Hsc. lia.
Qed.

(** The true branch of a conditional at top level after it defined a
    variable, and the false branch of the same conditional. *)
Definition true_branch_state : Analyzer :=
  result_state (Analyzer_init []) ((do! enter_branch in def_var) (Analyzer_init [])).

Definition false_branch_state : Analyzer :=
  result_state (Analyzer_init [])
    ((do! leave_scope in enter_branch) true_branch_state).

Lemma Inv_true_branch_state : Inv true_branch_state.
Proof.
  pose (s1 := result_state (Analyzer_init []) (enter_branch (Analyzer_init []))).
  assert (H1 : Inv s1).
  { eapply (Inv_after_enter_branch (Analyzer_init []) tt); [apply Inv_init|].
    vm_compute. reflexivity. }
  eapply (Inv_after_good def_var s1 (anonymous 0));
    [apply good_def_var | exact H1 | vm_compute; reflexivity].
Qed.

Lemma Inv_false_branch_state : Inv false_branch_state.
Proof.
  pose (s1 := result_state (Analyzer_init []) (leave_scope true_branch_state)).
  assert (H1 : Inv s1).
  { eapply (Inv_after_leave_scope true_branch_state tt s1 0);
      [apply Inv_true_branch_state | vm_compute; reflexivity | reflexivity]. }
  eapply (Inv_after_enter_branch s1 tt); [exact H1 | vm_compute; reflexivity].
Qed.

Lemma lifetime_errors_witness :
  activate_var 1 (anonymous 0) true_branch_state
  = Raise (SemError (ActivateAlreadyActive (anonymous 0)))
  /\ kill_var 2 (anonymous 0) false_branch_state = Raise (SemError KillNotBlockLocal).
Proof.
  split.
  - destruct (lifetime_errors true_branch_state 1
                (mkScope (Some 0%nat) [anonymous 0] ∅ 2 ∅ false) [anonymous 0] (anonymous 0)
                Inv_true_branch_state) as (Hact & _).
    + vm_compute. reflexivity.
    + vm_compute. reflexivity.
    + apply Hact. apply elem_of_cons. left. reflexivity.
  - destruct (lifetime_errors false_branch_state 2
                (mkScope (Some 0%nat) [] ∅ 4 ∅ false) [] (anonymous 0)
                Inv_false_branch_state) as (_ & (b & Hrun & Hb) & Hkill & _).
    + vm_compute. reflexivity.
    + vm_compute. reflexivity.
    + apply Hkill. intros Hl. apply Hb in Hl. subst b.
      vm_compute in Hrun. discriminate Hrun.
Defined.

(** * C7: isolation of branches *)

(** C7. From a state satisfying the invariant whose current scope [c] has
    the active list [xs]: [enter_branch] makes a new branch scope the
    current one; its active list is another list object than the one of
    [c], with the same elements, so that writing to it leaves the list of
    [c] as it is.  The analysis of a conditional analyzes each branch
    after [enter_branch] and leaves the scope again; when it returns, [c]
    is the current scope again and its scope object (declared symbols,
    selectors, cleaned variables) and its active list are what they were
    before. *)
Theorem branch_isolation fuel expr branch_true branch_false st c sc xs :
  Inv st -> scope st = Some c -> scope_objs st !! c = Some sc ->
  list_objs st !! _active_vars sc = Some xs ->
  (exists st1 b child,
      enter_branch st = OK tt st1
      /\ scope st1 = Some b /\ b <> c
      /\ scope_objs st1 !! b = Some child
      /\ parent child = Some c /\ is_block child = false
      /\ _active_vars child <> _active_vars sc
      /\ list_objs st1 !! _active_vars child = Some xs
      /\ scope_objs st1 !! c = Some sc
      /\ forall ys, <[_active_vars child:=ys]> (list_objs st1) !! _active_vars sc = Some xs)
  /\ (forall r st',
        sem_stmt fuel (IfStmt expr branch_true branch_false) st = OK r st' ->
        (exists fuel' bt bf st1 st2 st3 st4 st5,
            fuel = S fuel' /\ r = IfStmt (sem_expr expr) bt bf
            /\ enter_branch st = OK tt st1 /\ sem_stmt fuel' branch_true st1 = OK bt st2
            /\ leave_scope st2 = OK tt st3
            /\ enter_branch st3 = OK tt st4 /\ sem_stmt fuel' branch_false st4 = OK bf st5
            /\ leave_scope st5 = OK tt st'
            /\ scope st1 <> scope st4)
        /\ scope st' = Some c
        /\ scope_objs st' !! c = Some sc
        /\ list_objs st' !! _active_vars sc = Some xs).
Proof.
  intros HI Hc Hsc Hxs.
  assert (Hlt : (c < length (scope_objs st))%nat) by (eapply lookup_lt_Some; eauto).
  assert (Hll : (_active_vars sc < length (list_objs st))%nat)
    by (eapply lookup_lt_Some; eauto).
  split.
  - exists (entered_branch c xs st), (length (scope_objs st)),
      (mkScope (Some c) [] ∅ (S (length (list_objs st))) ∅ false).
    split; [eapply enter_branch_eq; eauto|].
    split; [reflexivity|]. split; [lia|].
    split; [simpl; apply lookup_snoc_here|].
    split; [reflexivity|]. split; [reflexivity|].
    split; [simpl; lia|].
    split.
    { simpl. rewrite lookup_app_r by lia.
      replace (S (length (list_objs st)) - length (list_objs st))%nat with 1%nat by lia.
      reflexivity. }
    split; [simpl; rewrite lookup_app_l by lia; auto|].
    intros ys. simpl. rewrite list_lookup_insert_ne by lia.
    rewrite lookup_app_l by lia. auto.
  - intros r st' H.
    destruct (sem_stmt_OK_fuel _ _ _ _ _ H) as [f ->].
    pose proof (good_strong_If f expr branch_true branch_false (good_sem_stmt f) st c HI Hc)
      as Hg.
    rewrite H in Hg. destruct Hg as [HI' Hpr].
    split; [|split; [|split]].
    + cbn [sem_stmt sem_stmt_body] in H. cbv zeta in H.
      bind_inv H as [] st1 He1. bind_inv H as bt st2 Hbt. bind_inv H as [] st3 Hl1.
      bind_inv H as [] st4 He2. bind_inv H as bf st5 Hbf. bind_inv H as [] st6 Hl2.
      unfold ret in H. injection H as <- <-.
      exists f, bt, bf, st1, st2, st3, st4, st5.
      repeat (split; [first [reflexivity | assumption]|]).
      (* the two branch scopes are different objects *)
      pose proof (enter_branch_eq st c sc xs Hc Hsc Hxs) as E1.
      rewrite E1 in He1. injection He1 as <-.
      assert (HI1 : Inv (entered_branch c xs st)) by (eapply Inv_entered_branch; eauto).
      pose proof (good_sem_stmt f branch_true (entered_branch c xs st)
                    (length (scope_objs st)) HI1 eq_refl) as Hg1.
      rewrite Hbt in Hg1. destruct Hg1 as [HI2 Hfr2].
      assert (Hb2 : scope st2 = Some (length (scope_objs st)))
        by (rewrite (se_scope _ _ (fr_scalars _ _ _ Hfr2)); reflexivity).
      destruct (fr_cur _ _ _ Hfr2) as (s1 & s2 & Hs1 & Hs2 & (Hp & _)).
      simpl in Hs1. rewrite lookup_snoc_here in Hs1. injection Hs1 as <-. simpl in Hp.
      rewrite (leave_scope_eq _ _ _ Hb2 Hs2) in Hl1. injection Hl1 as <-.
      assert (Hlen2 : (length (scope_objs st) < length (scope_objs st2))%nat)
        by (eapply lookup_lt_Some; eauto).
      assert (HI3 : Inv (set_scope (parent s2) st2)).
      { eapply (Inv_scalars st2); auto; try apply (inv_levels _ HI2).
        exists c. split; [simpl; auto | lia]. }
      destruct (Inv_current _ HI3) as (c3 & sc3 & xs3 & Hc3' & Hsc3 & Hxs3).
      rewrite (enter_branch_eq _ _ _ _ Hc3' Hsc3 Hxs3) in He2. injection He2 as <-.
      simpl. intros [= E]. lia.
    + rewrite (se_scope _ _ (pr_scalars _ _ Hpr)). auto.
    + apply (pr_objs _ _ Hpr). auto.
    + apply (pr_lists _ _ Hpr). auto.
Qed.

Definition if_return_demo : result Stmt :=
  sem_stmt 6 (IfStmt (OpaqueExpression "c") (StmtList [ReturnStmt])
                (StmtList [TimesStmt 2 (StmtList [])]))
    three_vars_state.

Lemma branch_isolation_witness :
  scope (result_state (Analyzer_init []) if_return_demo) = Some 1%nat
  /\ scope_objs (result_state (Analyzer_init []) if_return_demo) !! 1%nat
     = Some (mkScope (Some 0%nat) [anonymous 0; anonymous 1; anonymous 2] ∅ 1 ∅ true)
  /\ list_objs (result_state (Analyzer_init []) if_return_demo) !! 1%nat
     = Some [anonymous 0; anonymous 1; anonymous 2]
  /\ exists bf,
       result_value NoneStmt if_return_demo
       = IfStmt (OpaqueExpression "c")
           (StmtList [StmtList [StmtList [KillVarStmt (anonymous 2); KillVarStmt (anonymous 1);
                                          KillVarStmt (anonymous 0)];
                                ReturnStmt]])
           bf.
Proof.
  destruct (branch_isolation 6 (OpaqueExpression "c") (StmtList [ReturnStmt])
              (StmtList [TimesStmt 2 (StmtList [])]) three_vars_state 1
              (mkScope (Some 0%nat) [anonymous 0; anonymous 1; anonymous 2] ∅ 1 ∅ true)
              [anonymous 0; anonymous 1; anonymous 2] Inv_three_vars_state)
    as [_ Hif].
  - reflexivity.
  - vm_compute. reflexivity.
  - vm_compute. reflexivity.
  - destruct (Hif (result_value NoneStmt if_return_demo)
                (result_state (Analyzer_init []) if_return_demo))
      as (_ & H1 & H2 & H3).
    + vm_compute. reflexivity.
    + split; [exact H1|]. split; [exact H2|]. split; [exact H3|].
      eexists. vm_compute. reflexivity.
Defined.

(** * C8: symbol ids *)

Lemma gen_sym_id_eq st :
  gen_sym_id st = OK (_next_sym_id st) (set_next_sym_id (_next_sym_id st + 1) st).
Proof. reflexivity. Qed.

(** A symbol of the store stays at its place. *)
Lemma frame_positions c st st' h sc i x :
  frame c st st' -> scope_objs st !! h = Some sc -> _syms sc !! i = Some x ->
  exists sc', scope_objs st' !! h = Some sc' /\ _syms sc' !! i = Some x.
Proof.
  intros [_ (s1 & s2 & Hs1 & Hs2 & (_ & _ & _ & Hpre)) Ho _] Hsc Hi.
  destruct (decide (h = c)) as [->|Hne].
  - simplify_eq. exists s2. split; [auto|]. eapply prefix_lookup_Some; eauto.
  - exists sc. auto.
Qed.

(** Between two states of a run related by [frame], a symbol of the later
    store is either one of the earlier store, at the same place, or has an
    id that the counter reached in between. *)
Lemma new_symbol_ids c st st' h sc' i x :
  Inv st -> Inv st' -> frame c st st' ->
  scope_objs st' !! h = Some sc' -> _syms sc' !! i = Some x ->
  (exists sc, scope_objs st !! h = Some sc /\ _syms sc !! i = Some x
              /\ sym_id x < _next_sym_id st)
  \/ _next_sym_id st <= sym_id x < _next_sym_id st'.
Proof.
  intros HI HI' Hfr Hsc' Hi.
  assert (Hin : x ∈ _syms sc') by (eapply list_elem_of_lookup_2; eauto).
  pose proof (inv_ids_lt _ HI' _ _ _ Hsc' Hin) as Hlt'.
  destruct (decide (sym_id x < _next_sym_id st)) as [Hlt|Hge]; [left | right; lia].
  destruct (inv_ids_all _ HI (sym_id x) ltac:(lia)) as (h0 & sc0 & y & Hsc0 & Hy & E).
  apply list_elem_of_lookup_1 in Hy as [j Hj].
  destruct (frame_positions _ _ _ _ _ _ _ Hfr Hsc0 Hj) as (sc0' & Hsc0' & Hj').
  destruct (inv_ids_inj _ HI' _ _ _ _ _ _ _ _ Hsc0' Hsc' Hj' Hi E) as [-> ->].
  simplify_eq. exists sc0. auto.
Qed.

(** C8. [gen_sym_id] returns the counter and increments it.  After the
    analysis of any statements from a state satisfying the invariant (the
    initial state of a run is one): no two symbols of the store share an
    id; the symbols declared in one scope have increasing ids in the order
    of their declaration; and every symbol that was not in the store
    before has an id at least the counter before, so greater than the id
    of every symbol generated earlier. *)
Theorem symbol_ids_unique_increasing fuel stmts res st out st' :
  Inv st ->
  sem_each (sem_stmt fuel) stmts res st = OK out st' ->
  gen_sym_id st' = OK (_next_sym_id st') (set_next_sym_id (_next_sym_id st' + 1) st')
  /\ _next_sym_id st <= _next_sym_id st'
  /\ (forall h1 h2 sc1 sc2 i j x y,
        scope_objs st' !! h1 = Some sc1 -> scope_objs st' !! h2 = Some sc2 ->
        _syms sc1 !! i = Some x -> _syms sc2 !! j = Some y ->
        sym_id x = sym_id y -> h1 = h2 /\ i = j)
  /\ (forall h sc i j x y,
        scope_objs st' !! h = Some sc ->
        _syms sc !! i = Some x -> _syms sc !! j = Some y -> (i < j)%nat ->
        sym_id x < sym_id y)
  /\ (forall h sc' i x,
        scope_objs st' !! h = Some sc' -> _syms sc' !! i = Some x ->
        (exists sc, scope_objs st !! h = Some sc /\ _syms sc !! i = Some x
                    /\ sym_id x < _next_sym_id st)
        \/ _next_sym_id st <= sym_id x < _next_sym_id st').
Proof.
  intros HI H. destruct (inv_scope _ HI) as (c & Hc & _).
  pose proof (good_sem_each _ (good_sem_stmt fuel) stmts res st c HI Hc) as Hg.
  rewrite H in Hg. destruct Hg as [HI' Hfr].
  split; [reflexivity|]. split; [apply (se_next _ _ (fr_scalars _ _ _ Hfr))|].
  split; [apply (inv_ids_inj _ HI')|]. split; [apply (inv_ids_sorted _ HI')|].
  intros h sc' i x. apply (new_symbol_ids c); auto.
Qed.

Definition ids_demo_program : list Stmt :=
  [TimesStmt 2 (StmtList [demo_command "p1"]);
   BlockDefStmt (IdentExpression "f")
     (StmtList [IfStmt (OpaqueExpression "c")
                  (StmtList [TimesStmt 3 (StmtList [])])
                  (StmtList [TimesStmt 4 (StmtList [])])]);
   CallStmt (IdentExpression "f")].

Definition ids_demo : result (list Stmt) :=
  sem_each (sem_stmt 20) ids_demo_program [] (Analyzer_init ids_demo_program).

Lemma symbol_ids_unique_increasing_witness :
  _next_sym_id (Analyzer_init ids_demo_program)
  <= _next_sym_id (result_state (Analyzer_init []) ids_demo)
  /\ _next_sym_id (result_state (Analyzer_init []) ids_demo) = 4
  /\ (forall h1 h2 sc1 sc2 i j x y,
        scope_objs (result_state (Analyzer_init []) ids_demo) !! h1 = Some sc1 ->
        scope_objs (result_state (Analyzer_init []) ids_demo) !! h2 = Some sc2 ->
        _syms sc1 !! i = Some x -> _syms sc2 !! j = Some y ->
        sym_id x = sym_id y -> h1 = h2 /\ i = j).
Proof.
  destruct (symbol_ids_unique_increasing 20 ids_demo_program []
              (Analyzer_init ids_demo_program)
              (result_value [] ids_demo) (result_state (Analyzer_init []) ids_demo)
              (Inv_init ids_demo_program))
    as (_ & Hmono & Hinj & _ & _).
  - vm_compute. reflexivity.
  - split; [exact Hmono|]. split; [vm_compute; reflexivity | exact Hinj].
Defined.

(** * C9: hoisting of block definitions *)

Definition is_block_def (s : Stmt) : bool :=
  match s with BlockDefStmt _ _ => true | _ => false end.

(** No block definition anywhere in a statement. *)
Fixpoint no_block_def (s : Stmt) : bool :=
  match s with
  | BlockDefStmt _ _ => false
  | StmtList stmts => forallb no_block_def stmts
  | IfStmt _ a b => no_block_def a && no_block_def b
  | LoopStmt b | WhileStmt _ b | UntilStmt _ b | TimesStmt _ b | UntilRegion _ b =>
      no_block_def b
  | _ => true
  end.

(** [each_run f stmts st rs st']: running [f] on the statements in order
    from [st] gives the results [rs], one for each statement, and ends in
    [st']. *)
Inductive each_run (f : Stmt -> M Stmt) : list Stmt -> Analyzer -> list Stmt -> Analyzer -> Prop :=
  | each_run_nil st : each_run f [] st [] st
  | each_run_cons s rest st r st1 rs st' :
      f s st = OK r st1 -> each_run f rest st1 rs st' ->
      each_run f (s :: rest) st (r :: rs) st'.

Lemma sem_each_trace (f : Stmt -> M Stmt) stmts :
  forall st out st',
    sem_each f stmts [] st = OK out st' ->
    exists rs, each_run f stmts st rs st' /\ out = filter (fun r => truthy r = true) rs.
Proof.
  induction stmts as [|s rest IH]; intros st out st' H.
  - simpl in H. injection H as <- <-. exists []. split; [constructor | reflexivity].
  - simpl in H. bind_inv H as r st1 Hr. rewrite sem_each_acc in H.
    destruct (sem_each f rest [] st1) as [out1 st2|e] eqn:E; [|discriminate].
    injection H as <- <-. destruct (IH _ _ _ E) as (rs & Hrun & ->).
    exists (r :: rs). split; [econstructor; eauto|].
    rewrite filter_cons. destruct (truthy r) eqn:Ht.
    + rewrite decide_True by reflexivity. reflexivity.
    + rewrite decide_False by discriminate. reflexivity.
Qed.

Lemma gen_cleanup_loop_no_block_def n lst :
  forall res st out st',
    gen_cleanup_loop n lst res st = OK out st' ->
    forallb no_block_def res = true -> forallb no_block_def out = true.
Proof.
  induction n as [|n IH]; intros res st out st' H Hres; simpl in H.
  - injection H as <- <-. auto.
  - bind_inv H as xs st1 Hxs. destruct (xs !! n) as [var|].
    + bind_inv H as u st2 Hk. eapply IH; eauto.
      rewrite forallb_app, Hres. reflexivity.
    + injection H as <- <-. auto.
Qed.

Lemma sem_each_no_block_def (f : Stmt -> M Stmt) :
  (forall s st r st', f s st = OK r st' -> no_block_def r = true) ->
  forall stmts res st out st',
    sem_each f stmts res st = OK out st' ->
    forallb no_block_def res = true -> forallb no_block_def out = true.
Proof.
  intros Hf stmts. induction stmts as [|s rest IH]; intros res st out st' H Hres; simpl in H.
  - injection H as <- <-. auto.
  - bind_inv H as r st1 Hr. eapply IH; eauto.
    destruct (truthy r); [|auto].
    rewrite forallb_app, Hres. simpl. rewrite (Hf _ _ _ _ Hr). reflexivity.
Qed.

(** What [sem_stmt] returns has no block definition in it, and is [None]
    exactly for a block definition. *)
Lemma sem_stmt_result fuel :
  forall stmt st r st',
    sem_stmt fuel stmt st = OK r st' ->
    no_block_def r = true /\ (truthy r = negb (is_block_def stmt)).
Proof.
  induction fuel as [|fuel IH]; intros stmt st r st' H; [discriminate|].
  destruct stmt; cbn [sem_stmt sem_stmt_body] in H; try discriminate.
  - (* block definition *)
    destruct name; try discriminate. bind_inv H as sym st1 Hsym.
    destruct stmt; try discriminate.
    bind_inv H as u1 st2 Ho. bind_inv H as body' st3 Hb. bind_inv H as u2 st4 Hc.
    cbv zeta in H. bind_inv H as u3 st5 Hm1. bind_inv H as u4 st6 Hm2.
    injection H as <- <-. auto.
  - bind_inv H as res st1 Hres. injection H as <- <-. split; [|reflexivity].
    simpl. eapply (sem_each_no_block_def (sem_stmt fuel)); eauto.
    intros s st0 r st0' Hr. apply (IH _ _ _ _ Hr).
  - bind_inv H as sym st1 Hs. injection H as <- <-. auto.
  - bind_inv H as s st1 Hs. bind_inv H as sc st2 Hd. bind_inv H as u st3 Hst.
    injection H as <- <-. auto.
  - cbv zeta in H.
    bind_inv H as u1 st1 He1. bind_inv H as bt st2 Hbt. bind_inv H as u2 st3 Hl1.
    bind_inv H as u3 st4 He2. bind_inv H as bf st5 Hbf. bind_inv H as u4 st6 Hl2.
    injection H as <- <-. split; [|reflexivity]. simpl.
    rewrite (proj1 (IH _ _ _ _ Hbt)), (proj1 (IH _ _ _ _ Hbf)). reflexivity.
  - bind_inv H as u1 st1 Ho. bind_inv H as b st2 Hb. bind_inv H as u2 st3 Hc.
    injection H as <- <-. split; [|reflexivity]. simpl. apply (IH _ _ _ _ Hb).
  - cbv zeta in H.
    bind_inv H as u1 st1 Ho. bind_inv H as b st2 Hb. bind_inv H as u2 st3 Hc.
    injection H as <- <-. split; [|reflexivity]. simpl. apply (IH _ _ _ _ Hb).
  - bind_inv H as u1 st1 Ho. cbv zeta in H.
    bind_inv H as b st2 Hb. bind_inv H as u2 st3 Hc.
    injection H as <- <-. split; [|reflexivity]. simpl.
    rewrite (proj1 (IH _ _ _ _ Hb)). reflexivity.
  - bind_inv H as var st1 Hv. cbv zeta in H. destruct stmt; try discriminate.
    bind_inv H as w st2 Hw. bind_inv H as u st3 Hk. injection H as <- <-.
    split; [|reflexivity]. simpl. rewrite (proj1 (IH _ _ _ _ Hw)). reflexivity.
  - bind_inv H as s st1 Hg. destruct (_block_nesting_level s <=? 0); [discriminate|].
    bind_inv H as cl st2 Hcl. injection H as <- <-. split; [|reflexivity].
    unfold gen_cleanup_all_vars in Hcl.
    bind_inv Hcl as c st3 H1. bind_inv Hcl as sc st4 H2. bind_inv Hcl as xs st5 H3.
    bind_inv Hcl as res st6 H4. injection Hcl as <- <-. simpl.
    rewrite (gen_cleanup_loop_no_block_def _ _ _ _ _ _ H4 eq_refl). reflexivity.
  - bind_inv H as s st1 Hg. destruct (_loop_nesting_level s <=? 0); [discriminate|].
    injection H as <- <-. auto.
  - injection H as <- <-. auto.
  - injection H as <- <-. auto.
  - injection H as <- <-. auto.
Qed.

Lemma each_run_results fuel stmts st rs st' :
  each_run (sem_stmt fuel) stmts st rs st' ->
  Forall2 (fun s r => truthy r = negb (is_block_def s)) stmts rs.
Proof.
  induction 1 as [|s rest st r st1 rs st' Hr _ IH]; constructor; auto.
  apply (sem_stmt_result _ _ _ _ _ Hr).
Qed.

Lemma close_block_OK_defs st u st' :
  close_block st = OK u st' ->
  _block_defs st' = _block_defs st /\ sym_defnode st' = sym_defnode st.
Proof.
  unfold close_block, leave_scope, pop_loop_nesting_stack, bind, the_scope, bind, get,
    deref, modify, ret, raise.
  intros H. destruct (scope st) as [b|]; [|discriminate].
  destruct (scope_objs st !! b) as [sc|]; [|discriminate]. simpl in H.
  destruct (last (_loop_nesting_stack st)); [|discriminate].
  injection H as _ <-. auto.
Qed.

Lemma sem_Return_OK fuel st r st' :
  sem_stmt fuel ReturnStmt st = OK r st' ->
  exists kills, r = StmtList [StmtList kills; ReturnStmt].
Proof.
  intros H. destruct (sem_stmt_OK_fuel _ _ _ _ _ H) as [f ->]. cbn [sem_stmt sem_stmt_body] in H.
  bind_inv H as s st1 Hg. destruct (_block_nesting_level s <=? 0); [discriminate|].
  bind_inv H as cl st2 Hcl. injection H as <- <-.
  unfold gen_cleanup_all_vars in Hcl.
  bind_inv Hcl as c st3 H1. bind_inv Hcl as sc st4 H2. bind_inv Hcl as xs st5 H3.
  bind_inv Hcl as res st6 H4. injection Hcl as <- <-. eauto.
Qed.

(** The run of [analyze_program]: one result for each statement of the
    program, in order; the results that are not [None], in the same order,
    become the new [_stmts], and this is the only change made after the
    last statement was analyzed. *)
Lemma analyze_program_output fuel st u st' :
  analyze_program fuel st = OK u st' ->
  exists rs st1,
    each_run (sem_stmt fuel) (_stmts st) st rs st1
    /\ Forall2 (fun s r => truthy r = negb (is_block_def s)) (_stmts st) rs
    /\ st' = set_stmts (filter (fun r => truthy r = true) rs) st1
    /\ forallb no_block_def (_stmts st') = true.
Proof.
  unfold analyze_program. intros H.
  bind_inv H as s0 st0 Hg. injection Hg as <- <-.
  bind_inv H as res st1 Hres. injection H as _ <-.
  destruct (sem_each_trace _ _ _ _ _ Hres) as (rs & Hrun & ->).
  exists rs, st1. split; [exact Hrun|]. split; [eapply each_run_results; eauto|].
  split; [reflexivity|]. simpl.
  eapply (sem_each_no_block_def (sem_stmt fuel)); eauto.
  intros s st0 r st0' Hr. apply (sem_stmt_result _ _ _ _ _ Hr).
Qed.

Definition hoisted_def (sym : Symbol) (pre kills : list Stmt) : Stmt :=
  BlockDefStmt (SymExpression sym) (StmtList (pre ++ [StmtList [StmtList kills; ReturnStmt]])).

(** The run of the analysis of a block definition in terms of the run of
    the analysis of the statements of its body. *)
Lemma sem_BlockDef_run fuel ident stmts st c sc :
  Inv st -> scope st = Some c -> scope_objs st !! c = Some sc ->
  let sym := mkSymbol ident (_next_sym_id st) block in
  match sem_each (sem_stmt (S fuel)) stmts [] (block_body_state c sc ident st) with
  | OK pre st2 =>
      exists kills st',
        sem_stmt (S (S (S fuel))) (BlockDefStmt (IdentExpression ident) (StmtList stmts)) st
        = OK NoneStmt st'
        /\ last (_block_defs st') = Some (hoisted_def sym pre kills)
  | Raise e =>
      sem_stmt (S (S (S fuel))) (BlockDefStmt (IdentExpression ident) (StmtList stmts)) st
      = Raise e
  end.
Proof.
  intros HI Hc Hsc sym. unfold block_body_state. fold sym.
  set (st0 := declared c sc sym st).
  assert (HI0 : Inv st0) by (apply Inv_declared; auto).
  assert (Hc0 : scope st0 = Some c) by exact Hc.
  assert (HI1 : Inv (opened_block c st0)) by (apply Inv_opened_block; auto).
  rewrite sem_stmt_BlockDef_eq.
  rewrite (bind_eq _ _ _ _ _ (gen_block_sym_eq st c sc ident Hc Hsc)). fold sym. fold st0.
  rewrite (bind_eq _ _ _ _ _ (open_block_eq st0 c Hc0)).
  pose proof (good_sem_each _ (good_sem_stmt (S fuel)) stmts [] (opened_block c st0) _
                HI1 eq_refl) as Hg.
  destruct (sem_each (sem_stmt (S fuel)) stmts [] (opened_block c st0))
    as [pre st2|e] eqn:Hpre.
  - destruct Hg as [HI2 Hfr].
    destruct (Inv_current _ HI2) as (b & sc2 & xs2 & Hb & Hsc2 & Hxs2).
    assert (Hlvl : 0 < _block_nesting_level st2).
    { rewrite (se_block _ _ (fr_scalars _ _ _ Hfr)). simpl.
      destruct (inv_levels _ HI) as (? & _). lia. }
    destruct (sem_Return_run fuel st2 b sc2 xs2 HI2 Hb Hsc2 Hxs2 Hlvl)
      as (st3 & Hret & _).
    assert (Hbody : sem_stmt (S (S fuel)) (StmtList (stmts ++ [ReturnStmt])) (opened_block c st0)
                    = OK (StmtList (pre ++ [StmtList [StmtList (map KillVarStmt (reverse xs2));
                                                      ReturnStmt]])) st3).
    { rewrite sem_stmt_StmtList_eq. unfold bind at 1. rewrite sem_each_app, Hpre.
      cbn [sem_each]. rewrite (bind_eq _ _ _ _ _ Hret). reflexivity. }
    destruct (block_body_closes _ st0 c _ st3
                (good_sem_stmt (S (S fuel)) (StmtList (stmts ++ [ReturnStmt])))
                HI0 Hc0 Hbody) as (Hclose & _).
    exists (map KillVarStmt (reverse xs2)). eexists.
    rewrite (bind_eq _ _ _ _ _ Hbody). rewrite (bind_eq _ _ _ _ _ Hclose).
    split; [cbv zeta; unfold bind, modify, ret; reflexivity|]. simpl. apply last_snoc.
  - apply bind_raise. rewrite sem_stmt_StmtList_eq. apply bind_raise.
    rewrite sem_each_app, Hpre. reflexivity.
Qed.

(** C9. In a state satisfying the invariant: the analysis of a block
    definition named by an identifier, when it returns, returns [None];
    the body is a statement list, and the definition joins the collected
    definitions as their last element, after the definitions collected from
    its body, with the new block symbol for a name and for a body the
    analyzed statements of the body followed by the rewritten implicit
    return; the symbol is linked to it.  With fuel for the body, it returns
    whenever the analysis of the statements of the body returns, and raises
    what that raises.  The analysis of a list of statements gives one
    result for each statement, in order; the result is [None] exactly for
    the block definitions and these are left out of the output; no
    statement of the output has a block definition anywhere in it.  The
    same holds of the entry point: when [analyze_program] returns, the
    [_stmts] it leaves in the analyzer are the results, in order, of the
    statements of the program that are not block definitions, no block
    definition is anywhere in them, and the collected definitions are
    those the statements left; so it is for the run on a whole program,
    which starts from no collected definition. *)
Theorem block_definitions_hoisted fuel st c sc :
  Inv st -> scope st = Some c -> scope_objs st !! c = Some sc ->
  (forall ident body r st',
      sem_stmt fuel (BlockDefStmt (IdentExpression ident) body) st = OK r st' ->
      let sym := mkSymbol ident (_next_sym_id st) block in
      r = NoneStmt
      /\ exists stmts pre kills fuel' st2 nested,
           body = StmtList stmts
           /\ sem_each (sem_stmt fuel') stmts [] (block_body_state c sc ident st) = OK pre st2
           /\ _block_defs st' = _block_defs st ++ nested ++ [hoisted_def sym pre kills]
           /\ head (sym_defnode st') = Some (sym, hoisted_def sym pre kills))
  /\ (forall ident stmts,
        let sym := mkSymbol ident (_next_sym_id st) block in
        match sem_each (sem_stmt (S fuel)) stmts [] (block_body_state c sc ident st) with
        | OK pre st2 =>
            exists kills st',
              sem_stmt (S (S (S fuel)))
                (BlockDefStmt (IdentExpression ident) (StmtList stmts)) st
              = OK NoneStmt st'
              /\ last (_block_defs st') = Some (hoisted_def sym pre kills)
        | Raise e =>
            sem_stmt (S (S (S fuel)))
              (BlockDefStmt (IdentExpression ident) (StmtList stmts)) st
            = Raise e
        end)
  /\ (forall stmts out st',
        sem_each (sem_stmt fuel) stmts [] st = OK out st' ->
        exists rs,
          each_run (sem_stmt fuel) stmts st rs st'
          /\ Forall2 (fun s r => truthy r = negb (is_block_def s)) stmts rs
          /\ out = filter (fun r => truthy r = true) rs
          /\ forallb no_block_def out = true)
  /\ (forall u st',
        analyze_program fuel st = OK u st' ->
        exists rs st1,
          each_run (sem_stmt fuel) (_stmts st) st rs st1
          /\ Forall2 (fun s r => truthy r = negb (is_block_def s)) (_stmts st) rs
          /\ _stmts st' = filter (fun r => truthy r = true) rs
          /\ forallb no_block_def (_stmts st') = true
          /\ _block_defs st' = _block_defs st1)
  /\ (forall prog u st',
        run_analyzer fuel prog = OK u st' ->
        exists rs st1,
          each_run (sem_stmt fuel) prog (Analyzer_init prog) rs st1
          /\ Forall2 (fun s r => truthy r = negb (is_block_def s)) prog rs
          /\ _stmts st' = filter (fun r => truthy r = true) rs
          /\ forallb no_block_def (_stmts st') = true
          /\ _block_defs st' = _block_defs st1).
Proof.
  intros HI Hc Hsc. split; [|split; [|split; [|split]]].
  - intros ident body r st' H sym.
    destruct (sem_stmt_OK_fuel _ _ _ _ _ H) as [f ->]. cbn [sem_stmt sem_stmt_body] in H.
    rewrite (bind_eq _ _ _ _ _ (gen_block_sym_eq st c sc ident Hc Hsc)) in H. fold sym in H.
    destruct body; try discriminate.
    assert (HI1 : Inv (declared c sc sym st)) by (apply Inv_declared; auto).
    rewrite (bind_eq _ _ _ _ _ (open_block_eq (declared c sc sym st) c Hc)) in H.
    change (opened_block c (declared c sc sym st)) with (block_body_state c sc ident st) in H.
    assert (HI2 : Inv (block_body_state c sc ident st)) by (apply Inv_opened_block; auto).
    bind_inv H as body' st2 Hb. bind_inv H as u st3 Hclose. cbv zeta in H.
    bind_inv H as [] st4 Hm1. bind_inv H as [] st5 Hm2.
    injection Hm1 as <-. injection Hm2 as <-. injection H as <- <-.
    split; [reflexivity|].
    pose proof (good_sem_stmt f (StmtList (stmts ++ [ReturnStmt])) _ _ HI2 eq_refl) as Hg.
    rewrite Hb in Hg.
    destruct Hg as [_ Hfr].
    destruct (se_defs _ _ (fr_scalars _ _ _ Hfr)) as [nested Hnested]. simpl in Hnested.
    destruct (close_block_OK_defs _ _ _ Hclose) as [Hd Hn].
    destruct (sem_stmt_OK_fuel _ _ _ _ _ Hb) as [f1 ->].
    rewrite sem_stmt_StmtList_eq in Hb. bind_inv Hb as res st6 Heach.
    injection Hb as <- <-. rewrite sem_each_app in Heach.
    destruct (sem_each (sem_stmt f1) stmts [] (block_body_state c sc ident st))
      as [pre st7|e] eqn:Hpre; [|discriminate].
    cbn [sem_each] in Heach. bind_inv Heach as rr st8 Hret. injection Heach as <- <-.
    destruct (sem_Return_OK _ _ _ _ Hret) as [kills ->]. simpl.
    exists stmts, pre, kills, f1, st7, nested. split; [reflexivity|].
    split; [exact Hpre|]. split; [|reflexivity].
    rewrite Hd, Hnested, <- app_assoc. reflexivity.
  - intros ident stmts. apply sem_BlockDef_run; auto.
  - intros stmts out st' H.
    destruct (sem_each_trace _ _ _ _ _ H) as (rs & Hrun & ->).
    exists rs. split; [exact Hrun|]. split; [eapply each_run_results; eauto|].
    split; [reflexivity|].
    eapply (sem_each_no_block_def (sem_stmt fuel)); eauto.
    intros s st0 r st0' Hr. apply (sem_stmt_result _ _ _ _ _ Hr).
  - intros u st' H.
    destruct (analyze_program_output _ _ _ _ H) as (rs & st1 & Hrun & Hres & -> & Hno).
    exists rs, st1. auto.
  - intros prog u st' H.
    destruct (analyze_program_output _ _ _ _ H) as (rs & st1 & Hrun & Hres & -> & Hno).
    exists rs, st1. auto.
Qed.

Definition hoist_demo_program : list Stmt :=
  [demo_command "p1";
   BlockDefStmt (IdentExpression "f") (StmtList [demo_command "p2"]);
   CallStmt (IdentExpression "f");
   BlockDefStmt (IdentExpression "g") (StmtList []);
   demo_command "p3"].

Definition hoist_demo : result (list Stmt) :=
  sem_each (sem_stmt 10) hoist_demo_program [] (Analyzer_init hoist_demo_program).

Lemma block_definitions_hoisted_witness :
  result_value [] hoist_demo
  = [demo_command "p1"; CallStmt (SymExpression (mkSymbol "f" 0 block)); demo_command "p3"]
  /\ _block_defs (result_state (Analyzer_init []) hoist_demo)
     = [hoisted_def (mkSymbol "f" 0 block) [demo_command "p2"] [];
        hoisted_def (mkSymbol "g" 1 block) [] []]
  /\ (exists rs,
        each_run (sem_stmt 10) hoist_demo_program (Analyzer_init hoist_demo_program) rs
          (result_state (Analyzer_init []) hoist_demo)
        /\ Forall2 (fun s r => truthy r = negb (is_block_def s)) hoist_demo_program rs
        /\ result_value [] hoist_demo = filter (fun r => truthy r = true) rs
        /\ forallb no_block_def (result_value [] hoist_demo) = true)
  /\ _stmts (result_state (Analyzer_init []) (run_analyzer 10 hoist_demo_program))
     = [demo_command "p1"; CallStmt (SymExpression (mkSymbol "f" 0 block)); demo_command "p3"]
  /\ exists rs st1,
       each_run (sem_stmt 10) hoist_demo_program (Analyzer_init hoist_demo_program) rs st1
       /\ Forall2 (fun s r => truthy r = negb (is_block_def s)) hoist_demo_program rs
       /\ _stmts (result_state (Analyzer_init []) (run_analyzer 10 hoist_demo_program))
          = filter (fun r => truthy r = true) rs
       /\ forallb no_block_def
            (_stmts (result_state (Analyzer_init []) (run_analyzer 10 hoist_demo_program)))
          = true
       /\ _block_defs (result_state (Analyzer_init []) (run_analyzer 10 hoist_demo_program))
          = _block_defs st1.
Proof.
  destruct (block_definitions_hoisted 10 (Analyzer_init hoist_demo_program) 0
              (mkScope None [] ∅ 0 ∅ true) (Inv_init hoist_demo_program) eq_refl eq_refl)
    as (_ & _ & Hlist & _ & Hprog).
  split; [vm_compute; reflexivity|]. split; [vm_compute; reflexivity|].
  split; [apply Hlist; vm_compute; reflexivity|].
  split; [vm_compute; reflexivity|].
  apply (Hprog hoist_demo_program tt). vm_compute. reflexivity.
Defined.

(** * C10: the states of a run, and the cleanup in them *)

(** [subrun fuel stmt st fuel' stmt' st']: the run of [sem_stmt fuel stmt]
    from [st] calls [sem_stmt fuel' stmt'] in the state [st'] (the run
    itself counts as such a call). *)
Inductive subrun : nat -> Stmt -> Analyzer -> nat -> Stmt -> Analyzer -> Prop :=
  | sr_here fuel stmt st :
      subrun fuel stmt st fuel stmt st
  | sr_block fuel ident stmts st sym st1 st2 f' s' st' :
      gen_block_sym ident st = OK sym st1 -> open_block st1 = OK tt st2 ->
      subrun fuel (StmtList (stmts ++ [ReturnStmt])) st2 f' s' st' ->
      subrun (S fuel) (BlockDefStmt (IdentExpression ident) (StmtList stmts)) st f' s' st'
  | sr_list fuel pre s post st res st1 f' s' st' :
      sem_each (sem_stmt fuel) pre [] st = OK res st1 ->
      subrun fuel s st1 f' s' st' ->
      subrun (S fuel) (StmtList (pre ++ s :: post)) st f' s' st'
  | sr_if_true fuel expr bt bf st st1 f' s' st' :
      enter_branch st = OK tt st1 ->
      subrun fuel bt st1 f' s' st' ->
      subrun (S fuel) (IfStmt expr bt bf) st f' s' st'
  | sr_if_false fuel expr bt bf st st1 bt' st2 st3 st4 f' s' st' :
      enter_branch st = OK tt st1 -> sem_stmt fuel bt st1 = OK bt' st2 ->
      leave_scope st2 = OK tt st3 -> enter_branch st3 = OK tt st4 ->
      subrun fuel bf st4 f' s' st' ->
      subrun (S fuel) (IfStmt expr bt bf) st f' s' st'
  | sr_loop fuel body st st1 f' s' st' :
      open_loop st = OK tt st1 ->
      subrun fuel body st1 f' s' st' ->
      subrun (S fuel) (LoopStmt body) st f' s' st'
  | sr_while fuel expr body st st1 f' s' st' :
      open_loop st = OK tt st1 ->
      subrun fuel body st1 f' s' st' ->
      subrun (S fuel) (WhileStmt expr body) st f' s' st'
  | sr_until fuel expr body st st1 f' s' st' :
      open_loop st = OK tt st1 ->
      subrun fuel body st1 f' s' st' ->
      subrun (S fuel) (UntilStmt expr body) st f' s' st'
  | sr_times fuel num stmts st var st1 f' s' st' :
      def_var st = OK var st1 ->
      subrun fuel (WhileStmt (counter_positive var) (StmtList (stmts ++ [decrement var])))
        st1 f' s' st' ->
      subrun (S fuel) (TimesStmt num (StmtList stmts)) st f' s' st'.

(** [reached fuel prog fuel' stmt' st']: the run of [analyze_program] on
    [prog] calls [sem_stmt fuel' stmt'] in the state [st']. *)
Definition reached (fuel : nat) (prog : list Stmt) (fuel' : nat) (stmt' : Stmt)
    (st' : Analyzer) : Prop :=
  exists pre s post res st1,
    prog = pre ++ s :: post
    /\ sem_each (sem_stmt fuel) pre [] (Analyzer_init prog) = OK res st1
    /\ subrun fuel s st1 fuel' stmt' st'.

Lemma sem_stmt_If_eq fuel expr branch_true branch_false :
  sem_stmt (S fuel) (IfStmt expr branch_true branch_false)
  = (do! enter_branch in
     let! branch_true' := sem_stmt fuel branch_true in
     do! leave_scope in
     do! enter_branch in
     let! branch_false' := sem_stmt fuel branch_false in
     do! leave_scope in
     ret (IfStmt (sem_expr expr) branch_true' branch_false')).
Proof. reflexivity. Qed.

Lemma sem_stmt_Loop_eq fuel body :
  sem_stmt (S fuel) (LoopStmt body)
  = (do! open_loop in
     let! body' := sem_stmt fuel body in
     do! close_loop in
     ret (LoopStmt body')).
Proof. reflexivity. Qed.

(** The calls that [subrun] describes are made: an exception raised by
    the call ends the whole run. *)
Lemma subrun_raise fuel stmt st fuel' stmt' st' e :
  subrun fuel stmt st fuel' stmt' st' ->
  sem_stmt fuel' stmt' st' = Raise e -> sem_stmt fuel stmt st = Raise e.
Proof.
  induction 1 as
    [ | fuel ident stmts st sym st1 st2 f' s' st' Hs Ho _ IH
      | fuel pre s post st res st1 f' s' st' Hpre _ IH
      | fuel expr bt bf st st1 f' s' st' He _ IH
      | fuel expr bt bf st st1 bt' st2 st3 st4 f' s' st' He1 Hbt Hl He2 _ IH
      | fuel body st st1 f' s' st' Ho _ IH
      | fuel expr body st st1 f' s' st' Ho _ IH
      | fuel expr body st st1 f' s' st' Ho _ IH
      | fuel num stmts st var st1 f' s' st' Hd _ IH ]; intros He'.
  - exact He'.
  - rewrite sem_stmt_BlockDef_eq. rewrite (bind_eq _ _ _ _ _ Hs).
    rewrite (bind_eq _ _ _ _ _ Ho). apply bind_raise. auto.
  - rewrite sem_stmt_StmtList_eq. apply bind_raise. rewrite sem_each_app, Hpre.
    cbn [sem_each]. apply bind_raise. auto.
  - rewrite sem_stmt_If_eq. rewrite (bind_eq _ _ _ _ _ He). apply bind_raise. auto.
  - rewrite sem_stmt_If_eq. rewrite (bind_eq _ _ _ _ _ He1).
    rewrite (bind_eq _ _ _ _ _ Hbt). rewrite (bind_eq _ _ _ _ _ Hl).
    rewrite (bind_eq _ _ _ _ _ He2). apply bind_raise. auto.
  - rewrite sem_stmt_Loop_eq. rewrite (bind_eq _ _ _ _ _ Ho). apply bind_raise. auto.
  - rewrite sem_stmt_While_eq. rewrite (bind_eq _ _ _ _ _ Ho). apply bind_raise. auto.
  - rewrite sem_stmt_Until_eq. rewrite (bind_eq _ _ _ _ _ Ho). apply bind_raise. auto.
  - rewrite sem_stmt_Times_eq. rewrite (bind_eq _ _ _ _ _ Hd). apply bind_raise. auto.
Qed.

Lemma reached_raise fuel prog fuel' stmt' st' e :
  reached fuel prog fuel' stmt' st' ->
  sem_stmt fuel' stmt' st' = Raise e -> run_analyzer fuel prog = Raise e.
Proof.
  intros (pre & s & post & res & st1 & -> & Hpre & Hsub) He.
  unfold run_analyzer, analyze_program.
  rewrite (bind_eq _ _ _ (Analyzer_init (pre ++ s :: post)) (Analyzer_init (pre ++ s :: post)))
    by reflexivity.
  apply bind_raise. change (_stmts (Analyzer_init (pre ++ s :: post))) with (pre ++ s :: post).
  rewrite sem_each_app, Hpre. cbn [sem_each]. apply bind_raise.
  eapply subrun_raise; eauto.
Qed.

Lemma enter_branch_OK_scope st u st' :
  enter_branch st = OK u st' -> exists c, scope st = Some c.
Proof.
  unfold enter_branch. intros H. bind_inv H as c st1 Hc.
  apply the_scope_OK in Hc as [Hc _]. eauto.
Qed.

Lemma Inv_subrun fuel stmt st fuel' stmt' st' :
  subrun fuel stmt st fuel' stmt' st' -> Inv st -> Inv st'.
Proof.
  induction 1 as
    [ | fuel ident stmts st sym st1 st2 f' s' st' Hs Ho _ IH
      | fuel pre s post st res st1 f' s' st' Hpre _ IH
      | fuel expr bt bf st st1 f' s' st' He _ IH
      | fuel expr bt bf st st1 bt' st2 st3 st4 f' s' st' He1 Hbt Hl He2 _ IH
      | fuel body st st1 f' s' st' Ho _ IH
      | fuel expr body st st1 f' s' st' Ho _ IH
      | fuel expr body st st1 f' s' st' Ho _ IH
      | fuel num stmts st var st1 f' s' st' Hd _ IH ]; intros HI.
  - exact HI.
  - apply IH. eapply Inv_after_open_block; [|exact Ho].
    eapply Inv_after_good; [apply good_gen_block_sym | exact HI | exact Hs].
  - apply IH. eapply Inv_after_sem_each; eauto.
  - apply IH. eapply Inv_after_enter_branch; eauto.
  - apply IH. eapply Inv_after_enter_branch; [|exact He2].
    destruct (enter_branch_OK_scope _ _ _ He2) as [c3 Hc3].
    eapply Inv_after_leave_scope; [|exact Hl|exact Hc3].
    eapply Inv_after_sem_stmt; [|exact Hbt].
    eapply Inv_after_enter_branch; eauto.
  - apply IH. eapply Inv_after_open_loop; eauto.
  - apply IH. eapply Inv_after_open_loop; eauto.
  - apply IH. eapply Inv_after_open_loop; eauto.
  - apply IH. eapply Inv_after_good; [apply good_def_var | exact HI | exact Hd].
Qed.

Lemma Inv_reached fuel prog fuel' stmt' st' :
  reached fuel prog fuel' stmt' st' -> Inv st'.
Proof.
  intros (pre & s & post & res & st1 & _ & Hpre & Hsub).
  eapply Inv_subrun; [exact Hsub|].
  eapply Inv_after_sem_each; [apply Inv_init | exact Hpre].
Qed.

(** No run of the analyzer ends in a lifetime error. *)
Lemma run_analyzer_benign fuel prog e :
  run_analyzer fuel prog = Raise e -> benign e.
Proof.
  intros H. pose proof (analyze_program_sound fuel (Analyzer_init prog) 0
                          (Inv_init prog) eq_refl) as Hs.
  unfold run_analyzer in H. rewrite H in Hs. exact Hs.
Qed.

(** C10. In every state in which the run of [analyze_program] on a
    program calls [sem_stmt]: the current scope exists and every symbol of
    its active list is block local to it ([is_block_local_var] returns
    true) and occurs once; so [gen_cleanup_all_vars] returns there, with a
    kill for each of them, and no statement analyzed there ends in a
    lifetime error of [kill_var] or [activate_var].  A scope made by
    [open_block] starts with an empty active list. *)
Theorem cleanup_never_fails fuel prog fuel' stmt' st' :
  reached fuel prog fuel' stmt' st' ->
  exists c sc xs,
    scope st' = Some c /\ scope_objs st' !! c = Some sc
    /\ list_objs st' !! _active_vars sc = Some xs
    /\ NoDup xs
    /\ (forall x, x ∈ xs ->
          BlockLocal (scope_objs st') c x /\ is_block_local_var c x st' = OK true st')
    /\ (exists st'',
          gen_cleanup_all_vars st' = OK (StmtList (map KillVarStmt (reverse xs))) st'')
    /\ (forall e, sem_stmt fuel' stmt' st' = Raise e -> benign e)
    /\ (open_block st' = OK tt (opened_block c st')
        /\ exists b, scope_objs (opened_block c st') !! length (scope_objs st') = Some b
                     /\ is_block b = true
                     /\ list_objs (opened_block c st') !! _active_vars b = Some []).
Proof.
  intros Hr. pose proof (Inv_reached _ _ _ _ _ Hr) as HI.
  destruct (Inv_current _ HI) as (c & sc & xs & Hc & Hsc & Hxs).
  exists c, sc, xs. split; [exact Hc|]. split; [exact Hsc|]. split; [exact Hxs|].
  destruct (inv_active _ HI _ _ _ Hsc Hxs) as [Hnd Hbl].
  split; [exact Hnd|]. split; [|split; [|split; [|split]]].
  - intros x Hx. split; [auto|].
    destruct (is_block_local_var_spec st' c x (inv_wf _ HI)) as (b & Hrun & Hb).
    { eapply lookup_lt_Some; eauto. }
    assert (b = true) by (apply Hb; auto). subst b. exact Hrun.
  - destruct (gen_cleanup_all_vars_spec st' c sc xs HI Hc Hsc Hxs) as (st'' & Hrun & _).
    eauto.
  - intros e He. pose proof (good_sem_stmt fuel' stmt' st' c HI Hc) as Hg.
    rewrite He in Hg. exact Hg.
  - apply open_block_eq. exact Hc.
  - eexists. split; [simpl; apply lookup_snoc_here|]. split; [reflexivity|].
    simpl. apply lookup_snoc_here.
Qed.

Definition return_in_times_program : list Stmt :=
  [demo_command "p1";
   BlockDefStmt (IdentExpression "f")
     (StmtList [TimesStmt 2 (StmtList [ReturnStmt])])].

Lemma return_in_times_reached :
  exists st', reached 10 return_in_times_program 5 ReturnStmt st'
              /\ list_objs st' !! 3%nat = Some [anonymous 1].
Proof.
  eexists. split.
  - exists [demo_command "p1"],
      (BlockDefStmt (IdentExpression "f") (StmtList [TimesStmt 2 (StmtList [ReturnStmt])])),
      []. eexists. eexists.
    split; [reflexivity|]. split; [vm_compute; reflexivity|].
    eapply sr_block; [vm_compute; reflexivity | vm_compute; reflexivity |].
    eapply (sr_list _ [] (TimesStmt 2 (StmtList [ReturnStmt])) [ReturnStmt]);
      [vm_compute; reflexivity|].
    eapply sr_times; [vm_compute; reflexivity|].
    eapply sr_while; [vm_compute; reflexivity|].
    eapply (sr_list _ [] ReturnStmt [decrement _]); [vm_compute; reflexivity|].
    apply sr_here.
  - vm_compute. reflexivity.
Defined.

Lemma cleanup_never_fails_witness :
  exists st' c sc xs,
    reached 10 return_in_times_program 5 ReturnStmt st'
    /\ scope st' = Some c /\ scope_objs st' !! c = Some sc
    /\ list_objs st' !! _active_vars sc = Some xs
    /\ (forall x, x ∈ xs -> is_block_local_var c x st' = OK true st')
    /\ exists st'',
         gen_cleanup_all_vars st' = OK (StmtList (map KillVarStmt (reverse xs))) st''.
Proof.
  destruct return_in_times_reached as (st' & Hr & _).
  destruct (cleanup_never_fails 10 return_in_times_program 5 ReturnStmt st' Hr)
    as (c & sc & xs & Hc & Hsc & Hxs & _ & Hbl & Hcl & _).
  exists st', c, sc, xs. split; [exact Hr|]. split; [exact Hc|]. split; [exact Hsc|].
  split; [exact Hxs|]. split; [|exact Hcl].
  intros x Hx. apply (Hbl x Hx).
Defined.

(** * Runs that return *)

(** The rest of the development is about the runs of [sem_stmt] that
    return.  From a state satisfying the invariant such a run is made of
    the runs on the parts of the statement, between states that are known
    exactly; [returns_ind] below is the induction over it. *)

Lemma branch_body_closes {A} (body : M A) st c sc xs r st2 :
  good body -> Inv st -> scope st = Some c -> scope_objs st !! c = Some sc ->
  list_objs st !! _active_vars sc = Some xs ->
  body (entered_branch c xs st) = OK r st2 ->
  leave_scope st2 = OK tt (restore st st2)
  /\ Inv st2 /\ Inv (restore st st2) /\ preserved st (restore st st2).
Proof.
  intros Hbody HI Hc Hsc Hxs Hrun.
  assert (HI1 : Inv (entered_branch c xs st)) by (eapply Inv_entered_branch; eauto).
  pose proof (Hbody (entered_branch c xs st) (length (scope_objs st)) HI1 eq_refl) as Hg.
  rewrite Hrun in Hg. destruct Hg as [HI2 Hfr].
  destruct (fr_cur _ _ _ Hfr) as (s1 & s2 & Hs1 & Hs2 & (Hp & _)).
  simpl in Hs1. rewrite lookup_snoc_here in Hs1. injection Hs1 as <-. simpl in Hp.
  destruct (fr_scalars _ _ _ Hfr) as [E1 E2 E3 E4 E5 E6 E7]. simpl in *.
  split; [|split; [exact HI2|]].
  - eapply leave_scope_restore; eauto; congruence.
  - eapply (restore_sound st c (entered_branch c xs st) _
              (mkScope (Some c) [] ∅ (S (length (list_objs st))) ∅ false) st2);
      eauto; try reflexivity.
    + simpl. lia.
    + intros l ys H. simpl. rewrite lookup_app_l by (eapply lookup_lt_Some; eauto). auto.
Qed.

(** [same_fields st st']: the two states differ at most in the objects of
    the store, and every scope object has the symbols it had. *)
Record same_fields (st st' : Analyzer) : Prop := mkSameFields {
  sf_syms : forall h sc', scope_objs st' !! h = Some sc' ->
              exists sc, scope_objs st !! h = Some sc /\ _syms sc' = _syms sc;
  sf_scope : scope st' = scope st;
  sf_next : _next_sym_id st' = _next_sym_id st;
  sf_defs : _block_defs st' = _block_defs st;
  sf_stmts : _stmts st' = _stmts st;
  sf_block : _block_nesting_level st' = _block_nesting_level st;
  sf_loop : _loop_nesting_level st' = _loop_nesting_level st;
  sf_stack : _loop_nesting_stack st' = _loop_nesting_stack st;
  sf_defnode : sym_defnode st' = sym_defnode st }.

Lemma same_fields_refl st : same_fields st st.
Proof. constructor; try reflexivity. intros h sc H. exists sc. auto. Qed.

Lemma same_fields_trans s1 s2 s3 : same_fields s1 s2 -> same_fields s2 s3 -> same_fields s1 s3.
Proof.
  intros [H1 ? ? ? ? ? ? ? ?] [H2 ? ? ? ? ? ? ? ?]. constructor; try congruence.
  intros h sc3 Hh. destruct (H2 h sc3 Hh) as (sc2 & Hh2 & E2).
  destruct (H1 h sc2 Hh2) as (sc1 & Hh1 & E1). exists sc1. split; [auto | congruence].
Qed.

Lemma is_block_local_var_loop_state fuel :
  forall cur sym st b st', is_block_local_var_loop fuel cur sym st = OK b st' -> st' = st.
Proof.
  induction fuel as [|fuel IH]; intros cur sym st b st' H; [discriminate|].
  simpl in H. destruct cur as [c|]; [|discriminate].
  bind_inv H as sc st1 Hd. apply deref_OK in Hd as [_ ->].
  case_bool_decide; [injection H as _ <-; reflexivity|].
  destruct (is_block sc); [injection H as _ <-; reflexivity|]. eauto.
Qed.

Lemma kill_var_fields h sym st u st' :
  kill_var h sym st = OK u st' -> same_fields st st'.
Proof.
  unfold kill_var. intros H. bind_inv H as b st1 Hb.
  unfold is_block_local_var in Hb. bind_inv Hb as s0 st0 Hg. injection Hg as <- <-.
  apply is_block_local_var_loop_state in Hb. subst st1.
  destruct b; [|discriminate]. simpl in H.
  bind_inv H as me st2 Hd. pose proof Hd as Hd'. apply deref_OK in Hd' as [_ ->].
  bind_inv H as xs st3 Hr. apply read_list_OK in Hr as [_ ->].
  destruct (bool_decide (sym ∈ xs)); [|discriminate]. simpl in H.
  bind_inv H as u1 st4 Hs. apply store_OK in Hs as [_ ->].
  destruct (remove_first sym xs) as [xs'|]; [|discriminate].
  apply write_list_OK in H as [_ ->]. apply deref_OK in Hd as [Hme _].
  constructor; try reflexivity.
  intros h0 sc' Hh. simpl in Hh. destruct (decide (h0 = h)) as [->|Hne].
  - rewrite list_lookup_insert_eq in Hh by (eapply lookup_lt_Some; eauto).
    injection Hh as <-. exists me. auto.
  - rewrite list_lookup_insert_ne in Hh by auto. exists sc'. auto.
Qed.

Lemma gen_cleanup_loop_fields n lst :
  forall res st out st', gen_cleanup_loop n lst res st = OK out st' -> same_fields st st'.
Proof.
  induction n as [|n IH]; intros res st out st' H; simpl in H.
  - injection H as _ <-. apply same_fields_refl.
  - bind_inv H as xs st1 Hr. apply read_list_OK in Hr as [_ ->].
    destruct (xs !! n) as [var|]; [|injection H as _ <-; apply same_fields_refl].
    bind_inv H as u st2 Hk. unfold mark_var_dead in Hk.
    bind_inv Hk as s st3 Hs. apply the_scope_OK in Hs as [_ ->].
    eapply same_fields_trans; [eapply kill_var_fields; eauto | eapply IH; eauto].
Qed.

Lemma gen_cleanup_all_vars_fields st r st' :
  gen_cleanup_all_vars st = OK r st' -> same_fields st st'.
Proof.
  unfold gen_cleanup_all_vars. intros H.
  bind_inv H as s st1 Hs. apply the_scope_OK in Hs as [_ ->].
  bind_inv H as sc st2 Hd. apply deref_OK in Hd as [_ ->].
  bind_inv H as xs st3 Hr. apply read_list_OK in Hr as [_ ->].
  bind_inv H as res st4 Hl. injection H as _ <-.
  eapply gen_cleanup_loop_fields; eauto.
Qed.

(** [returns s st r st']: the analysis of [s] from [st] returns [r] and
    ends in [st']. *)
Definition returns (s : Stmt) (st : Analyzer) (r : Stmt) (st' : Analyzer) : Prop :=
  exists fuel, sem_stmt fuel s st = OK r st'.

Lemma returns_good s st r st' c :
  returns s st r st' -> Inv st -> scope st = Some c -> Inv st' /\ frame c st st'.
Proof.
  intros [fuel H] HI Hc. pose proof (good_sem_stmt fuel s st c HI Hc) as Hg.
  rewrite H in Hg. exact Hg.
Qed.

(** The runs on the statements of a list, one after the other, each of
    them related by [R]. *)
Inductive each_rel (R : Stmt -> Analyzer -> Stmt -> Analyzer -> Prop) :
    list Stmt -> Analyzer -> list Stmt -> Analyzer -> Prop :=
  | each_rel_nil st : each_rel R [] st [] st
  | each_rel_cons s rest st r st1 rs st' :
      Inv st -> R s st r st1 -> each_rel R rest st1 rs st' ->
      each_rel R (s :: rest) st (r :: rs) st'.

Lemma each_run_rel fuel (R : Stmt -> Analyzer -> Stmt -> Analyzer -> Prop) stmts st rs st' :
  (forall s st0 r st1, Inv st0 -> sem_stmt fuel s st0 = OK r st1 -> R s st0 r st1) ->
  each_run (sem_stmt fuel) stmts st rs st' -> Inv st -> each_rel R stmts st rs st'.
Proof.
  intros HR. induction 1 as [|s rest st r st1 rs st' Hr _ IH]; intros HI.
  - apply each_rel_nil.
  - apply (each_rel_cons R s rest st r st1 rs st'); auto.
    apply IH. eapply Inv_after_sem_stmt; eauto.
Qed.

(** The state after the analyzed definition was linked to its symbol and
    collected. *)
Definition recorded_def (sym : Symbol) (body' : Stmt) (st : Analyzer) : Analyzer :=
  let stmt' := BlockDefStmt (SymExpression sym) body' in
  set_block_defs (_block_defs st ++ [stmt'])
    (set_sym_defnode ((sym, stmt') :: sym_defnode st) st).

(** The state after the selector of a command was recorded in scope [c]. *)
Definition recorded_selector (c : nat) (sc : Scope) (sel : PlayerSelector)
    (st : Analyzer) : Analyzer :=
  set_scope_objs (<[c:=with_selectors ({[sel]} ∪ _unique_player_selectors sc) sc]> (scope_objs st)) st.

Definition kept (rs : list Stmt) : list Stmt := filter (fun r => truthy r = true) rs.

Section returns_ind.

Variable P : Stmt -> Analyzer -> Stmt -> Analyzer -> Prop.

Definition returns_with (s : Stmt) (st : Analyzer) (r : Stmt) (st' : Analyzer) : Prop :=
  returns s st r st' /\ Inv st' /\ P s st r st'.

Hypothesis P_BlockDef : forall ident stmts st c sc body' st2,
  Inv st -> scope st = Some c -> scope_objs st !! c = Some sc ->
  let sym := mkSymbol ident (_next_sym_id st) block in
  let st0 := declared c sc sym st in
  Inv st0 ->
  returns_with (StmtList (stmts ++ [ReturnStmt])) (opened_block c st0) body' st2 ->
  preserved st0 (restore st0 st2) ->
  P (BlockDefStmt (IdentExpression ident) (StmtList stmts)) st NoneStmt
    (recorded_def sym body' (restore st0 st2)).

Hypothesis P_StmtList : forall stmts st rs st',
  Inv st -> each_rel returns_with stmts st rs st' ->
  P (StmtList stmts) st (StmtList (kept rs)) st'.

Hypothesis P_Call_ident : forall ident st c sym,
  Inv st -> scope st = Some c -> lookup_block_by_name c ident st = OK sym st ->
  P (CallStmt (IdentExpression ident)) st (CallStmt (SymExpression sym)) st.

Hypothesis P_Call_sym : forall sym st,
  Inv st -> P (CallStmt (SymExpression sym)) st (CallStmt (SymExpression sym)) st.

Hypothesis P_Command : forall command st c sc,
  Inv st -> scope st = Some c -> scope_objs st !! c = Some sc ->
  P (CommandStmt command) st (CommandStmt command)
    (recorded_selector c sc (player_selector command) st).

Hypothesis P_If : forall expr bt bf st c sc xs bt' st2 bf' st5,
  Inv st -> scope st = Some c -> scope_objs st !! c = Some sc ->
  list_objs st !! _active_vars sc = Some xs ->
  returns_with bt (entered_branch c xs st) bt' st2 ->
  Inv (restore st st2) -> preserved st (restore st st2) ->
  returns_with bf (entered_branch c xs (restore st st2)) bf' st5 ->
  preserved st (restore st st5) ->
  P (IfStmt expr bt bf) st (IfStmt (sem_expr expr) bt' bf') (restore st st5).

Hypothesis P_Loop : forall body st c sc xs body' st2,
  Inv st -> scope st = Some c -> scope_objs st !! c = Some sc ->
  list_objs st !! _active_vars sc = Some xs ->
  returns_with body (opened_loop c xs st) body' st2 ->
  preserved st (restore st st2) ->
  P (LoopStmt body) st (LoopStmt body') (restore st st2).

Hypothesis P_While : forall expr body st c sc xs body' st2,
  Inv st -> scope st = Some c -> scope_objs st !! c = Some sc ->
  list_objs st !! _active_vars sc = Some xs ->
  returns_with body (opened_loop c xs st) body' st2 ->
  preserved st (restore st st2) ->
  P (WhileStmt expr body) st (WhileStmt (sem_expr expr) body') (restore st st2).

Hypothesis P_Until : forall expr body st c sc xs body' st2,
  Inv st -> scope st = Some c -> scope_objs st !! c = Some sc ->
  list_objs st !! _active_vars sc = Some xs ->
  returns_with body (opened_loop c xs st) body' st2 ->
  preserved st (restore st st2) ->
  P (UntilStmt expr body) st (until_desugared (sem_expr expr) body') (restore st st2).

Hypothesis P_Times : forall num stmts st c sc xs w st2,
  Inv st -> scope st = Some c -> scope_objs st !! c = Some sc ->
  list_objs st !! _active_vars sc = Some xs ->
  let var := mkSymbol ":anonymous:" (_next_sym_id st) variable in
  let st1 := defined_var c sc xs st in
  Inv st1 ->
  returns_with (WhileStmt (counter_positive var) (StmtList (stmts ++ [decrement var])))
    st1 w st2 ->
  preserved st1 st2 ->
  P (TimesStmt num (StmtList stmts)) st
    (StmtList [DefVarStmt var; WriteVarStmt var (NumberExpression num); w; KillVarStmt var])
    (killed_var c (with_syms (_syms sc ++ [var]) sc) var xs st2).

Hypothesis P_Return : forall st c sc xs st',
  Inv st -> scope st = Some c -> scope_objs st !! c = Some sc ->
  list_objs st !! _active_vars sc = Some xs ->
  0 < _block_nesting_level st ->
  frame c st st' -> cleaned_up c sc xs st st' -> same_fields st st' ->
  P ReturnStmt st (StmtList [StmtList (map KillVarStmt (reverse xs)); ReturnStmt]) st'.

Hypothesis P_Break : forall st,
  Inv st -> 0 < _loop_nesting_level st -> P BreakStmt st BreakStmt st.

Hypothesis P_DefVar : forall sym st, Inv st -> P (DefVarStmt sym) st (DefVarStmt sym) st.

Hypothesis P_WriteVar : forall sym expr st,
  Inv st -> P (WriteVarStmt sym expr) st (WriteVarStmt sym expr) st.

Hypothesis P_KillVar : forall sym st, Inv st -> P (KillVarStmt sym) st (KillVarStmt sym) st.

Lemma returns_ind_fuel fuel :
  forall stmt st r st', Inv st -> sem_stmt fuel stmt st = OK r st' -> P stmt st r st'.
Proof.
  induction fuel as [|fuel IH]; intros stmt st r st' HI H; [discriminate|].
  destruct (Inv_current _ HI) as (c & sc & xs & Hc & Hsc & Hxs).
  assert (IHR : forall s st0 r0 st0',
             Inv st0 -> sem_stmt fuel s st0 = OK r0 st0' -> returns_with s st0 r0 st0').
  { intros s st0 r0 st0' HI0 H0. split; [exists fuel; exact H0|].
    split; [eapply Inv_after_sem_stmt; eauto | eapply IH; eauto]. }
  destruct stmt; cbn [sem_stmt sem_stmt_body] in H; try discriminate.
  - (* block definition *)
    destruct name; try discriminate.
    rewrite (bind_eq _ _ _ _ _ (gen_block_sym_eq st c sc ident Hc Hsc)) in H.
    destruct stmt; try discriminate.
    set (sym := mkSymbol ident (_next_sym_id st) block) in *.
    set (st0 := declared c sc sym st) in *.
    assert (HI0 : Inv st0) by (apply Inv_declared; auto).
    assert (Hc0 : scope st0 = Some c) by exact Hc.
    rewrite (bind_eq _ _ _ _ _ (open_block_eq st0 c Hc0)) in H.
    bind_inv H as body' st2 Hb.
    destruct (block_body_closes _ st0 c _ st2 (good_sem_stmt fuel _) HI0 Hc0 Hb)
      as (Hclose & HI3 & Hpr).
    rewrite (bind_eq _ _ _ _ _ Hclose) in H. cbv zeta in H.
    unfold bind, modify, ret in H. injection H as <- <-.
    apply (P_BlockDef ident stmts st c sc body' st2); auto.
    apply IHR; [apply Inv_opened_block; auto | exact Hb].
  - (* list *)
    bind_inv H as res st1 Hres. injection H as <- <-.
    destruct (sem_each_trace _ _ _ _ _ Hres) as (rs & Hrun & ->).
    apply P_StmtList; [exact HI|]. eapply each_run_rel; eauto.
  - (* call *)
    bind_inv H as sym st1 Hs. injection H as <- <-.
    destruct name; try discriminate.
    + rewrite (bind_eq _ _ _ c st) in Hs by (apply the_scope_eq; auto).
      destruct (inv_scope _ HI) as (c' & Hc' & Hlt). assert (c' = c) by congruence. subst c'.
      pose proof (lookup_block_by_name_spec st c ident (inv_wf _ HI) Hlt) as Hl.
      rewrite Hs in Hl. destruct Hl as [-> _]. apply (P_Call_ident ident st c sym); auto.
    + injection Hs as <- <-. apply P_Call_sym. auto.
  - (* command *)
    rewrite (bind_eq _ _ _ c st) in H by (apply the_scope_eq; auto).
    rewrite (bind_eq _ _ _ sc st) in H by (apply deref_eq; auto).
    rewrite (bind_eq _ _ _ _ _ (store_eq _ _ sc _ Hsc)) in H. injection H as <- <-.
    apply (P_Command command st c sc); auto.
  - (* conditional *)
    cbv zeta in H.
    rewrite (bind_eq _ _ _ _ _ (enter_branch_eq st c sc xs Hc Hsc Hxs)) in H.
    bind_inv H as bt' st2 Hbt.
    destruct (branch_body_closes _ st c sc xs _ st2 (good_sem_stmt fuel _) HI Hc Hsc Hxs Hbt)
      as (Hl1 & HI2 & HI3 & Hpr3).
    rewrite (bind_eq _ _ _ _ _ Hl1) in H.
    assert (Hc3 : scope (restore st st2) = Some c) by exact Hc.
    pose proof (pr_objs _ _ Hpr3 _ _ Hsc) as Hsc3.
    pose proof (pr_lists _ _ Hpr3 _ _ Hxs) as Hxs3.
    rewrite (bind_eq _ _ _ _ _ (enter_branch_eq _ c sc xs Hc3 Hsc3 Hxs3)) in H.
    bind_inv H as bf' st5 Hbf.
    destruct (branch_body_closes _ _ c sc xs _ st5 (good_sem_stmt fuel _) HI3 Hc3 Hsc3 Hxs3 Hbf)
      as (Hl2 & HI5 & HI6 & Hpr6).
    rewrite (bind_eq _ _ _ _ _ Hl2) in H. injection H as <- <-.
    change (restore (restore st st2) st5) with (restore st st5) in *.
    apply (P_If expr stmt1 stmt2 st c sc xs bt' st2 bf' st5); auto.
    + apply IHR; [eapply Inv_entered_branch; eauto | exact Hbt].
    + apply IHR; [eapply Inv_entered_branch; eauto | exact Hbf].
    + eapply preserved_trans; eauto.
  - (* loop *)
    rewrite (bind_eq _ _ _ _ _ (open_loop_eq st c sc xs Hc Hsc Hxs)) in H.
    bind_inv H as body' st2 Hb.
    destruct (loop_body_closes _ st c sc xs _ st2 (good_sem_stmt fuel _) HI Hc Hsc Hxs Hb)
      as (Hcl & HI3 & Hpr3).
    rewrite (bind_eq _ _ _ _ _ Hcl) in H. injection H as <- <-.
    apply (P_Loop stmt st c sc xs body' st2); auto.
    apply IHR; [eapply Inv_opened_loop; eauto | exact Hb].
  - (* while *)
    cbv zeta in H.
    rewrite (bind_eq _ _ _ _ _ (open_loop_eq st c sc xs Hc Hsc Hxs)) in H.
    bind_inv H as body' st2 Hb.
    destruct (loop_body_closes _ st c sc xs _ st2 (good_sem_stmt fuel _) HI Hc Hsc Hxs Hb)
      as (Hcl & HI3 & Hpr3).
    rewrite (bind_eq _ _ _ _ _ Hcl) in H. injection H as <- <-.
    apply (P_While expr stmt st c sc xs body' st2); auto.
    apply IHR; [eapply Inv_opened_loop; eauto | exact Hb].
  - (* until *)
    rewrite (bind_eq _ _ _ _ _ (open_loop_eq st c sc xs Hc Hsc Hxs)) in H. cbv zeta in H.
    bind_inv H as body' st2 Hb.
    destruct (loop_body_closes _ st c sc xs _ st2 (good_sem_stmt fuel _) HI Hc Hsc Hxs Hb)
      as (Hcl & HI3 & Hpr3).
    rewrite (bind_eq _ _ _ _ _ Hcl) in H. injection H as <- <-.
    apply (P_Until expr stmt st c sc xs body' st2); auto.
    apply IHR; [eapply Inv_opened_loop; eauto | exact Hb].
  - (* times *)
    rewrite (bind_eq _ _ _ _ _ (def_var_eq st c sc xs HI Hc Hsc Hxs)) in H. cbv zeta in H.
    destruct stmt; try discriminate.
    set (var := mkSymbol ":anonymous:" (_next_sym_id st) variable) in *.
    set (st1 := defined_var c sc xs st) in *.
    set (sc1 := with_syms (_syms sc ++ [var]) sc).
    assert (HI1 : Inv st1) by (apply Inv_defined_var; auto).
    assert (Hc1 : scope st1 = Some c) by exact Hc.
    assert (Hsc1 : scope_objs st1 !! c = Some sc1).
    { simpl. apply list_lookup_insert_eq. eapply lookup_lt_Some; eauto. }
    assert (Hxs1 : list_objs st1 !! _active_vars sc1 = Some (xs ++ [var])).
    { simpl. apply list_lookup_insert_eq. eapply lookup_lt_Some; eauto. }
    bind_inv H as w st2 Hw.
    destruct (sem_stmt_OK_fuel _ _ _ _ _ Hw) as [f ->].
    pose proof (good_strong_While f (counter_positive var)
                  (StmtList (stmts ++ [decrement var])) (good_sem_stmt f) st1 c HI1 Hc1) as Hg.
    change (sem_stmt (S f) (WhileStmt (counter_positive var)
                              (StmtList (stmts ++ [decrement var]))) st1 = OK w st2) in Hw.
    rewrite Hw in Hg. destruct Hg as [HI2 Hpr].
    assert (Hc2 : scope st2 = Some c) by (rewrite (se_scope _ _ (pr_scalars _ _ Hpr)); auto).
    pose proof (pr_objs _ _ Hpr _ _ Hsc1) as Hsc2.
    pose proof (pr_lists _ _ Hpr _ _ Hxs1) as Hxs2.
    destruct (mark_var_dead_eq st2 c sc1 (xs ++ [var]) var HI2 Hc2 Hsc2 Hxs2) as (xs' & Hrm & Hk).
    { apply elem_of_app. right. apply list_elem_of_singleton. reflexivity. }
    rewrite remove_first_snoc in Hrm.
    2:{ intros Hin. pose proof (active_id_lt _ _ _ _ _ HI Hsc Hxs Hin) as Hlt. simpl in Hlt. lia. }
    injection Hrm as <-.
    rewrite (bind_eq _ _ _ _ _ Hk) in H. injection H as <- <-.
    apply (P_Times num stmts st c sc xs w st2); auto.
  - (* return *)
    rewrite (bind_eq _ _ _ st st) in H by reflexivity.
    destruct (_block_nesting_level st <=? 0) eqn:E; [discriminate|]. apply Z.leb_gt in E.
    destruct (gen_cleanup_all_vars_spec st c sc xs HI Hc Hsc Hxs)
      as (st1 & Hrun & HI1 & Hfr & Hclean).
    rewrite (bind_eq _ _ _ _ _ Hrun) in H. injection H as <- <-.
    apply (P_Return st c sc xs st1); auto.
    eapply gen_cleanup_all_vars_fields; eauto.
  - (* break *)
    rewrite (bind_eq _ _ _ st st) in H by reflexivity.
    destruct (_loop_nesting_level st <=? 0) eqn:E; [discriminate|]. apply Z.leb_gt in E.
    injection H as <- <-. apply P_Break; auto.
  - injection H as <- <-. apply P_DefVar; auto.
  - injection H as <- <-. apply P_WriteVar; auto.
  - injection H as <- <-. apply P_KillVar; auto.
Qed.

Lemma returns_ind stmt st r st' :
  Inv st -> returns stmt st r st' -> P stmt st r st'.
Proof. intros HI [fuel H]. eapply returns_ind_fuel; eauto. Qed.

End returns_ind.

(** * The output of the pass *)

(** The statements the later stages have to know: no block definition, no
    [until] and no [times], and every call names its block by a symbol.
    ([None] can stand where a block definition was elided.) *)
Fixpoint is_core (s : Stmt) : bool :=
  match s with
  | NoneStmt | CommandStmt _ | ReturnStmt | BreakStmt
  | DefVarStmt _ | WriteVarStmt _ _ | KillVarStmt _ => true
  | CallStmt (SymExpression _) => true
  | StmtList stmts => forallb is_core stmts
  | IfStmt _ a b => is_core a && is_core b
  | LoopStmt b | WhileStmt _ b | UntilRegion _ b => is_core b
  | _ => false
  end.

(** A collected definition: named by a symbol, with a core body. *)
Definition is_core_def (d : Stmt) : bool :=
  match d with
  | BlockDefStmt (SymExpression _) body => is_core body
  | _ => false
  end.

Lemma forallb_kept (f : Stmt -> bool) rs :
  forallb f rs = true -> forallb f (kept rs) = true.
Proof.
  unfold kept. induction rs as [|r rs IH]; simpl; [auto|].
  intros H. apply andb_true_iff in H as [Hr Hrs]. rewrite filter_cons.
  destruct (decide (truthy r = true)); simpl; [rewrite Hr|]; auto.
Qed.

Lemma forallb_map_kills xs : forallb is_core (map KillVarStmt xs) = true.
Proof. induction xs; simpl; auto. Qed.

(** [defs_grow Q st st']: the definitions collected in [st'] are those of
    [st] followed by definitions that satisfy [Q]. *)
Definition defs_grow (Q : Stmt -> bool) (st st' : Analyzer) : Prop :=
  exists new, _block_defs st' = _block_defs st ++ new /\ forallb Q new = true.

Lemma defs_grow_same Q st st' : _block_defs st' = _block_defs st -> defs_grow Q st st'.
Proof. intros E. exists []. rewrite app_nil_r. auto. Qed.

Lemma defs_grow_refl Q st : defs_grow Q st st.
Proof. apply defs_grow_same. reflexivity. Qed.

Lemma defs_grow_trans Q s1 s2 s3 : defs_grow Q s1 s2 -> defs_grow Q s2 s3 -> defs_grow Q s1 s3.
Proof.
  intros (n1 & E1 & H1) (n2 & E2 & H2). exists (n1 ++ n2).
  rewrite E2, E1, <- app_assoc, forallb_app, H1, H2. auto.
Qed.

Lemma defs_grow_eq Q s1 s1' s2 s2' :
  _block_defs s1' = _block_defs s1 -> _block_defs s2' = _block_defs s2 ->
  defs_grow Q s1 s2 -> defs_grow Q s1' s2'.
Proof. intros E1 E2 (n & E & H). exists n. rewrite E1, E2. auto. Qed.

Lemma sem_stmt_core stmt st r st' :
  Inv st -> returns stmt st r st' ->
  is_core r = true /\ defs_grow is_core_def st st'.
Proof.
  revert stmt st r st'.
  apply (returns_ind (fun _ st r st' => is_core r = true /\ defs_grow is_core_def st st')).
  - (* block definition *)
    intros ident stmts st c sc body' st2 HI Hc Hsc sym st0 HI0 (_ & _ & Hb & Hd) _.
    split; [reflexivity|].
    destruct Hd as (new & E & Hnew). simpl in E.
    exists (new ++ [BlockDefStmt (SymExpression sym) body']). simpl.
    rewrite E, <- app_assoc, forallb_app, Hnew. simpl. rewrite Hb. auto.
  - (* list *)
    intros stmts st rs st' _ H.
    assert (forallb is_core rs = true /\ defs_grow is_core_def st st') as [H1 H2].
    { induction H as [st|s rest st r st1 rs st' _ (_ & _ & Hr & Hd) _ [IH1 IH2]].
      - split; [reflexivity | apply defs_grow_refl].
      - simpl. rewrite Hr, IH1. split; [reflexivity | eapply defs_grow_trans; eauto]. }
    split; [|exact H2]. simpl. apply forallb_kept. exact H1.
  - intros; split; [reflexivity | apply defs_grow_refl].
  - intros; split; [reflexivity | apply defs_grow_refl].
  - intros; split; [reflexivity | apply defs_grow_same; reflexivity].
  - (* conditional *)
    intros expr bt bf st c sc xs bt' st2 bf' st5 _ _ _ _ (_ & _ & H1 & D1) _ _ (_ & _ & H2 & D2) _.
    split; [simpl; rewrite H1, H2; reflexivity|].
    eapply defs_grow_trans; [eapply defs_grow_eq; [| |exact D1] | eapply defs_grow_eq; [| |exact D2]];
      reflexivity.
  - intros body st c sc xs body' st2 _ _ _ _ (_ & _ & H1 & D1) _.
    split; [exact H1 | eapply defs_grow_eq; [| |exact D1]; reflexivity].
  - intros expr body st c sc xs body' st2 _ _ _ _ (_ & _ & H1 & D1) _.
    split; [exact H1 | eapply defs_grow_eq; [| |exact D1]; reflexivity].
  - intros expr body st c sc xs body' st2 _ _ _ _ (_ & _ & H1 & D1) _.
    split; [simpl; rewrite H1; reflexivity | eapply defs_grow_eq; [| |exact D1]; reflexivity].
  - (* times *)
    intros num stmts st c sc xs w st2 _ _ _ _ var st1 _ (_ & _ & H1 & D1) _.
    split; [simpl; rewrite H1; reflexivity | eapply defs_grow_eq; [| |exact D1]; reflexivity].
  - (* return *)
    intros st c sc xs st' _ _ _ _ _ _ _ Hsf. split.
    + simpl. rewrite forallb_map_kills. reflexivity.
    + apply defs_grow_same. apply (sf_defs _ _ Hsf).
  - intros; split; [reflexivity | apply defs_grow_refl].
  - intros; split; [reflexivity | apply defs_grow_refl].
  - intros; split; [reflexivity | apply defs_grow_refl].
  - intros; split; [reflexivity | apply defs_grow_refl].
Qed.

(** The results that are kept are as many as the statements that are
    not block definitions. *)
Lemma kept_length stmts rs :
  Forall2 (fun s r => truthy r = negb (is_block_def s)) stmts rs ->
  length (kept rs) = length (filter (fun s => is_block_def s = false) stmts).
Proof.
  unfold kept. induction 1 as [|s r stmts rs Hr _ IH]; [reflexivity|].
  rewrite !filter_cons. destruct (is_block_def s); simpl in Hr.
  - rewrite decide_False by (rewrite Hr; discriminate).
    rewrite decide_False by discriminate. exact IH.
  - rewrite decide_True by exact Hr. rewrite decide_True by reflexivity.
    simpl. rewrite IH. reflexivity.
Qed.

(** X1. The result of the analysis of a block definition is [None], and
    the cases of [sem_stmt] store the result of a part as it is: where a
    block definition is itself the body of a loop, of a [while] or of an
    [until], or either branch of a conditional, [None] takes its place in
    the returned statement.  Only a statement list tests the result: a
    block definition at any place of a list adds nothing to the returned
    list, which holds the results of the statements before it followed by
    those of the statements after it; the returned list has one statement
    for each statement of the list that is not a block definition. *)
Theorem elided_body_is_None fuel name body st :
  (forall r st', sem_stmt fuel (BlockDefStmt name body) st = OK r st' -> r = NoneStmt)
  /\ (forall r st',
        sem_stmt fuel (LoopStmt (BlockDefStmt name body)) st = OK r st' ->
        r = LoopStmt NoneStmt)
  /\ (forall expr r st',
        sem_stmt fuel (WhileStmt expr (BlockDefStmt name body)) st = OK r st' ->
        r = WhileStmt (sem_expr expr) NoneStmt)
  /\ (forall expr r st',
        sem_stmt fuel (UntilStmt expr (BlockDefStmt name body)) st = OK r st' ->
        r = until_desugared (sem_expr expr) NoneStmt)
  /\ (forall expr other r st',
        sem_stmt fuel (IfStmt expr (BlockDefStmt name body) other) st = OK r st' ->
        exists other' st1 st2,
          returns other st1 other' st2 /\ r = IfStmt (sem_expr expr) NoneStmt other')
  /\ (forall expr other r st',
        sem_stmt fuel (IfStmt expr other (BlockDefStmt name body)) st = OK r st' ->
        exists other' st1 st2,
          returns other st1 other' st2 /\ r = IfStmt (sem_expr expr) other' NoneStmt)
  /\ (forall pre post r st',
        sem_stmt fuel (StmtList (pre ++ BlockDefStmt name body :: post)) st = OK r st' ->
        exists fuel' pre' st1 st2 post',
          sem_each (sem_stmt fuel') pre [] st = OK pre' st1
          /\ sem_stmt fuel' (BlockDefStmt name body) st1 = OK NoneStmt st2
          /\ sem_each (sem_stmt fuel') post [] st2 = OK post' st'
          /\ r = StmtList (pre' ++ post'))
  /\ (forall stmts r st',
        sem_stmt fuel (StmtList stmts) st = OK r st' ->
        exists res,
          r = StmtList res
          /\ length res = length (filter (fun s => is_block_def s = false) stmts)).
Proof.
  assert (Hnone : forall f st0 r0 st0',
             sem_stmt f (BlockDefStmt name body) st0 = OK r0 st0' -> r0 = NoneStmt).
  { intros f st0 r0 st0' H. destruct (sem_stmt_result f _ _ _ _ H) as [_ Ht].
    destruct r0; try discriminate Ht. reflexivity. }
  split; [|split; [|split; [|split; [|split; [|split; [|split]]]]]].
  - intros r st' H. eapply Hnone; eauto.
  - intros r st' H. destruct (sem_stmt_OK_fuel _ _ _ _ _ H) as [f ->].
    rewrite sem_stmt_Loop_eq in H. bind_inv H as u1 st1 Ho. bind_inv H as b st2 Hb.
    bind_inv H as u2 st3 Hc. injection H as <- <-. rewrite (Hnone _ _ _ _ Hb). reflexivity.
  - intros expr r st' H. destruct (sem_stmt_OK_fuel _ _ _ _ _ H) as [f ->].
    rewrite sem_stmt_While_eq in H. bind_inv H as u1 st1 Ho. bind_inv H as b st2 Hb.
    bind_inv H as u2 st3 Hc. injection H as <- <-. rewrite (Hnone _ _ _ _ Hb). reflexivity.
  - intros expr r st' H. destruct (sem_stmt_OK_fuel _ _ _ _ _ H) as [f ->].
    rewrite sem_stmt_Until_eq in H. bind_inv H as u1 st1 Ho. bind_inv H as b st2 Hb.
    bind_inv H as u2 st3 Hc. injection H as <- <-. rewrite (Hnone _ _ _ _ Hb). reflexivity.
  - intros expr other r st' H. destruct (sem_stmt_OK_fuel _ _ _ _ _ H) as [f ->].
    rewrite sem_stmt_If_eq in H. bind_inv H as u1 st1 He1. bind_inv H as bt st2 Hbt.
    bind_inv H as u2 st3 Hl1. bind_inv H as u3 st4 He2. bind_inv H as bf st5 Hbf.
    bind_inv H as u4 st6 Hl2. injection H as <- <-. rewrite (Hnone _ _ _ _ Hbt).
    exists bf, st4, st5. split; [exists f; exact Hbf | reflexivity].
  - intros expr other r st' H. destruct (sem_stmt_OK_fuel _ _ _ _ _ H) as [f ->].
    rewrite sem_stmt_If_eq in H. bind_inv H as u1 st1 He1. bind_inv H as bt st2 Hbt.
    bind_inv H as u2 st3 Hl1. bind_inv H as u3 st4 He2. bind_inv H as bf st5 Hbf.
    bind_inv H as u4 st6 Hl2. injection H as <- <-. rewrite (Hnone _ _ _ _ Hbf).
    exists bt, st1, st2. split; [exists f; exact Hbt | reflexivity].
  - intros pre post r st' H. destruct (sem_stmt_OK_fuel _ _ _ _ _ H) as [f ->].
    rewrite sem_stmt_StmtList_eq in H. bind_inv H as res st1 Hres. injection H as <- <-.
    rewrite sem_each_app in Hres.
    destruct (sem_each (sem_stmt f) pre [] st) as [pre' st2|e] eqn:Hpre; [|discriminate].
    cbn [sem_each] in Hres. bind_inv Hres as d st3 Hd.
    pose proof (Hnone _ _ _ _ Hd) as ->. cbn [truthy] in Hres.
    rewrite sem_each_acc in Hres.
    destruct (sem_each (sem_stmt f) post [] st3) as [post' st4|e] eqn:Hpost; [|discriminate].
    injection Hres as <- <-. exists f, pre', st2, st3, post'. auto.
  - intros stmts r st' H. destruct (sem_stmt_OK_fuel _ _ _ _ _ H) as [f ->].
    rewrite sem_stmt_StmtList_eq in H. bind_inv H as res st1 Hres. injection H as <- <-.
    destruct (sem_each_trace _ _ _ _ _ Hres) as (rs & Hrun & ->).
    eexists. split; [reflexivity|].
    apply kept_length. eapply each_run_results; eauto.
Qed.

Definition elided_demo_def : Stmt := BlockDefStmt (IdentExpression "f") (StmtList []).

Definition elided_demo_if : Stmt :=
  IfStmt (OpaqueExpression "c") (StmtList [demo_command "p1"]) elided_demo_def.

Definition elided_demo_list : Stmt :=
  StmtList [demo_command "p1"; elided_demo_def; demo_command "p2"].

Lemma elided_body_is_None_witness :
  result_value ReturnStmt (sem_stmt 5 (LoopStmt elided_demo_def) (Analyzer_init []))
  = LoopStmt NoneStmt
  /\ (exists other' st1 st2,
        returns (StmtList [demo_command "p1"]) st1 other' st2
        /\ result_value ReturnStmt (sem_stmt 5 elided_demo_if (Analyzer_init []))
           = IfStmt (OpaqueExpression "c") other' NoneStmt)
  /\ result_value ReturnStmt (sem_stmt 5 elided_demo_if (Analyzer_init []))
     = IfStmt (OpaqueExpression "c") (StmtList [demo_command "p1"]) NoneStmt
  /\ (exists res,
        result_value ReturnStmt (sem_stmt 5 elided_demo_list (Analyzer_init []))
        = StmtList res /\ length res = 2%nat)
  /\ result_value ReturnStmt (sem_stmt 5 elided_demo_list (Analyzer_init []))
     = StmtList [demo_command "p1"; demo_command "p2"].
Proof.
  destruct (elided_body_is_None 5 (IdentExpression "f") (StmtList []) (Analyzer_init []))
    as (_ & Hloop & _ & _ & _ & Hfalse & _ & Hlist).
  split; [|split; [|split; [|split]]].
  - apply (Hloop _ (result_state (Analyzer_init [])
                      (sem_stmt 5 (LoopStmt elided_demo_def) (Analyzer_init [])))).
    vm_compute. reflexivity.
  - apply (Hfalse (OpaqueExpression "c") (StmtList [demo_command "p1"]) _
             (result_state (Analyzer_init []) (sem_stmt 5 elided_demo_if (Analyzer_init [])))).
    vm_compute. reflexivity.
  - vm_compute. reflexivity.
  - apply (Hlist [demo_command "p1"; elided_demo_def; demo_command "p2"] _
             (result_state (Analyzer_init []) (sem_stmt 5 elided_demo_list (Analyzer_init [])))).
    vm_compute. reflexivity.
  - vm_compute. reflexivity.
Defined.

(** The run of [analyze_program] is the run of [sem_stmt] on the list of
    the statements of the program. *)
Lemma analyze_program_returns fuel st u st' :
  analyze_program fuel st = OK u st' ->
  exists res st1,
    returns (StmtList (_stmts st)) st (StmtList res) st1 /\ st' = set_stmts res st1.
Proof.
  unfold analyze_program. intros H.
  bind_inv H as s0 st0 Hg. injection Hg as <- <-.
  bind_inv H as res st1 Hres. injection H as _ <-.
  exists res, st1. split; [|reflexivity]. exists (S fuel).
  rewrite sem_stmt_StmtList_eq. rewrite (bind_eq _ _ _ _ _ Hres). reflexivity.
Qed.

(** X2. Every statement of the output is a core statement, and so is the body
    of every collected definition; the collected definitions are named by
    symbols. *)
Theorem output_is_core fuel prog u st' :
  run_analyzer fuel prog = OK u st' ->
  forallb is_core (_stmts st') = true /\ forallb is_core_def (_block_defs st') = true.
Proof.
  intros H. destruct (analyze_program_returns _ _ _ _ H) as (res & st1 & Hr & ->).
  destruct (sem_stmt_core _ _ _ _ (Inv_init prog) Hr) as [Hc (new & E & Hnew)].
  simpl in *. rewrite E. auto.
Qed.

Definition core_demo_program : list Stmt :=
  [BlockDefStmt (IdentExpression "f")
     (StmtList [TimesStmt 2 (StmtList [CallStmt (IdentExpression "f")])]);
   UntilStmt (OpaqueExpression "done") (StmtList [CallStmt (IdentExpression "f")])].

Lemma output_is_core_witness :
  forallb is_core (_stmts (result_state (Analyzer_init []) (run_analyzer 8 core_demo_program)))
  = true
  /\ forallb is_core_def
       (_block_defs (result_state (Analyzer_init []) (run_analyzer 8 core_demo_program)))
     = true.
Proof.
  apply (output_is_core 8 core_demo_program tt). vm_compute. reflexivity.
Defined.

(** ** How many symbols and definitions a program makes *)

(** The block definitions and the [times] loops of a statement, at any
    depth. *)
Fixpoint syms_needed (s : Stmt) : nat :=
  match s with
  | BlockDefStmt _ body | TimesStmt _ body => S (syms_needed body)
  | StmtList stmts =>
      (fix go (l : list Stmt) : nat :=
         match l with
         | [] => O
         | x :: r => (syms_needed x + go r)%nat
         end) stmts
  | IfStmt _ a b => (syms_needed a + syms_needed b)%nat
  | LoopStmt body | WhileStmt _ body | UntilStmt _ body => syms_needed body
  | _ => O
  end.

(** The block definitions of a statement, at any depth. *)
Fixpoint defs_in (s : Stmt) : nat :=
  match s with
  | BlockDefStmt _ body => S (defs_in body)
  | StmtList stmts =>
      (fix go (l : list Stmt) : nat :=
         match l with
         | [] => O
         | x :: r => (defs_in x + go r)%nat
         end) stmts
  | IfStmt _ a b => (defs_in a + defs_in b)%nat
  | LoopStmt body | WhileStmt _ body | UntilStmt _ body | TimesStmt _ body => defs_in body
  | _ => O
  end.

Lemma syms_needed_cons x r :
  syms_needed (StmtList (x :: r)) = (syms_needed x + syms_needed (StmtList r))%nat.
Proof. reflexivity. Qed.

Lemma defs_in_cons x r :
  defs_in (StmtList (x :: r)) = (defs_in x + defs_in (StmtList r))%nat.
Proof. reflexivity. Qed.

Lemma syms_needed_snoc l x :
  syms_needed (StmtList (l ++ [x])) = (syms_needed (StmtList l) + syms_needed x)%nat.
Proof.
  induction l as [|y l IH].
  - simpl. lia.
  - change ((y :: l) ++ [x]) with (y :: (l ++ [x])). rewrite !syms_needed_cons, IH. lia.
Qed.

Lemma defs_in_snoc l x :
  defs_in (StmtList (l ++ [x])) = (defs_in (StmtList l) + defs_in x)%nat.
Proof.
  induction l as [|y l IH].
  - simpl. lia.
  - change ((y :: l) ++ [x]) with (y :: (l ++ [x])). rewrite !defs_in_cons, IH. lia.
Qed.

Lemma sem_stmt_counts stmt st r st' :
  Inv st -> returns stmt st r st' ->
  _next_sym_id st' = _next_sym_id st + Z.of_nat (syms_needed stmt)
  /\ length (_block_defs st') = (length (_block_defs st) + defs_in stmt)%nat.
Proof.
  revert stmt st r st'.
  apply (returns_ind (fun s st _ st' =>
           _next_sym_id st' = _next_sym_id st + Z.of_nat (syms_needed s)
           /\ length (_block_defs st') = (length (_block_defs st) + defs_in s)%nat)).
  - intros ident stmts st c sc body' st2 HI Hc Hsc sym st0 HI0 (_ & _ & Hn & Hd) _.
    rewrite syms_needed_snoc in Hn. rewrite defs_in_snoc in Hd. simpl in *.
    rewrite length_app. simpl. split; lia.
  - intros stmts st rs st' _ H.
    induction H as [st|s rest st r st1 rs st' _ (_ & _ & Hn & Hd) _ [IH1 IH2]].
    + simpl. split; lia.
    + rewrite syms_needed_cons, defs_in_cons. split; lia.
  - intros. simpl. split; lia.
  - intros. simpl. split; lia.
  - intros. simpl. split; lia.
  - intros expr bt bf st c sc xs bt' st2 bf' st5 _ _ _ _ (_ & _ & N1 & D1) _ _ (_ & _ & N2 & D2) _.
    simpl in *. split; lia.
  - intros body st c sc xs body' st2 _ _ _ _ (_ & _ & N1 & D1) _. simpl in *. split; lia.
  - intros expr body st c sc xs body' st2 _ _ _ _ (_ & _ & N1 & D1) _. simpl in *. split; lia.
  - intros expr body st c sc xs body' st2 _ _ _ _ (_ & _ & N1 & D1) _. simpl in *. split; lia.
  - intros num stmts st c sc xs w st2 _ _ _ _ var st1 _ (_ & _ & N1 & D1) _.
    change (syms_needed (WhileStmt (counter_positive var) (StmtList (stmts ++ [decrement var]))))
      with (syms_needed (StmtList (stmts ++ [decrement var]))) in N1.
    change (defs_in (WhileStmt (counter_positive var) (StmtList (stmts ++ [decrement var]))))
      with (defs_in (StmtList (stmts ++ [decrement var]))) in D1.
    rewrite syms_needed_snoc in N1. rewrite defs_in_snoc in D1. simpl in *. split; lia.
  - intros st c sc xs st' _ _ _ _ _ _ _ Hsf.
    rewrite (sf_next _ _ Hsf), (sf_defs _ _ Hsf). simpl. split; lia.
  - intros. simpl. split; lia.
  - intros. simpl. split; lia.
  - intros. simpl. split; lia.
  - intros. simpl. split; lia.
Qed.

(** X3. A run that returns has made one symbol for each block definition and
    each [times] loop of the program, and collected one definition for
    each block definition, wherever they are nested. *)
Theorem symbols_and_definitions_made fuel prog u st' :
  run_analyzer fuel prog = OK u st' ->
  _next_sym_id st' = Z.of_nat (syms_needed (StmtList prog))
  /\ length (_block_defs st') = defs_in (StmtList prog).
Proof.
  intros H. destruct (analyze_program_returns _ _ _ _ H) as (res & st1 & Hr & ->).
  destruct (sem_stmt_counts _ _ _ _ (Inv_init prog) Hr) as [Hn Hd]. simpl in *. split; lia.
Qed.

Lemma symbols_and_definitions_made_witness :
  _next_sym_id (result_state (Analyzer_init []) (run_analyzer 8 core_demo_program)) = 2
  /\ length (_block_defs (result_state (Analyzer_init []) (run_analyzer 8 core_demo_program)))
     = 1%nat.
Proof.
  apply (symbols_and_definitions_made 8 core_demo_program tt). vm_compute. reflexivity.
Defined.

(** * What a statement does to the scope it is analyzed in *)

(** The selectors of the commands that are analyzed in the scope of the
    statement itself: those of the statement and of the lists in it, not
    those in a branch, a loop or a block. *)
Fixpoint direct_selectors (s : Stmt) : gset PlayerSelector :=
  match s with
  | CommandStmt command => {[player_selector command]}
  | StmtList stmts =>
      (fix go (l : list Stmt) : gset PlayerSelector :=
         match l with
         | [] => ∅
         | x :: r => direct_selectors x ∪ go r
         end) stmts
  | _ => ∅
  end.

(** A [return] that is analyzed in the scope of the statement itself. *)
Fixpoint direct_return (s : Stmt) : bool :=
  match s with
  | ReturnStmt => true
  | StmtList stmts => existsb direct_return stmts
  | _ => false
  end.

Lemma direct_selectors_cons x r :
  direct_selectors (StmtList (x :: r)) = direct_selectors x ∪ direct_selectors (StmtList r).
Proof. reflexivity. Qed.

(** [scope_effect s st st']: the current scope [c] of [st] is the current
    scope of [st']; it has the same list object, which holds what it held
    unless [s] returned, and then nothing; its selectors are those it had
    and those of [s]; no cleaned variable was forgotten. *)
Definition scope_effect (s : Stmt) (st st' : Analyzer) : Prop :=
  forall c sc xs,
    scope st = Some c -> scope_objs st !! c = Some sc ->
    list_objs st !! _active_vars sc = Some xs ->
    scope st' = Some c
    /\ exists sc',
         scope_objs st' !! c = Some sc'
         /\ _active_vars sc' = _active_vars sc
         /\ list_objs st' !! _active_vars sc = Some (if direct_return s then [] else xs)
         /\ _unique_player_selectors sc' = direct_selectors s ∪ _unique_player_selectors sc
         /\ _cleaned_vars sc ⊆ _cleaned_vars sc'.

Lemma scope_effect_preserved s st st' :
  direct_return s = false -> direct_selectors s = ∅ ->
  preserved st st' -> scope_effect s st st'.
Proof.
  intros Hr Hs Hpr c sc xs Hc Hsc Hxs.
  split; [rewrite (se_scope _ _ (pr_scalars _ _ Hpr)); exact Hc|].
  exists sc. rewrite Hr, Hs, (left_id_L ∅ (∪)).
  split; [apply (pr_objs _ _ Hpr); exact Hsc|]. split; [reflexivity|].
  split; [apply (pr_lists _ _ Hpr); exact Hxs|]. split; reflexivity.
Qed.

Lemma scope_effect_refl s st :
  direct_return s = false -> direct_selectors s = ∅ -> scope_effect s st st.
Proof. intros Hr Hs. apply scope_effect_preserved; auto. apply preserved_refl. Qed.

Lemma sem_stmt_scope_effect stmt st r st' :
  Inv st -> returns stmt st r st' -> scope_effect stmt st st'.
Proof.
  revert stmt st r st'.
  apply (returns_ind (fun s st _ st' => scope_effect s st st')).
  - (* block definition: the symbol joins the scope, the body has its own *)
    intros ident stmts st c sc body' st2 HI Hc Hsc sym st0 HI0 _ Hpr c' sc' xs Hc' Hsc' Hxs.
    assert (c' = c) by congruence. subst c'. assert (sc' = sc) by congruence. subst sc'.
    split; [exact Hc|].
    exists (with_syms (_syms sc ++ [sym]) sc). simpl.
    rewrite (left_id_L ∅ (∪)).
    split; [|split; [reflexivity|split; [|split; reflexivity]]].
    + apply (pr_objs _ _ Hpr). simpl. apply list_lookup_insert_eq. eapply lookup_lt_Some; eauto.
    + apply (pr_lists _ _ Hpr). exact Hxs.
  - (* list *)
    intros stmts st rs st' _ H.
    induction H as [st|s rest st r st1 rs st' HI (_ & _ & Hs) _ IH].
    + apply scope_effect_refl; reflexivity.
    + intros c sc xs Hc Hsc Hxs.
      destruct (Hs c sc xs Hc Hsc Hxs) as (Hc1 & sc1 & Hsc1 & Ha1 & Hxs1 & Hsel1 & Hcl1).
      rewrite <- Ha1 in Hxs1.
      destruct (IH c sc1 _ Hc1 Hsc1 Hxs1) as (Hc' & sc' & Hsc' & Ha' & Hxs' & Hsel' & Hcl').
      split; [exact Hc'|]. exists sc'.
      split; [exact Hsc'|]. split; [congruence|]. split; [|split].
      * rewrite Ha1 in Hxs'. rewrite Hxs'. f_equal. simpl.
        destruct (direct_return s); simpl; [|reflexivity].
        destruct (existsb direct_return rest); reflexivity.
      * rewrite Hsel', Hsel1, direct_selectors_cons.
        rewrite (assoc_L (∪)). f_equal. apply (comm_L (∪)).
      * etransitivity; eauto.
  - intros. apply scope_effect_refl; reflexivity.
  - intros. apply scope_effect_refl; reflexivity.
  - (* command *)
    intros command st c sc HI Hc Hsc c' sc' xs Hc' Hsc' Hxs.
    assert (c' = c) by congruence. subst c'. assert (sc' = sc) by congruence. subst sc'.
    split; [exact Hc|].
    exists (with_selectors ({[player_selector command]} ∪ _unique_player_selectors sc) sc).
    simpl. split; [apply list_lookup_insert_eq; eapply lookup_lt_Some; eauto|].
    split; [reflexivity|]. split; [exact Hxs|]. split; reflexivity.
  - intros. apply scope_effect_preserved; auto.
  - intros. apply scope_effect_preserved; auto.
  - intros. apply scope_effect_preserved; auto.
  - intros. apply scope_effect_preserved; auto.
  - (* times: the counter is declared, and killed at the end *)
    intros num stmts st c sc xs w st2 HI Hc Hsc Hxs var st1 HI1 _ Hpr c' sc' xs' Hc' Hsc' Hxs'.
    assert (c' = c) by congruence. subst c'. assert (sc' = sc) by congruence. subst sc'.
    assert (xs' = xs) by congruence. subst xs'.
    set (sc1 := with_syms (_syms sc ++ [var]) sc).
    assert (Hsc1 : scope_objs st1 !! c = Some sc1).
    { simpl. apply list_lookup_insert_eq. eapply lookup_lt_Some; eauto. }
    assert (Hxs1 : list_objs st1 !! _active_vars sc1 = Some (xs ++ [var])).
    { simpl. apply list_lookup_insert_eq. eapply lookup_lt_Some; eauto. }
    pose proof (pr_objs _ _ Hpr _ _ Hsc1) as Hsc2.
    pose proof (pr_lists _ _ Hpr _ _ Hxs1) as Hxs2.
    split; [simpl; rewrite (se_scope _ _ (pr_scalars _ _ Hpr)); exact Hc|].
    exists (with_cleaned_vars ({[var]} ∪ _cleaned_vars sc1) sc1). simpl.
    rewrite (left_id_L ∅ (∪)).
    split; [apply list_lookup_insert_eq; eapply lookup_lt_Some; eauto|].
    split; [reflexivity|].
    split; [apply list_lookup_insert_eq; eapply lookup_lt_Some; eauto|].
    split; [reflexivity|]. apply union_subseteq_r.
  - (* return *)
    intros st c sc xs st' HI Hc Hsc Hxs _ Hfr (sc' & H1 & H2 & H3 & H4 & H5 & H6) _ c' sc0 xs' Hc' Hsc' Hxs'.
    assert (c' = c) by congruence. subst c'. assert (sc0 = sc) by congruence. subst sc0.
    split; [rewrite (se_scope _ _ (fr_scalars _ _ _ Hfr)); exact Hc|].
    exists sc'. simpl. rewrite (left_id_L ∅ (∪)). rewrite H6.
    repeat (split; [assumption|]). apply union_subseteq_r.
  - intros. apply scope_effect_refl; reflexivity.
  - intros. apply scope_effect_refl; reflexivity.
  - intros. apply scope_effect_refl; reflexivity.
  - intros. apply scope_effect_refl; reflexivity.
Qed.

(** X4. The selectors recorded in a scope are those of the commands analyzed
    in this scope: analysis of a statement adds the selectors of its
    commands that are not inside a branch, a loop or a block, and no
    others. *)
Theorem selectors_recorded fuel stmt st r st' c sc :
  Inv st -> scope st = Some c -> scope_objs st !! c = Some sc ->
  sem_stmt fuel stmt st = OK r st' ->
  exists sc',
    scope_objs st' !! c = Some sc'
    /\ _unique_player_selectors sc' = direct_selectors stmt ∪ _unique_player_selectors sc.
Proof.
  intros HI Hc Hsc H.
  destruct (lookup_lt_is_Some_2 _ _ (inv_loc_valid _ HI _ _ Hsc)) as [xs Hxs].
  destruct (sem_stmt_scope_effect stmt st r st' HI (ex_intro _ fuel H) c sc xs Hc Hsc Hxs)
    as (_ & sc' & Hsc' & _ & _ & Hsel & _).
  eauto.
Qed.

Definition selectors_demo : Stmt :=
  StmtList [demo_command "p1";
            LoopStmt (StmtList [demo_command "p2"; BreakStmt]);
            StmtList [demo_command "p3"];
            IfStmt (OpaqueExpression "c") (demo_command "p4") (StmtList [])].

Lemma selectors_recorded_witness :
  exists sc',
    scope_objs (result_state (Analyzer_init []) (sem_stmt 5 selectors_demo (Analyzer_init [])))
      !! 0%nat = Some sc'
    /\ _unique_player_selectors sc' = {[ "p1"; "p3" ]}.
Proof.
  destruct (selectors_recorded 5 selectors_demo (Analyzer_init [])
              (result_value NoneStmt (sem_stmt 5 selectors_demo (Analyzer_init [])))
              (result_state (Analyzer_init []) (sem_stmt 5 selectors_demo (Analyzer_init [])))
              0 (mkScope None [] ∅ 0 ∅ true) (Inv_init []) eq_refl eq_refl)
    as (sc' & Hsc' & Hsel).
  - vm_compute. reflexivity.
  - exists sc'. split; [exact Hsc'|]. rewrite Hsel. simpl.
    rewrite !(right_id_L ∅ (∪)), !(left_id_L ∅ (∪)). reflexivity.
Defined.

(** X5. No variable is left active by the analysis of a statement: when it
    returns, the active list of the scope holds what it held before, or
    nothing if a [return] was analyzed in this scope. *)
Theorem active_list_after fuel stmt st r st' c sc xs :
  Inv st -> scope st = Some c -> scope_objs st !! c = Some sc ->
  list_objs st !! _active_vars sc = Some xs ->
  sem_stmt fuel stmt st = OK r st' ->
  scope st' = Some c
  /\ exists sc',
       scope_objs st' !! c = Some sc' /\ _active_vars sc' = _active_vars sc
       /\ list_objs st' !! _active_vars sc' = Some (if direct_return stmt then [] else xs)
       /\ _cleaned_vars sc ⊆ _cleaned_vars sc'.
Proof.
  intros HI Hc Hsc Hxs H.
  destruct (sem_stmt_scope_effect stmt st r st' HI (ex_intro _ fuel H) c sc xs Hc Hsc Hxs)
    as (Hc' & sc' & Hsc' & Ha & Hxs' & _ & Hcl).
  split; [exact Hc'|]. exists sc'. rewrite Ha. auto.
Qed.

Definition times_in_block_state : Analyzer :=
  result_state (Analyzer_init []) ((do! open_block in def_var) (Analyzer_init [])).

Lemma Inv_times_in_block_state : Inv times_in_block_state.
Proof.
  pose (s1 := result_state (Analyzer_init []) (open_block (Analyzer_init []))).
  assert (H1 : Inv s1).
  { eapply (Inv_after_open_block (Analyzer_init []) tt); [apply Inv_init|].
    vm_compute. reflexivity. }
  eapply (Inv_after_good def_var s1 (anonymous 0));
    [apply good_def_var | exact H1 | vm_compute; reflexivity].
Qed.

Definition active_demo (with_return : bool) : Stmt :=
  StmtList ([TimesStmt 2 (StmtList [demo_command "p1"])]
            ++ (if with_return then [ReturnStmt] else [])
            ++ [TimesStmt 3 (StmtList [])]).

Lemma active_list_after_witness :
  list_objs (result_state (Analyzer_init [])
               (sem_stmt 6 (active_demo false) times_in_block_state)) !! 1%nat
  = Some [anonymous 0]
  /\ list_objs (result_state (Analyzer_init [])
                  (sem_stmt 6 (active_demo true) times_in_block_state)) !! 1%nat
     = Some [].
Proof.
  split.
  - destruct (active_list_after 6 (active_demo false) times_in_block_state
                (result_value NoneStmt (sem_stmt 6 (active_demo false) times_in_block_state))
                (result_state (Analyzer_init []) (sem_stmt 6 (active_demo false) times_in_block_state))
                1 (mkScope (Some 0%nat) [anonymous 0] ∅ 1 ∅ true) [anonymous 0]
                Inv_times_in_block_state)
      as (_ & sc' & _ & Ha & Hxs & _);
      [reflexivity | vm_compute; reflexivity | vm_compute; reflexivity
       | vm_compute; reflexivity |].
    rewrite Ha in Hxs. exact Hxs.
  - destruct (active_list_after 6 (active_demo true) times_in_block_state
                (result_value NoneStmt (sem_stmt 6 (active_demo true) times_in_block_state))
                (result_state (Analyzer_init []) (sem_stmt 6 (active_demo true) times_in_block_state))
                1 (mkScope (Some 0%nat) [anonymous 0] ∅ 1 ∅ true) [anonymous 0]
                Inv_times_in_block_state)
      as (_ & sc' & _ & Ha & Hxs & _);
      [reflexivity | vm_compute; reflexivity | vm_compute; reflexivity
       | vm_compute; reflexivity |].
    rewrite Ha in Hxs. exact Hxs.
Defined.

(** X6. When the analysis of a statement returns, the analyzer is where it
    was: in the same scope, at the same nesting levels and with the same
    stack of saved levels; no other scope was touched; the collected
    definitions were only appended to and the counter of symbol ids did
    not go back. *)
Theorem sem_stmt_balanced fuel stmt st r st' :
  Inv st -> sem_stmt fuel stmt st = OK r st' ->
  scope st' = scope st
  /\ _block_nesting_level st' = _block_nesting_level st
  /\ _loop_nesting_level st' = _loop_nesting_level st
  /\ _loop_nesting_stack st' = _loop_nesting_stack st
  /\ _stmts st' = _stmts st
  /\ _next_sym_id st <= _next_sym_id st'
  /\ _block_defs st `prefix_of` _block_defs st'
  /\ (forall h sc, scope st <> Some h -> scope_objs st !! h = Some sc ->
        scope_objs st' !! h = Some sc).
Proof.
  intros HI H. destruct (inv_scope _ HI) as (c & Hc & _).
  pose proof (good_sem_stmt fuel stmt st c HI Hc) as Hg. rewrite H in Hg.
  destruct Hg as [_ [[E1 E2 E3 E4 E5 E6 E7] _ Ho _]].
  repeat (split; [assumption|]).
  intros h sc Hne Hsc. apply Ho; [congruence | exact Hsc].
Qed.

Definition balance_demo : Stmt :=
  StmtList [BlockDefStmt (IdentExpression "f")
              (StmtList [LoopStmt (StmtList [IfStmt (OpaqueExpression "c") ReturnStmt BreakStmt])]);
            TimesStmt 2 (StmtList [CallStmt (IdentExpression "f")])].

Lemma sem_stmt_balanced_witness :
  scope (result_state (Analyzer_init []) (sem_stmt 8 balance_demo times_in_block_state))
  = Some 1%nat
  /\ _block_nesting_level
       (result_state (Analyzer_init []) (sem_stmt 8 balance_demo times_in_block_state)) = 1
  /\ _loop_nesting_stack
       (result_state (Analyzer_init []) (sem_stmt 8 balance_demo times_in_block_state)) = [0].
Proof.
  destruct (sem_stmt_balanced 8 balance_demo times_in_block_state
              (result_value NoneStmt (sem_stmt 8 balance_demo times_in_block_state))
              (result_state (Analyzer_init []) (sem_stmt 8 balance_demo times_in_block_state))
              Inv_times_in_block_state)
    as (H1 & H2 & _ & H4 & _); [vm_compute; reflexivity|].
  split; [exact H1|]. split; [exact H2 | exact H4].
Defined.

(** * Lookup in two stores *)

(** Two scope objects that the lookup of [literal] cannot tell apart. *)
Definition same_blocks (literal : string) (sc sc' : Scope) : Prop :=
  parent sc' = parent sc
  /\ find (is_block_sym_named literal) (reverse (_syms sc'))
     = find (is_block_sym_named literal) (reverse (_syms sc)).

(** The result of a lookup in the state [st'], given its result in [st]. *)
Definition same_lookup (st' : Analyzer) (r r' : result Symbol) : Prop :=
  r' = match r with OK sym _ => OK sym st' | Raise e => Raise e end.

Lemma lookup_rec_agree literal objs objs' :
  wf_store objs ->
  (forall h sc, objs !! h = Some sc ->
     exists sc', objs' !! h = Some sc' /\ same_blocks literal sc sc') ->
  forall fuel fuel' h st st',
    scope_objs st = objs -> scope_objs st' = objs' ->
    (h < fuel)%nat -> (h < fuel')%nat -> (h < length objs)%nat ->
    same_lookup st' (lookup_block_by_name_rec fuel h literal st)
      (lookup_block_by_name_rec fuel' h literal st').
Proof.
  intros Hwf Hsame fuel. induction fuel as [|fuel IH];
    intros fuel' h st st' Ho Ho' Hf Hf' Hlen; [lia|].
  destruct fuel' as [|fuel']; [lia|].
  destruct (lookup_lt_is_Some_2 objs h Hlen) as [sc Hsc].
  destruct (Hsame h sc Hsc) as (sc' & Hsc' & Hp & Hfind).
  unfold same_lookup. simpl.
  rewrite (bind_eq (deref h) _ st sc st) by (apply deref_eq; congruence).
  rewrite (bind_eq (deref h) _ st' sc' st') by (apply deref_eq; congruence).
  rewrite Hfind, Hp.
  destruct (find (is_block_sym_named literal) (reverse (_syms sc))) as [sym|]; [reflexivity|].
  pose proof (Hwf h sc Hsc) as Hpar.
  destruct (parent sc) as [p|]; [|reflexivity].
  apply IH; auto; lia.
Qed.

Lemma lookup_agree literal st st' h :
  wf_store (scope_objs st) ->
  (forall h sc, scope_objs st !! h = Some sc ->
     exists sc', scope_objs st' !! h = Some sc' /\ same_blocks literal sc sc') ->
  (h < length (scope_objs st))%nat ->
  same_lookup st' (lookup_block_by_name h literal st) (lookup_block_by_name h literal st').
Proof.
  intros Hwf Hsame Hlt. unfold lookup_block_by_name.
  rewrite (bind_eq get _ st st st) by reflexivity.
  rewrite (bind_eq get _ st' st' st') by reflexivity.
  destruct (lookup_lt_is_Some_2 _ _ Hlt) as [sc Hsc].
  destruct (Hsame h sc Hsc) as (sc' & Hsc' & _).
  eapply lookup_rec_agree; eauto.
  eapply lookup_lt_Some; eauto.
Qed.

Lemma same_blocks_refl literal sc : same_blocks literal sc sc.
Proof. split; reflexivity. Qed.

Lemma lookup_agree_preserved literal st st' h :
  Inv st -> preserved st st' -> (h < length (scope_objs st))%nat ->
  same_lookup st' (lookup_block_by_name h literal st) (lookup_block_by_name h literal st').
Proof.
  intros HI Hpr Hlt. apply lookup_agree; auto; [apply (inv_wf _ HI)|].
  intros h0 sc Hsc. exists sc. split; [apply (pr_objs _ _ Hpr); exact Hsc|].
  apply same_blocks_refl.
Qed.

(** A conditional or a loop. *)
Definition is_compound (s : Stmt) : bool :=
  match s with
  | IfStmt _ _ _ | LoopStmt _ | WhileStmt _ _ | UntilStmt _ _ => true
  | _ => false
  end.

(** X7. Whatever the analysis of a conditional or a loop does, it does it to
    the scopes it makes for the branches and the body: every scope object
    and every list of active variables that was there before is as it was,
    and every name resolves to what it resolved to; a block defined in a
    branch or a loop body cannot be called after it. *)
Theorem compound_statement_confined fuel stmt st r st' c :
  is_compound stmt = true ->
  Inv st -> scope st = Some c ->
  sem_stmt fuel stmt st = OK r st' ->
  (forall h sc, scope_objs st !! h = Some sc -> scope_objs st' !! h = Some sc)
  /\ (forall l xs, list_objs st !! l = Some xs -> list_objs st' !! l = Some xs)
  /\ (forall literal,
        same_lookup st' (lookup_block_by_name c literal st)
          (lookup_block_by_name c literal st')).
Proof.
  intros Hk HI Hc H. destruct (sem_stmt_OK_fuel _ _ _ _ _ H) as [f ->].
  assert (Hg : good_strong (sem_stmt (S f) stmt)).
  { destruct stmt; try discriminate.
    - apply good_strong_If, good_sem_stmt.
    - apply good_strong_Loop, good_sem_stmt.
    - apply good_strong_While, good_sem_stmt.
    - apply good_strong_Until, good_sem_stmt. }
  specialize (Hg st c HI Hc). rewrite H in Hg. destruct Hg as [_ Hpr].
  split; [apply (pr_objs _ _ Hpr)|]. split; [apply (pr_lists _ _ Hpr)|].
  intros literal. apply lookup_agree_preserved; auto.
  destruct (inv_scope _ HI) as (c' & Hc' & Hlt). congruence.
Qed.

Definition confined_demo : Stmt :=
  LoopStmt (StmtList [BlockDefStmt (IdentExpression "g") (StmtList []);
                      CallStmt (IdentExpression "g"); demo_command "p1"; BreakStmt]).

Lemma compound_statement_confined_witness :
  scope_objs (result_state (Analyzer_init []) (sem_stmt 6 confined_demo (Analyzer_init [])))
    !! 0%nat = Some (mkScope None [] ∅ 0 ∅ true)
  /\ lookup_block_by_name 0 "g"
       (result_state (Analyzer_init []) (sem_stmt 6 confined_demo (Analyzer_init [])))
     = Raise (SemError (UnableToFindSymbol "g")).
Proof.
  destruct (compound_statement_confined 6 confined_demo (Analyzer_init [])
              (result_value NoneStmt (sem_stmt 6 confined_demo (Analyzer_init [])))
              (result_state (Analyzer_init []) (sem_stmt 6 confined_demo (Analyzer_init [])))
              0 eq_refl (Inv_init []) eq_refl)
    as (Ho & _ & Hl); [vm_compute; reflexivity|].
  split; [apply Ho; reflexivity | exact (Hl "g")].
Defined.

(** * Declaring and looking up *)

Lemma lookup_rec_step fuel h literal st sc :
  scope_objs st !! h = Some sc ->
  lookup_block_by_name_rec (S fuel) h literal st
  = match find (is_block_sym_named literal) (reverse (_syms sc)) with
    | Some sym => OK sym st
    | None =>
        match parent sc with
        | Some p => lookup_block_by_name_rec fuel p literal st
        | None => Raise (SemError (UnableToFindSymbol literal))
        end
    end.
Proof.
  intros Hsc. simpl. rewrite (bind_eq (deref h) _ st sc st) by (apply deref_eq; auto).
  destruct (find _ _); [reflexivity|]. destruct (parent sc); reflexivity.
Qed.

(** The symbol declared last in a scope is the one found there. *)
Lemma lookup_last_declared st h sc syms sym :
  scope_objs st !! h = Some sc -> _syms sc = syms ++ [sym] -> sym_kind sym = block ->
  lookup_block_by_name h (sym_literal sym) st = OK sym st.
Proof.
  intros Hsc Hs Hk. unfold lookup_block_by_name.
  rewrite (bind_eq get _ st st st) by reflexivity.
  destruct (length (scope_objs st)) as [|n] eqn:E.
  { apply lookup_lt_Some in Hsc. lia. }
  rewrite (lookup_rec_step _ _ _ _ _ Hsc), Hs, reverse_snoc. simpl.
  unfold is_block_sym_named. rewrite !bool_decide_eq_true_2 by auto. reflexivity.
Qed.

(** A symbol that is not a block named [literal] does not change what
    [literal] resolves to. *)
Lemma same_blocks_snoc literal sc sym :
  ~ (sym_kind sym = block /\ sym_literal sym = literal) ->
  same_blocks literal sc (with_syms (_syms sc ++ [sym]) sc).
Proof.
  intros Hn. split; [reflexivity|]. simpl. rewrite reverse_snoc. simpl.
  destruct (is_block_sym_named literal sym) eqn:E; [|reflexivity].
  apply is_block_sym_named_true in E. contradiction.
Qed.

(** X8. [put_sym] and [lookup_block_by_name]: a block symbol put into a scope
    is what its name resolves to from this scope, whatever the name resolved
    to before; a variable or a label changes no lookup, from any scope and
    whatever its literal is, and a block changes no lookup of another
    name. *)
Theorem put_sym_lookup st h sc sym :
  wf_store (scope_objs st) -> scope_objs st !! h = Some sc ->
  exists st1,
    put_sym h sym st = OK sym st1
    /\ scope_objs st1 !! h = Some (with_syms (_syms sc ++ [sym]) sc)
    /\ (sym_kind sym = block -> lookup_block_by_name h (sym_literal sym) st1 = OK sym st1)
    /\ (forall h' literal,
          (h' < length (scope_objs st))%nat ->
          ~ (sym_kind sym = block /\ sym_literal sym = literal) ->
          same_lookup st1 (lookup_block_by_name h' literal st)
            (lookup_block_by_name h' literal st1)).
Proof.
  intros Hwf Hsc.
  exists (set_scope_objs (<[h:=with_syms (_syms sc ++ [sym]) sc]> (scope_objs st)) st).
  assert (Hsc1 : <[h:=with_syms (_syms sc ++ [sym]) sc]> (scope_objs st) !! h
                 = Some (with_syms (_syms sc ++ [sym]) sc)).
  { apply list_lookup_insert_eq. eapply lookup_lt_Some; eauto. }
  split; [|split; [exact Hsc1|split]].
  - unfold put_sym. rewrite (bind_eq (deref h) _ st sc st) by (apply deref_eq; auto).
    erewrite bind_eq; [reflexivity|]. eapply store_eq; eauto.
  - intros Hk. eapply lookup_last_declared; eauto.
  - intros h' literal Hlt Hn. apply lookup_agree; auto.
    intros h0 sc0 Hsc0. simpl. destruct (decide (h0 = h)) as [->|Hne].
    + simplify_eq. eexists. split; [exact Hsc1|]. apply same_blocks_snoc. exact Hn.
    + exists sc0. rewrite list_lookup_insert_ne by auto. split; [auto | apply same_blocks_refl].
Qed.

Lemma put_sym_lookup_witness :
  exists st1,
    put_sym 0 (mkSymbol ":f:" 7 variable) shadowing_state
    = OK (mkSymbol ":f:" 7 variable) st1
    /\ same_lookup st1 (lookup_block_by_name 1 "f" shadowing_state)
         (lookup_block_by_name 1 "f" st1).
Proof.
  destruct (put_sym_lookup shadowing_state 0
              (result_value (mkScope None [] ∅ 0 ∅ true) (deref 0 shadowing_state))
              (mkSymbol ":f:" 7 variable) (inv_wf _ Inv_shadowing_state))
    as (st1 & Hput & _ & _ & Hsame); [vm_compute; reflexivity|].
  exists st1. split; [exact Hput|]. apply Hsame.
  - vm_compute. lia.
  - intros [Hk _]. discriminate Hk.
Defined.

(** X9. [gen_var_sym] and [gen_label_sym] in a state satisfying the
    invariant: each returns a symbol that carries the next id, with the
    name between colons for a variable and after a colon for a label, and
    advances the counter; afterwards every name, the literal of the new
    symbol too, resolves from every scope to what it resolved to before: a
    variable or a label is never taken for a block. *)
Theorem variables_and_labels_are_not_callable st c sc name :
  Inv st -> scope st = Some c -> scope_objs st !! c = Some sc ->
  (exists st1,
      gen_var_sym name st = OK (mkSymbol (":" ++ name ++ ":") (_next_sym_id st) variable) st1
      /\ _next_sym_id st1 = _next_sym_id st + 1
      /\ forall h literal, (h < length (scope_objs st))%nat ->
           same_lookup st1 (lookup_block_by_name h literal st)
             (lookup_block_by_name h literal st1))
  /\ (exists st1,
        gen_label_sym name st = OK (mkSymbol (":" ++ name) (_next_sym_id st) label) st1
        /\ _next_sym_id st1 = _next_sym_id st + 1
        /\ forall h literal, (h < length (scope_objs st))%nat ->
             same_lookup st1 (lookup_block_by_name h literal st)
               (lookup_block_by_name h literal st1)).
Proof.
  intros HI Hc Hsc.
  assert (Hany : forall sym, sym_kind sym <> block ->
            forall h literal, (h < length (scope_objs st))%nat ->
              same_lookup (declared c sc sym st) (lookup_block_by_name h literal st)
                (lookup_block_by_name h literal (declared c sc sym st))).
  { intros sym Hk h literal Hlt. apply lookup_agree; [apply (inv_wf _ HI)| |exact Hlt].
    intros h0 s Hh. simpl. destruct (decide (h0 = c)) as [->|Hne].
    - simplify_eq. eexists. split.
      + apply list_lookup_insert_eq. eapply lookup_lt_Some; eauto.
      + apply same_blocks_snoc. intros [Hb _]. contradiction.
    - exists s. rewrite list_lookup_insert_ne by auto. split; [auto | apply same_blocks_refl]. }
  split.
  - eexists. split; [apply (gen_var_sym_eq st c sc name Hc Hsc)|]. split; [reflexivity|].
    apply Hany. discriminate.
  - eexists. split; [apply (gen_sym_eq st c sc (":" ++ name) label Hc Hsc)|].
    split; [reflexivity|]. apply Hany. discriminate.
Qed.

Lemma variables_and_labels_are_not_callable_witness :
  exists st1,
    gen_label_sym "f" shadowing_state = OK (mkSymbol ":f" 3 label) st1
    /\ same_lookup st1 (lookup_block_by_name 1 ":f" shadowing_state)
         (lookup_block_by_name 1 ":f" st1).
Proof.
  destruct (variables_and_labels_are_not_callable shadowing_state 1
              (result_value (mkScope None [] ∅ 0 ∅ true) (deref 1 shadowing_state)) "f"
              Inv_shadowing_state)
    as (_ & st1 & Hgen & _ & Hl); [reflexivity | vm_compute; reflexivity |].
  exists st1. split; [exact Hgen|]. apply Hl. vm_compute. lia.
Defined.

(** * Defining and killing a variable *)

(** X10. [def_var] followed by [mark_var_dead]: in a state satisfying the
    invariant [def_var] returns, with a symbol that carries the next id and
    was not active, appended to the active list; killing it returns and
    leaves the active list as it was before [def_var], the symbol still
    declared and now among the cleaned variables; killing it a second time
    raises the [SemError] for an inactive variable. *)
Theorem def_var_then_kill st c sc xs :
  Inv st -> scope st = Some c -> scope_objs st !! c = Some sc ->
  list_objs st !! _active_vars sc = Some xs ->
  let var := anonymous (_next_sym_id st) in
  exists st1 st2 sc2,
    def_var st = OK var st1
    /\ (var ∉ xs)
    /\ list_objs st1 !! _active_vars sc = Some (xs ++ [var])
    /\ mark_var_dead var st1 = OK tt st2
    /\ scope_objs st2 !! c = Some sc2
    /\ _active_vars sc2 = _active_vars sc
    /\ list_objs st2 !! _active_vars sc = Some xs
    /\ _syms sc2 = _syms sc ++ [var]
    /\ _cleaned_vars sc2 = {[var]} ∪ _cleaned_vars sc
    /\ mark_var_dead var st2 = Raise (SemError (KillInactive var)).
Proof.
  intros HI Hc Hsc Hxs var.
  set (st1 := defined_var c sc xs st).
  set (sc1 := with_syms (_syms sc ++ [var]) sc).
  assert (Hnin : var ∉ xs).
  { intros Hin. pose proof (active_id_lt _ _ _ _ _ HI Hsc Hxs Hin) as Hlt. simpl in Hlt. lia. }
  assert (HI1 : Inv st1) by (apply Inv_defined_var; auto).
  assert (Hc1 : scope st1 = Some c) by exact Hc.
  assert (Hsc1 : scope_objs st1 !! c = Some sc1).
  { simpl. apply list_lookup_insert_eq. eapply lookup_lt_Some; eauto. }
  assert (Hxs1 : list_objs st1 !! _active_vars sc1 = Some (xs ++ [var])).
  { simpl. apply list_lookup_insert_eq. eapply lookup_lt_Some; eauto. }
  destruct (mark_var_dead_eq st1 c sc1 (xs ++ [var]) var HI1 Hc1 Hsc1 Hxs1) as (xs' & Hrm & Hk).
  { apply elem_of_app. right. apply list_elem_of_singleton. reflexivity. }
  rewrite (remove_first_snoc _ _ Hnin) in Hrm. injection Hrm as <-.
  set (st2 := killed_var c sc1 var xs st1) in *.
  set (sc2 := with_cleaned_vars ({[var]} ∪ _cleaned_vars sc1) sc1).
  assert (Hsc2 : scope_objs st2 !! c = Some sc2).
  { simpl. apply list_lookup_insert_eq. rewrite length_insert. eapply lookup_lt_Some; eauto. }
  assert (Hxs2 : list_objs st2 !! _active_vars sc2 = Some xs).
  { simpl. apply list_lookup_insert_eq. rewrite length_insert. eapply lookup_lt_Some; eauto. }
  exists st1, st2, sc2.
  split; [apply def_var_eq; auto|]. split; [exact Hnin|]. split; [exact Hxs1|].
  split; [exact Hk|]. split; [exact Hsc2|]. split; [reflexivity|]. split; [exact Hxs2|].
  split; [reflexivity|]. split; [reflexivity|].
  assert (HI2 : Inv st2).
  { eapply Inv_killed_var; eauto. apply remove_first_snoc. exact Hnin. }
  unfold mark_var_dead. rewrite (bind_eq the_scope _ st2 c st2) by (apply the_scope_eq; exact Hc).
  apply (kill_var_inactive st2 c sc2 xs var (inv_wf _ HI2) Hsc2 Hxs2); [|exact Hnin].
  eapply BlockLocal_here; [exact Hsc2|]. simpl. apply elem_of_app. right.
  apply list_elem_of_singleton. reflexivity.
Qed.

Lemma def_var_then_kill_witness :
  exists st1 st2,
    def_var three_vars_state = OK (anonymous 3) st1
    /\ mark_var_dead (anonymous 3) st1 = OK tt st2
    /\ list_objs st2 !! 1%nat = Some [anonymous 0; anonymous 1; anonymous 2]
    /\ mark_var_dead (anonymous 3) st2 = Raise (SemError (KillInactive (anonymous 3))).
Proof.
  destruct (def_var_then_kill three_vars_state 1
              (mkScope (Some 0%nat) [anonymous 0; anonymous 1; anonymous 2] ∅ 1 ∅ true)
              [anonymous 0; anonymous 1; anonymous 2] Inv_three_vars_state)
    as (st1 & st2 & sc2 & H1 & _ & _ & H4 & _ & _ & H6 & _ & _ & H9);
    [reflexivity | vm_compute; reflexivity | vm_compute; reflexivity |].
  exists st1, st2. split; [exact H1|]. split; [exact H4|]. split; [exact H6 | exact H9].
Defined.

(** * Opening and closing *)

(** X11. [open_block] followed by [close_block], and [open_loop] followed by
    [close_loop], from a state satisfying the invariant: both return, and
    the analyzer is in the scope and at the levels it was, with the same
    stack of saved levels; the store holds the objects it held, unchanged,
    and after them the scope object that was made, with its lists (a branch
    scope gets a list of its own and then the copy of the active list). *)
Theorem open_then_close st c sc xs :
  Inv st -> scope st = Some c -> scope_objs st !! c = Some sc ->
  list_objs st !! _active_vars sc = Some xs ->
  (exists st', (do! open_block in close_block) st = OK tt st'
               /\ st' = restore st st'
               /\ scope_objs st'
                  = scope_objs st ++ [mkScope (Some c) [] ∅ (length (list_objs st)) ∅ true]
               /\ list_objs st' = list_objs st ++ [[]])
  /\ (exists st', (do! open_loop in close_loop) st = OK tt st'
                  /\ st' = restore st st'
                  /\ scope_objs st'
                     = scope_objs st
                       ++ [mkScope (Some c) [] ∅ (S (length (list_objs st))) ∅ false]
                  /\ list_objs st' = list_objs st ++ [[]; xs]).
Proof.
  intros HI Hc Hsc Hxs. split.
  - exists (restore st (opened_block c st)).
    split; [|split; [reflexivity | split; reflexivity]].
    rewrite (bind_eq open_block _ st tt (opened_block c st)) by (apply open_block_eq; auto).
    apply (block_body_closes (ret tt) st c tt (opened_block c st) (good_ret tt) HI Hc eq_refl).
  - exists (restore st (opened_loop c xs st)).
    split; [|split; [reflexivity | split; reflexivity]].
    rewrite (bind_eq open_loop _ st tt (opened_loop c xs st)) by (eapply open_loop_eq; eauto).
    apply (loop_body_closes (ret tt) st c sc xs tt (opened_loop c xs st) (good_ret tt)
             HI Hc Hsc Hxs eq_refl).
Qed.

Lemma open_then_close_witness :
  exists st',
    (do! open_loop in close_loop) three_vars_state = OK tt st'
    /\ scope st' = Some 1%nat /\ _loop_nesting_level st' = 0
    /\ list_objs st' !! 3%nat = Some [anonymous 0; anonymous 1; anonymous 2].
Proof.
  destruct (open_then_close three_vars_state 1
              (mkScope (Some 0%nat) [anonymous 0; anonymous 1; anonymous 2] ∅ 1 ∅ true)
              [anonymous 0; anonymous 1; anonymous 2] Inv_three_vars_state)
    as (_ & st' & Hrun & Hre & _ & Hl);
    [reflexivity | vm_compute; reflexivity | vm_compute; reflexivity |].
  exists st'. split; [exact Hrun|]. rewrite Hre. split; [reflexivity|]. split; [reflexivity|].
  simpl. rewrite Hl. reflexivity.
Defined.

(** X12. The closing operations do not check that something is open.  In a
    root scope [close_loop] returns, and leaves the analyzer without a
    scope and the loop nesting level one lower (negative at top level);
    [close_block] with no saved level raises [IndexError]; and once the
    analyzer has no scope, the operations that need one raise
    [AttributeError]. *)
Theorem close_without_open st c sc :
  scope st = Some c -> scope_objs st !! c = Some sc -> parent sc = None ->
  close_loop st
  = OK tt (set_loop_nesting_level (_loop_nesting_level st - 1) (set_scope None st))
  /\ (_loop_nesting_stack st = [] -> close_block st = Raise IndexError)
  /\ (forall st0 : Analyzer, scope st0 = None ->
        open_loop st0 = Raise AttributeError
        /\ open_block st0 = Raise AttributeError
        /\ close_loop st0 = Raise AttributeError
        /\ def_var st0 = Raise AttributeError
        /\ forall fuel command,
             sem_stmt (S fuel) (CommandStmt command) st0 = Raise AttributeError).
Proof.
  intros Hc Hsc Hp. split; [|split].
  - unfold close_loop. rewrite (bind_eq leave_scope _ st tt (set_scope (parent sc) st))
      by (exact (leave_scope_eq st c sc Hc Hsc)).
    rewrite Hp. reflexivity.
  - intros Hs. unfold close_block.
    rewrite (bind_eq leave_scope _ st tt (set_scope (parent sc) st))
      by (exact (leave_scope_eq st c sc Hc Hsc)).
    unfold pop_loop_nesting_stack, bind, get. simpl. rewrite Hs. reflexivity.
  - intros st0 H0.
    assert (Hs : the_scope st0 = Raise AttributeError).
    { unfold the_scope, bind, get. rewrite H0. reflexivity. }
    split; [|split; [|split; [|split]]].
    + unfold open_loop, enter_branch. rewrite (bind_raise _ _ _ AttributeError); [reflexivity|].
      apply bind_raise. exact Hs.
    + unfold open_block. apply bind_raise. exact Hs.
    + unfold close_loop, leave_scope. rewrite (bind_raise _ _ _ AttributeError); [reflexivity|].
      apply bind_raise. exact Hs.
    + unfold def_var, gen_var_sym. rewrite (bind_raise _ _ _ AttributeError); [reflexivity|].
      apply bind_raise. exact Hs.
    + intros fuel command. cbn [sem_stmt sem_stmt_body]. apply bind_raise. exact Hs.
Qed.

Lemma close_without_open_witness :
  close_loop (Analyzer_init [])
  = OK tt (set_loop_nesting_level (-1) (set_scope None (Analyzer_init [])))
  /\ close_block (Analyzer_init []) = Raise IndexError.
Proof.
  destruct (close_without_open (Analyzer_init []) 0 (mkScope None [] ∅ 0 ∅ true)
              eq_refl eq_refl eq_refl) as (H1 & H2 & _).
  split; [exact H1 | apply H2; reflexivity].
Defined.

(** * Names that resolve *)

(** [resolves st h name]: a call of [name] from scope [h] finds a block. *)
Definition resolves (st : Analyzer) (h : nat) (name : string) : Prop :=
  exists sym st0, lookup_block_by_name h name st = OK sym st0.

Lemma resolves_same st st' h h' name :
  same_lookup st' (lookup_block_by_name h name st) (lookup_block_by_name h' name st') ->
  resolves st h name <-> resolves st' h' name.
Proof.
  unfold same_lookup, resolves. intros E. rewrite E.
  destruct (lookup_block_by_name h name st) as [sym st0|e]; split.
  - intros _. eauto.
  - intros _. eauto.
  - intros (sym & st0 & H). discriminate.
  - intros (sym & st0 & H). discriminate.
Qed.

(** The lookup does not see what a scope object holds besides its parent
    and its symbols. *)
Lemma resolves_agree st st' c name :
  wf_store (scope_objs st) -> (c < length (scope_objs st))%nat ->
  (forall h sc, scope_objs st !! h = Some sc ->
     exists sc', scope_objs st' !! h = Some sc' /\ parent sc' = parent sc
                 /\ _syms sc' = _syms sc) ->
  resolves st c name <-> resolves st' c name.
Proof.
  intros Hwf Hlt Hsame. apply resolves_same, lookup_agree; auto.
  intros h sc Hsc. destruct (Hsame h sc Hsc) as (sc' & Hsc' & Hp & Hs).
  exists sc'. split; [exact Hsc'|]. split; [exact Hp | rewrite Hs; reflexivity].
Qed.

Lemma resolves_preserved st st' c name :
  Inv st -> scope st = Some c -> preserved st st' ->
  resolves st c name <-> resolves st' c name.
Proof.
  intros HI Hc Hpr. apply resolves_agree; [apply (inv_wf _ HI)| |].
  - destruct (inv_scope _ HI) as (c' & Hc' & Hlt). congruence.
  - intros h sc Hsc. exists sc. split; [apply (pr_objs _ _ Hpr); exact Hsc | auto].
Qed.

(** Updating the scope object [c] without touching its parent and its
    symbols. *)
Lemma resolves_update st st' c sc sc' name :
  Inv st -> scope_objs st !! c = Some sc ->
  scope_objs st' = <[c:=sc']> (scope_objs st) ->
  parent sc' = parent sc -> _syms sc' = _syms sc ->
  resolves st c name <-> resolves st' c name.
Proof.
  intros HI Hsc Ho Hp Hs. apply resolves_agree; [apply (inv_wf _ HI)| |].
  - eapply lookup_lt_Some; eauto.
  - intros h s Hh. rewrite Ho. destruct (decide (h = c)) as [->|Hne].
    + simplify_eq. exists sc'. rewrite list_lookup_insert_eq by (eapply lookup_lt_Some; eauto).
      auto.
    + exists s. rewrite list_lookup_insert_ne by auto. auto.
Qed.

Lemma resolves_kept st st' c name :
  Inv st -> scope st = Some c ->
  (forall h sc, scope_objs st !! h = Some sc -> scope_objs st' !! h = Some sc) ->
  resolves st c name <-> resolves st' c name.
Proof.
  intros HI Hc Hk. apply resolves_agree; [apply (inv_wf _ HI)| |].
  - destruct (inv_scope _ HI) as (c' & Hc' & Hlt). congruence.
  - intros h sc Hsc. exists sc. auto.
Qed.

(** After a symbol was declared in scope [c]. *)
Lemma resolves_declared st c sc sym name :
  Inv st -> scope st = Some c -> scope_objs st !! c = Some sc ->
  resolves (declared c sc sym st) c name
  <-> (sym_kind sym = block /\ sym_literal sym = name) \/ resolves st c name.
Proof.
  intros HI Hc Hsc.
  assert (Hsc1 : scope_objs (declared c sc sym st) !! c
                 = Some (with_syms (_syms sc ++ [sym]) sc)).
  { simpl. apply list_lookup_insert_eq. eapply lookup_lt_Some; eauto. }
  destruct (decide (sym_kind sym = block /\ sym_literal sym = name)) as [[Hk <-]|Hn].
  - split; [auto|]. intros _. exists sym. eexists.
    eapply lookup_last_declared; eauto.
  - transitivity (resolves st c name); [|split; [auto | intros [?|?]; [contradiction | auto]]].
    symmetry. apply resolves_same, lookup_agree; [apply (inv_wf _ HI)| |].
    + intros h s Hh. simpl. destruct (decide (h = c)) as [->|Hne].
      * simplify_eq. eexists. split; [exact Hsc1|]. apply same_blocks_snoc. exact Hn.
      * exists s. rewrite list_lookup_insert_ne by auto. split; [auto | apply same_blocks_refl].
    + eapply lookup_lt_Some; eauto.
Qed.

(** The lookup from a new scope without symbols is the lookup from its
    parent. *)
Lemma lookup_child literal st st1 c child :
  wf_store (scope_objs st) -> (c < length (scope_objs st))%nat ->
  scope_objs st1 = scope_objs st ++ [child] -> parent child = Some c -> _syms child = [] ->
  same_lookup st1 (lookup_block_by_name c literal st)
    (lookup_block_by_name (length (scope_objs st)) literal st1).
Proof.
  intros Hwf Hlt Ho Hp Hs. unfold lookup_block_by_name.
  rewrite (bind_eq get _ st st st) by reflexivity.
  rewrite (bind_eq get _ st1 st1 st1) by reflexivity.
  rewrite Ho, length_app. simpl. rewrite Nat.add_1_r.
  rewrite (lookup_rec_step _ _ _ _ child) by (rewrite Ho; apply lookup_snoc_here).
  rewrite Hs, Hp. simpl.
  apply (lookup_rec_agree literal (scope_objs st) (scope_objs st ++ [child]) Hwf); auto.
  intros h sc Hsc. exists sc. split; [|apply same_blocks_refl].
  rewrite lookup_app_l by (eapply lookup_lt_Some; eauto). exact Hsc.
Qed.

Lemma resolves_child st st1 c child name :
  Inv st -> scope st = Some c ->
  scope_objs st1 = scope_objs st ++ [child] -> parent child = Some c -> _syms child = [] ->
  resolves st1 (length (scope_objs st)) name <-> resolves st c name.
Proof.
  intros HI Hc Ho Hp Hs. symmetry. apply resolves_same.
  apply (lookup_child name st st1 c child); auto; [apply (inv_wf _ HI)|].
  destruct (inv_scope _ HI) as (c' & Hc' & Hlt). congruence.
Qed.

(** The run of the analysis of a block definition that returns. *)
Lemma sem_BlockDef_inv fuel name body st r st' c sc :
  Inv st -> scope st = Some c -> scope_objs st !! c = Some sc ->
  sem_stmt fuel (BlockDefStmt name body) st = OK r st' ->
  exists ident stmts body' st2,
    name = IdentExpression ident /\ body = StmtList stmts /\ r = NoneStmt
    /\ let sym := mkSymbol ident (_next_sym_id st) block in
       let st0 := declared c sc sym st in
       returns (StmtList (stmts ++ [ReturnStmt])) (block_body_state c sc ident st) body' st2
       /\ st' = recorded_def sym body' (restore st0 st2)
       /\ preserved st0 (restore st0 st2).
Proof.
  intros HI Hc Hsc H.
  pose (P := fun (s : Stmt) (st : Analyzer) (r : Stmt) (st' : Analyzer) =>
              match s with
              | BlockDefStmt name body =>
                  forall c sc, scope st = Some c -> scope_objs st !! c = Some sc ->
                  exists ident stmts body' st2,
                    name = IdentExpression ident /\ body = StmtList stmts /\ r = NoneStmt
                    /\ let sym := mkSymbol ident (_next_sym_id st) block in
                       let st0 := declared c sc sym st in
                       returns (StmtList (stmts ++ [ReturnStmt]))
                         (block_body_state c sc ident st) body' st2
                       /\ st' = recorded_def sym body' (restore st0 st2)
                       /\ preserved st0 (restore st0 st2)
              | _ => True
              end).
  assert (Hinv : P (BlockDefStmt name body) st r st');
    [|exact (Hinv c sc Hc Hsc)].
  apply (returns_ind_fuel P) with (fuel := fuel); auto; try (intros; exact I).
  clear. intros ident stmts st c sc body' st2 HI Hc Hsc sym st0 HI0 (Hr & _) Hpr c' sc' Hc' Hsc'.
  assert (c' = c) by congruence. subst c'. assert (sc' = sc) by congruence. subst sc'.
  exists ident, stmts, body', st2. repeat (split; [reflexivity|]).
  split; [exact Hr|]. split; [reflexivity | exact Hpr].
Qed.

(** X13. Define, then call.  When the analysis of a definition of [ident]
    returns, a call of [ident] from the same scope resolves to the symbol
    made for this definition, whatever [ident] resolved to before (a
    definition shadows the earlier ones, of this scope and of the scopes
    around it); so does a call of [ident] at the start of the body of the
    definition (a block can call itself); and every other name resolves to
    what it resolved to before. *)
Theorem defined_block_is_callable fuel fuel' ident body st r st' c sc :
  Inv st -> scope st = Some c -> scope_objs st !! c = Some sc ->
  sem_stmt fuel (BlockDefStmt (IdentExpression ident) body) st = OK r st' ->
  let sym := mkSymbol ident (_next_sym_id st) block in
  sem_stmt (S fuel') (CallStmt (IdentExpression ident)) st'
  = OK (CallStmt (SymExpression sym)) st'
  /\ sem_stmt (S fuel') (CallStmt (IdentExpression ident)) (block_body_state c sc ident st)
     = OK (CallStmt (SymExpression sym)) (block_body_state c sc ident st)
  /\ (forall literal, literal <> ident ->
        same_lookup st' (lookup_block_by_name c literal st)
          (lookup_block_by_name c literal st')).
Proof.
  intros HI Hc Hsc H sym.
  destruct (sem_BlockDef_inv _ _ _ _ _ _ _ _ HI Hc Hsc H)
    as (ident' & stmts & body' & st2 & [= <-] & -> & -> & _ & -> & Hpr).
  fold sym in Hpr |- *. set (st0 := declared c sc sym st) in *.
  set (sc0 := with_syms (_syms sc ++ [sym]) sc).
  assert (Hsc0 : scope_objs st0 !! c = Some sc0).
  { simpl. apply list_lookup_insert_eq. eapply lookup_lt_Some; eauto. }
  assert (Hcall : forall st1 h,
             scope st1 = Some h -> lookup_block_by_name h ident st1 = OK sym st1 ->
             sem_stmt (S fuel') (CallStmt (IdentExpression ident)) st1
             = OK (CallStmt (SymExpression sym)) st1).
  { intros st1 h Hh Hl. cbn [sem_stmt sem_stmt_body].
    rewrite (bind_eq _ _ st1 sym st1); [reflexivity|].
    rewrite (bind_eq the_scope _ st1 h st1) by (apply the_scope_eq; exact Hh). exact Hl. }
  split; [|split].
  - apply (Hcall _ c); [exact Hc|].
    apply (lookup_last_declared _ c sc0 (_syms sc) sym); [|reflexivity|reflexivity].
    simpl. apply (pr_objs _ _ Hpr). exact Hsc0.
  - apply (Hcall _ (length (scope_objs st0))); [reflexivity|].
    pose proof (lookup_child ident st0 (block_body_state c sc ident st) c
                  (mkScope (Some c) [] ∅ (length (list_objs st0)) ∅ true)) as Hl.
    assert (Hl0 : lookup_block_by_name c ident st0 = OK sym st0)
      by exact (lookup_last_declared st0 c sc0 (_syms sc) sym Hsc0 eq_refl eq_refl).
    rewrite Hl0 in Hl. apply Hl; try reflexivity.
    + apply (inv_wf _ (Inv_declared st c sc sym HI Hsc eq_refl)).
    + eapply lookup_lt_Some; eauto.
  - intros literal Hne. apply lookup_agree; [apply (inv_wf _ HI)| |].
    + intros h s Hh. simpl. destruct (decide (h = c)) as [->|Hn].
      * simplify_eq. exists sc0. split; [apply (pr_objs _ _ Hpr); exact Hsc0|].
        apply same_blocks_snoc. intros [_ E]. apply Hne. symmetry. exact E.
      * exists s. split; [|apply same_blocks_refl]. apply (pr_objs _ _ Hpr).
        simpl. rewrite list_lookup_insert_ne by auto. exact Hh.
    + eapply lookup_lt_Some; eauto.
Qed.

Definition redefinition_demo : Stmt :=
  BlockDefStmt (IdentExpression "f") (StmtList [CallStmt (IdentExpression "f")]).

Lemma defined_block_is_callable_witness :
  let st' := result_state (Analyzer_init []) (sem_stmt 5 redefinition_demo shadowing_state) in
  sem_stmt 1 (CallStmt (IdentExpression "f")) st'
  = OK (CallStmt (SymExpression (mkSymbol "f" 3 block))) st'
  /\ same_lookup st' (lookup_block_by_name 1 "g" shadowing_state)
       (lookup_block_by_name 1 "g" st').
Proof.
  destruct (defined_block_is_callable 5 0 "f" (StmtList [CallStmt (IdentExpression "f")])
              shadowing_state
              (result_value NoneStmt (sem_stmt 5 redefinition_demo shadowing_state))
              (result_state (Analyzer_init []) (sem_stmt 5 redefinition_demo shadowing_state))
              1 (result_value (mkScope None [] ∅ 0 ∅ true) (deref 1 shadowing_state))
              Inv_shadowing_state)
    as (H1 & _ & H3);
    [reflexivity | vm_compute; reflexivity | vm_compute; reflexivity |].
  split; [exact H1|]. apply H3. discriminate.
Defined.

(** * The programs that the analysis accepts *)

(** A check of a statement that needs no analyzer: [in_block] and
    [in_loop] tell whether the statement is in the body of a block
    definition and in a loop of this body, and [env] holds the names of the
    blocks that a call can name.  The result is [None] if the statement is
    not accepted, and otherwise the names that a call after the statement
    can name. *)
Fixpoint accepts (in_block in_loop : bool) (env : list string) (s : Stmt)
    : option (list string) :=
  match s with
  | BlockDefStmt (IdentExpression ident) (StmtList _ as body) =>
      match accepts true false (ident :: env) body with
      | Some _ => Some (ident :: env)
      | None => None
      end
  | StmtList stmts =>
      (fix go (env : list string) (l : list Stmt) : option (list string) :=
         match l with
         | [] => Some env
         | x :: r =>
             match accepts in_block in_loop env x with
             | Some env' => go env' r
             | None => None
             end
         end) env stmts
  | CallStmt (IdentExpression ident) =>
      if bool_decide (ident ∈ env) then Some env else None
  | CallStmt (SymExpression _) => Some env
  | CommandStmt _ => Some env
  | IfStmt _ a b =>
      match accepts in_block in_loop env a, accepts in_block in_loop env b with
      | Some _, Some _ => Some env
      | _, _ => None
      end
  | LoopStmt body | WhileStmt _ body | UntilStmt _ body =>
      match accepts in_block true env body with
      | Some _ => Some env
      | None => None
      end
  | TimesStmt _ (StmtList _ as body) =>
      match accepts in_block true env body with
      | Some _ => Some env
      | None => None
      end
  | ReturnStmt => if in_block then Some env else None
  | BreakStmt => if in_loop then Some env else None
  | DefVarStmt _ | WriteVarStmt _ _ | KillVarStmt _ => Some env
  | _ => None
  end.

Lemma accepts_cons blk lp env x r :
  accepts blk lp env (StmtList (x :: r))
  = match accepts blk lp env x with
    | Some env' => accepts blk lp env' (StmtList r)
    | None => None
    end.
Proof. reflexivity. Qed.

Lemma accepts_snoc blk lp l x : forall env,
  accepts blk lp env (StmtList (l ++ [x]))
  = match accepts blk lp env (StmtList l) with
    | Some env' => accepts blk lp env' x
    | None => None
    end.
Proof.
  induction l as [|y l IH]; intros env.
  - simpl. destruct (accepts blk lp env x); reflexivity.
  - change ((y :: l) ++ [x]) with (y :: (l ++ [x])). rewrite !accepts_cons.
    destruct (accepts blk lp env y); [apply IH | reflexivity].
Qed.

(** The flags and the names of the check describe the state. *)
Definition flags_ok (blk lp : bool) (st : Analyzer) : Prop :=
  (blk = true <-> 0 < _block_nesting_level st)
  /\ (lp = true <-> 0 < _loop_nesting_level st).

Definition env_ok (env : list string) (st : Analyzer) (c : nat) : Prop :=
  forall name, name ∈ env <-> resolves st c name.

Lemma flags_ok_eq blk lp st st' :
  _block_nesting_level st' = _block_nesting_level st ->
  _loop_nesting_level st' = _loop_nesting_level st ->
  flags_ok blk lp st -> flags_ok blk lp st'.
Proof. unfold flags_ok. intros -> ->. auto. Qed.

Lemma flags_ok_loop blk lp st st' :
  Inv st ->
  _block_nesting_level st' = _block_nesting_level st ->
  _loop_nesting_level st' = _loop_nesting_level st + 1 ->
  flags_ok blk lp st -> flags_ok blk true st'.
Proof.
  unfold flags_ok. intros HI -> -> [Hb _]. split; [exact Hb|].
  destruct (inv_levels _ HI) as (_ & ? & _). split; [lia | reflexivity].
Qed.

Lemma flags_ok_block st st' :
  Inv st ->
  _block_nesting_level st' = _block_nesting_level st + 1 ->
  _loop_nesting_level st' = 0 ->
  flags_ok true false st'.
Proof.
  unfold flags_ok. intros HI -> ->. destruct (inv_levels _ HI) as (? & _ & _).
  split; split; try reflexivity; try lia; discriminate.
Qed.

Lemma env_ok_iff env st st' c c' :
  (forall name, resolves st c name <-> resolves st' c' name) ->
  env_ok env st c -> env_ok env st' c'.
Proof. intros H He name. rewrite (He name). apply H. Qed.

Lemma env_ok_child env st st1 c child :
  Inv st -> scope st = Some c ->
  scope_objs st1 = scope_objs st ++ [child] -> parent child = Some c -> _syms child = [] ->
  env_ok env st c -> env_ok env st1 (length (scope_objs st)).
Proof.
  intros HI Hc Ho Hp Hs. apply env_ok_iff. intros name. symmetry.
  eapply resolves_child; eauto.
Qed.

Lemma env_ok_preserved env st st' c :
  Inv st -> scope st = Some c -> preserved st st' -> env_ok env st c -> env_ok env st' c.
Proof. intros HI Hc Hpr. apply env_ok_iff. intros name. apply resolves_preserved; auto. Qed.

Lemma env_ok_declared_block env st c sc ident i :
  Inv st -> scope st = Some c -> scope_objs st !! c = Some sc ->
  env_ok env st c -> env_ok (ident :: env) (declared c sc (mkSymbol ident i block) st) c.
Proof.
  intros HI Hc Hsc He name. rewrite (resolves_declared st c sc _ name HI Hc Hsc).
  rewrite elem_of_cons, (He name). simpl. split.
  - intros [->|H]; auto.
  - intros [[_ <-]|H]; auto.
Qed.

Lemma env_ok_declared_var env st c sc lit i :
  Inv st -> scope st = Some c -> scope_objs st !! c = Some sc ->
  env_ok env st c -> env_ok env (declared c sc (mkSymbol lit i variable) st) c.
Proof.
  intros HI Hc Hsc He name. rewrite (resolves_declared st c sc _ name HI Hc Hsc).
  rewrite (He name). simpl. split; [auto|]. intros [[Hk _]|H]; [discriminate | auto].
Qed.

Lemma env_ok_kept env st st' c :
  Inv st -> scope st = Some c ->
  (forall h sc, scope_objs st !! h = Some sc -> scope_objs st' !! h = Some sc) ->
  env_ok env st c -> env_ok env st' c.
Proof. intros HI Hc Hk. apply env_ok_iff. intros name. apply resolves_kept; auto. Qed.

Lemma env_ok_update env st st' c sc sc' :
  Inv st -> scope_objs st !! c = Some sc ->
  scope_objs st' = <[c:=sc']> (scope_objs st) ->
  parent sc' = parent sc -> _syms sc' = _syms sc ->
  env_ok env st c -> env_ok env st' c.
Proof.
  intros HI Hsc Ho Hp Hs. apply env_ok_iff. intros name. eapply resolves_update; eauto.
Qed.

Lemma accepts_BlockDef blk lp env ident stmts :
  accepts blk lp env (BlockDefStmt (IdentExpression ident) (StmtList stmts))
  = match accepts true false (ident :: env) (StmtList stmts) with
    | Some _ => Some (ident :: env)
    | None => None
    end.
Proof. reflexivity. Qed.

Lemma accepts_Times blk lp env num stmts :
  accepts blk lp env (TimesStmt num (StmtList stmts))
  = match accepts blk true env (StmtList stmts) with
    | Some _ => Some env
    | None => None
    end.
Proof. reflexivity. Qed.

Lemma accepts_If blk lp env expr a b :
  accepts blk lp env (IfStmt expr a b)
  = match accepts blk lp env a, accepts blk lp env b with
    | Some _, Some _ => Some env
    | _, _ => None
    end.
Proof. reflexivity. Qed.

Lemma accepts_loop blk lp env body s :
  (s = LoopStmt body \/ (exists e, s = WhileStmt e body) \/ (exists e, s = UntilStmt e body)) ->
  accepts blk lp env s
  = match accepts blk true env body with
    | Some _ => Some env
    | None => None
    end.
Proof. intros [->|[[e ->]|[e ->]]]; reflexivity. Qed.

(** What the check says of a run that returns. *)
Definition accepted (s : Stmt) (st st' : Analyzer) : Prop :=
  forall blk lp env c,
    scope st = Some c -> flags_ok blk lp st -> env_ok env st c ->
    exists env', accepts blk lp env s = Some env' /\ env_ok env' st' c.

Lemma accepted_loop s body st c sc xs st2 :
  (s = LoopStmt body \/ (exists e, s = WhileStmt e body) \/ (exists e, s = UntilStmt e body)) ->
  Inv st -> scope st = Some c -> scope_objs st !! c = Some sc ->
  list_objs st !! _active_vars sc = Some xs ->
  accepted body (opened_loop c xs st) st2 ->
  preserved st (restore st st2) ->
  accepted s st (restore st st2).
Proof.
  intros Hs HI Hc Hsc Hxs Hb Hpr blk lp env c' Hc' Hfl He.
  assert (c' = c) by congruence. subst c'.
  destruct (Hb blk true env (length (scope_objs st))) as (env1 & Hacc & _).
  - reflexivity.
  - eapply (flags_ok_loop blk lp st); eauto.
  - eapply (env_ok_child env st _ c); eauto; reflexivity.
  - exists env. rewrite (accepts_loop blk lp env body s Hs), Hacc.
    split; [reflexivity|]. eapply env_ok_preserved; eauto.
Qed.

Lemma returns_accepted stmt st r st' :
  Inv st -> returns stmt st r st' -> accepted stmt st st'.
Proof.
  revert stmt st r st'. apply (returns_ind (fun s st _ st' => accepted s st st')).
  - (* block definition *)
    intros ident stmts st c sc body' st2 HI Hc Hsc sym st0 HI0 (_ & _ & Hb) Hpr
      blk lp env c' Hc' Hfl He.
    assert (c' = c) by congruence. subst c'.
    assert (He0 : env_ok (ident :: env) st0 c) by (apply env_ok_declared_block; auto).
    destruct (Hb true false (ident :: env) (length (scope_objs st0))) as (env1 & Hacc & _).
    + reflexivity.
    + apply (flags_ok_block st0); auto.
    + eapply (env_ok_child (ident :: env) st0 _ c); eauto; reflexivity.
    + rewrite accepts_snoc in Hacc.
      destruct (accepts true false (ident :: env) (StmtList stmts)) as [env2|] eqn:E;
        [|discriminate].
      exists (ident :: env). rewrite accepts_BlockDef, E. split; [reflexivity|].
      apply (env_ok_kept (ident :: env) st0); auto. apply (pr_objs _ _ Hpr).
  - (* list *)
    intros stmts st rs st' _ H blk lp.
    induction H as [st|s rest st r st1 rs st' HI (Hr & _ & Hs) _ IH]; intros env c Hc Hfl He.
    + exists env. split; [reflexivity | exact He].
    + destruct (Hs blk lp env c Hc Hfl He) as (env1 & Hacc1 & He1).
      destruct (returns_good _ _ _ _ c Hr HI Hc) as [_ Hfr].
      destruct (fr_scalars _ _ _ Hfr) as [E1 E2 E3 _ _ _ _].
      destruct (IH env1 c) as (env' & Hacc' & He'); auto; [congruence | |].
      * eapply flags_ok_eq; eauto.
      * exists env'. rewrite accepts_cons, Hacc1. auto.
  - (* call of a name *)
    intros ident st c sym HI Hc Hl blk lp env c' Hc' Hfl He.
    assert (c' = c) by congruence. subst c'.
    exists env. split; [|exact He]. simpl. rewrite bool_decide_eq_true_2; [reflexivity|].
    apply He. exists sym, st. exact Hl.
  - intros sym st HI blk lp env c Hc Hfl He. exists env. split; [reflexivity | exact He].
  - (* command *)
    intros command st c sc HI Hc Hsc blk lp env c' Hc' Hfl He.
    assert (c' = c) by congruence. subst c'.
    exists env. split; [reflexivity|].
    eapply (env_ok_update env st _ c sc); eauto; reflexivity.
  - (* conditional *)
    intros expr bt bf st c sc xs bt' st2 bf' st5 HI Hc Hsc Hxs (_ & _ & H1) HI3 Hpr3
      (_ & _ & H2) Hpr5 blk lp env c' Hc' Hfl He.
    assert (c' = c) by congruence. subst c'.
    destruct (H1 blk lp env (length (scope_objs st))) as (env1 & Hacc1 & _).
    { reflexivity. }
    { eapply flags_ok_eq; eauto; reflexivity. }
    { eapply (env_ok_child env st _ c); eauto; reflexivity. }
    destruct (H2 blk lp env (length (scope_objs (restore st st2)))) as (env2 & Hacc2 & _).
    { reflexivity. }
    { eapply flags_ok_eq; eauto; reflexivity. }
    { eapply (env_ok_child env (restore st st2) _ c); eauto; try reflexivity.
      eapply (env_ok_preserved env st); eauto. }
    exists env. rewrite accepts_If, Hacc1, Hacc2. split; [reflexivity|].
    eapply (env_ok_preserved env st); eauto.
  - intros body st c sc xs body' st2 HI Hc Hsc Hxs (_ & _ & Hb) Hpr.
    eapply accepted_loop; eauto.
  - intros expr body st c sc xs body' st2 HI Hc Hsc Hxs (_ & _ & Hb) Hpr.
    eapply accepted_loop; eauto.
  - intros expr body st c sc xs body' st2 HI Hc Hsc Hxs (_ & _ & Hb) Hpr.
    eapply (accepted_loop (UntilStmt expr body)); eauto.
  - (* times *)
    intros num stmts st c sc xs w st2 HI Hc Hsc Hxs var st1 HI1 (_ & HI2 & Hw) Hpr
      blk lp env c' Hc' Hfl He.
    assert (c' = c) by congruence. subst c'.
    assert (He1 : env_ok env st1 c).
    { apply (env_ok_kept env (declared c sc var st)); auto.
      - apply Inv_declared; auto.
      - apply env_ok_declared_var; auto. }
    destruct (Hw blk lp env c) as (env1 & Hacc & _); auto.
    rewrite (accepts_loop blk lp env (StmtList (stmts ++ [decrement var])) _
               (or_intror (or_introl (ex_intro _ _ eq_refl)))) in Hacc.
    rewrite accepts_snoc in Hacc.
    destruct (accepts blk true env (StmtList stmts)) as [env2|] eqn:E; [|discriminate].
    exists env. rewrite accepts_Times, E. split; [reflexivity|].
    assert (Hsc1 : scope_objs st1 !! c = Some (with_syms (_syms sc ++ [var]) sc)).
    { simpl. apply list_lookup_insert_eq. eapply lookup_lt_Some; eauto. }
    eapply (env_ok_update env st2 _ c (with_syms (_syms sc ++ [var]) sc)); eauto.
    + apply (pr_objs _ _ Hpr). exact Hsc1.
    + eapply (env_ok_preserved env st1); eauto.
  - (* return *)
    intros st c sc xs st' HI Hc Hsc Hxs Hlvl Hfr (sc' & Hsc' & _ & _ & Hs & _) _
      blk lp env c' Hc' [Hb _] He.
    assert (c' = c) by congruence. subst c'.
    exists env. split.
    + simpl. rewrite (proj2 Hb Hlvl). reflexivity.
    + revert He. apply env_ok_iff. intros name. apply resolves_agree; [apply (inv_wf _ HI)| |].
      * eapply lookup_lt_Some; eauto.
      * intros h s Hh. destruct (decide (h = c)) as [->|Hne].
        -- simplify_eq. exists sc'. split; [auto|].
           destruct (fr_cur _ _ _ Hfr) as (s1 & s2 & Hs1 & Hs2 & (Hp & _)).
           simplify_eq. auto.
        -- exists s. split; [|auto]. apply (fr_objs _ _ _ Hfr); auto.
  - (* break *)
    intros st HI Hlvl blk lp env c Hc [_ Hl] He. exists env. split; [|exact He].
    simpl. rewrite (proj2 Hl Hlvl). reflexivity.
  - intros sym st HI blk lp env c Hc Hfl He. exists env. split; [reflexivity | exact He].
  - intros sym expr st HI blk lp env c Hc Hfl He. exists env. split; [reflexivity | exact He].
  - intros sym st HI blk lp env c Hc Hfl He. exists env. split; [reflexivity | exact He].
Qed.

Lemma accepted_unique s st r st' blk lp env env1 c :
  Inv st -> scope st = Some c -> returns s st r st' ->
  flags_ok blk lp st -> env_ok env st c -> accepts blk lp env s = Some env1 ->
  Inv st' /\ scope st' = Some c /\ flags_ok blk lp st' /\ env_ok env1 st' c.
Proof.
  intros HI Hc Hr Hfl He Hacc.
  destruct (returns_good _ _ _ _ c Hr HI Hc) as [HI' Hfr].
  destruct (fr_scalars _ _ _ Hfr) as [E1 E2 E3 _ _ _ _].
  destruct (returns_accepted _ _ _ _ HI Hr blk lp env c Hc Hfl He) as (env' & Hacc' & He').
  split; [exact HI'|]. split; [congruence|]. split; [eapply flags_ok_eq; eauto|].
  rewrite Hacc in Hacc'. injection Hacc' as <-. exact He'.
Qed.

(** The analysis of a loop returns when the analysis of its body in the
    scope of the loop does. *)
Lemma loop_returns {A} n body (wrap : Stmt -> A) st c sc xs body' st2 :
  Inv st -> scope st = Some c -> scope_objs st !! c = Some sc ->
  list_objs st !! _active_vars sc = Some xs ->
  sem_stmt n body (opened_loop c xs st) = OK body' st2 ->
  (do! open_loop in
   let! b := sem_stmt n body in
   do! close_loop in
   ret (wrap b)) st = OK (wrap body') (restore st st2).
Proof.
  intros HI Hc Hsc Hxs Hb.
  destruct (loop_body_closes _ st c sc xs _ st2 (good_sem_stmt n body) HI Hc Hsc Hxs Hb)
    as (Hcl & _).
  rewrite (bind_eq open_loop _ st tt (opened_loop c xs st)) by (eapply open_loop_eq; eauto).
  rewrite (bind_eq _ _ _ _ _ Hb). rewrite (bind_eq _ _ _ _ _ Hcl). reflexivity.
Qed.

Lemma accepts_returns n :
  forall s st blk lp env env' c,
    (fuel_for s <= n)%nat -> Inv st -> scope st = Some c ->
    flags_ok blk lp st -> env_ok env st c ->
    accepts blk lp env s = Some env' ->
    exists r st', sem_stmt n s st = OK r st'.
Proof.
  induction n as [|n IH]; intros s st blk lp env env' c Hf HI Hc Hfl He Hacc.
  { pose proof (fuel_for_pos s). lia. }
  destruct (Inv_current _ HI) as (c' & sc & xs & Hc' & Hsc & Hxs).
  assert (c' = c) by congruence. subst c'. clear Hc'.
  destruct s; try discriminate.
  - (* block definition *)
    destruct name; try discriminate. destruct s; try discriminate.
    rewrite accepts_BlockDef in Hacc.
    destruct (accepts true false (ident :: env) (StmtList stmts)) as [env1|] eqn:E;
      [|discriminate].
    set (sym := mkSymbol ident (_next_sym_id st) block).
    set (st0 := declared c sc sym st).
    assert (HI0 : Inv st0) by (apply Inv_declared; auto).
    assert (Hc0 : scope st0 = Some c) by exact Hc.
    destruct (IH (StmtList (stmts ++ [ReturnStmt])) (opened_block c st0) true false
                (ident :: env) env1 (length (scope_objs st0))) as (body' & st2 & Hb).
    + change (fuel_for (BlockDefStmt (IdentExpression ident) (StmtList stmts)))
        with (S (S (fuel_for (StmtList stmts)))) in Hf.
      rewrite fuel_for_StmtList in *. rewrite fuel_for_all_app. simpl. lia.
    + apply Inv_opened_block; auto.
    + reflexivity.
    + apply (flags_ok_block st0); auto.
    + eapply (env_ok_child (ident :: env) st0 _ c); eauto; try reflexivity.
      apply env_ok_declared_block; auto.
    + rewrite accepts_snoc, E. reflexivity.
    + destruct (block_body_closes _ st0 c _ st2 (good_sem_stmt n _) HI0 Hc0 Hb) as (Hcl & _).
      rewrite sem_stmt_BlockDef_eq.
      rewrite (bind_eq _ _ _ _ _ (gen_block_sym_eq st c sc ident Hc Hsc)).
      rewrite (bind_eq _ _ _ _ _ (open_block_eq st0 c Hc0)).
      rewrite (bind_eq _ _ _ _ _ Hb). rewrite (bind_eq _ _ _ _ _ Hcl).
      cbv zeta. unfold bind, modify, ret. eexists. eexists. reflexivity.
  - (* list *)
    rewrite fuel_for_StmtList in Hf.
    assert (Hall : (fuel_for_all stmts <= n)%nat) by lia. clear Hf.
    assert (Hl : forall res, exists out st', sem_each (sem_stmt n) stmts res st = OK out st').
    { clear Hsc Hxs. revert st env HI Hc Hfl He Hacc Hall.
      induction stmts as [|x rest IHl]; intros st env HI Hc Hfl He Hacc Hall res.
      - simpl. eauto.
      - rewrite accepts_cons in Hacc.
        destruct (accepts blk lp env x) as [env1|] eqn:Ex; [|discriminate].
        simpl in Hall.
        destruct (IH x st blk lp env env1 c) as (r1 & st1 & Hr1); auto; [lia|].
        destruct (accepted_unique x st r1 st1 blk lp env env1 c HI Hc (ex_intro _ n Hr1)
                    Hfl He Ex) as (HI1 & Hc1 & Hfl1 & He1).
        destruct (IHl st1 env1 HI1 Hc1 Hfl1 He1 Hacc ltac:(lia)
                    (if truthy r1 then res ++ [r1] else res)) as (out & st' & Hout).
        exists out, st'. simpl. rewrite (bind_eq _ _ _ _ _ Hr1). exact Hout. }
    destruct (Hl []) as (out & st' & Hout).
    rewrite sem_stmt_StmtList_eq. rewrite (bind_eq _ _ _ _ _ Hout). eexists. eexists. reflexivity.
  - (* call *)
    destruct name; try discriminate.
    + simpl in Hacc. case_bool_decide as Hin; [|discriminate].
      apply He in Hin. destruct Hin as (sym & st0 & Hl).
      cbn [sem_stmt sem_stmt_body].
      rewrite (bind_eq _ _ st sym st0); [eexists; eexists; reflexivity|].
      rewrite (bind_eq the_scope _ st c st) by (apply the_scope_eq; exact Hc). exact Hl.
    + eexists. eexists. reflexivity.
  - (* command *)
    cbn [sem_stmt sem_stmt_body].
    rewrite (bind_eq the_scope _ st c st) by (apply the_scope_eq; auto).
    rewrite (bind_eq (deref c) _ st sc st) by (apply deref_eq; auto).
    rewrite (bind_eq _ _ _ _ _ (store_eq _ _ sc _ Hsc)). eexists. eexists. reflexivity.
  - (* conditional *)
    rewrite accepts_If in Hacc.
    destruct (accepts blk lp env s1) as [env1|] eqn:E1; [|discriminate].
    destruct (accepts blk lp env s2) as [env2|] eqn:E2; [|discriminate].
    change (fuel_for (IfStmt expr s1 s2)) with (S (Nat.max (fuel_for s1) (fuel_for s2))) in Hf.
    assert (HIb : Inv (entered_branch c xs st)) by (eapply Inv_entered_branch; eauto).
    assert (Heb : env_ok env (entered_branch c xs st) (length (scope_objs st)))
      by (eapply (env_ok_child env st _ c); eauto; reflexivity).
    destruct (IH s1 (entered_branch c xs st) blk lp env env1 (length (scope_objs st))
                ltac:(lia) HIb eq_refl Hfl Heb E1) as (bt' & st2 & Hbt).
    destruct (branch_body_closes _ st c sc xs _ st2 (good_sem_stmt n _) HI Hc Hsc Hxs Hbt)
      as (Hl1 & HI2 & HI3 & Hpr3).
    assert (Hc3 : scope (restore st st2) = Some c) by exact Hc.
    pose proof (pr_objs _ _ Hpr3 _ _ Hsc) as Hsc3.
    pose proof (pr_lists _ _ Hpr3 _ _ Hxs) as Hxs3.
    assert (HIb3 : Inv (entered_branch c xs (restore st st2)))
      by (eapply Inv_entered_branch; eauto).
    assert (Heb3 : env_ok env (entered_branch c xs (restore st st2))
                     (length (scope_objs (restore st st2)))).
    { eapply (env_ok_child env (restore st st2) _ c); eauto; try reflexivity.
      eapply (env_ok_preserved env st); eauto. }
    destruct (IH s2 (entered_branch c xs (restore st st2)) blk lp env env2
                (length (scope_objs (restore st st2))) ltac:(lia) HIb3 eq_refl Hfl Heb3 E2)
      as (bf' & st5 & Hbf).
    destruct (branch_body_closes _ _ c sc xs _ st5 (good_sem_stmt n _) HI3 Hc3 Hsc3 Hxs3 Hbf)
      as (Hl2 & _).
    rewrite sem_stmt_If_eq.
    rewrite (bind_eq _ _ _ _ _ (enter_branch_eq st c sc xs Hc Hsc Hxs)).
    rewrite (bind_eq _ _ _ _ _ Hbt). rewrite (bind_eq _ _ _ _ _ Hl1).
    rewrite (bind_eq _ _ _ _ _ (enter_branch_eq _ c sc xs Hc3 Hsc3 Hxs3)).
    rewrite (bind_eq _ _ _ _ _ Hbf). rewrite (bind_eq _ _ _ _ _ Hl2).
    eexists. eexists. reflexivity.
  - (* loop *)
    rewrite (accepts_loop blk lp env s _ (or_introl eq_refl)) in Hacc.
    destruct (accepts blk true env s) as [env1|] eqn:E1; [|discriminate].
    change (fuel_for (LoopStmt s)) with (S (fuel_for s)) in Hf.
    assert (HIb : Inv (opened_loop c xs st)) by (eapply Inv_opened_loop; eauto).
    assert (Hflb : flags_ok blk true (opened_loop c xs st))
      by (eapply (flags_ok_loop blk lp st); eauto).
    assert (Heb : env_ok env (opened_loop c xs st) (length (scope_objs st)))
      by (eapply (env_ok_child env st _ c); eauto; reflexivity).
    destruct (IH s (opened_loop c xs st) blk true env env1 (length (scope_objs st))
                ltac:(lia) HIb eq_refl Hflb Heb E1) as (b' & st2 & Hb).
    rewrite sem_stmt_Loop_eq. eexists. eexists.
    apply (loop_returns n s LoopStmt st c sc xs b' st2); auto.
  - (* while *)
    rewrite (accepts_loop blk lp env s _ (or_intror (or_introl (ex_intro _ expr eq_refl))))
      in Hacc.
    destruct (accepts blk true env s) as [env1|] eqn:E1; [|discriminate].
    change (fuel_for (WhileStmt expr s)) with (S (fuel_for s)) in Hf.
    assert (HIb : Inv (opened_loop c xs st)) by (eapply Inv_opened_loop; eauto).
    assert (Hflb : flags_ok blk true (opened_loop c xs st))
      by (eapply (flags_ok_loop blk lp st); eauto).
    assert (Heb : env_ok env (opened_loop c xs st) (length (scope_objs st)))
      by (eapply (env_ok_child env st _ c); eauto; reflexivity).
    destruct (IH s (opened_loop c xs st) blk true env env1 (length (scope_objs st))
                ltac:(lia) HIb eq_refl Hflb Heb E1) as (b' & st2 & Hb).
    rewrite sem_stmt_While_eq. eexists. eexists.
    apply (loop_returns n s (WhileStmt (sem_expr expr)) st c sc xs b' st2); auto.
  - (* until *)
    rewrite (accepts_loop blk lp env s _ (or_intror (or_intror (ex_intro _ expr eq_refl))))
      in Hacc.
    destruct (accepts blk true env s) as [env1|] eqn:E1; [|discriminate].
    change (fuel_for (UntilStmt expr s)) with (S (fuel_for s)) in Hf.
    assert (HIb : Inv (opened_loop c xs st)) by (eapply Inv_opened_loop; eauto).
    assert (Hflb : flags_ok blk true (opened_loop c xs st))
      by (eapply (flags_ok_loop blk lp st); eauto).
    assert (Heb : env_ok env (opened_loop c xs st) (length (scope_objs st)))
      by (eapply (env_ok_child env st _ c); eauto; reflexivity).
    destruct (IH s (opened_loop c xs st) blk true env env1 (length (scope_objs st))
                ltac:(lia) HIb eq_refl Hflb Heb E1) as (b' & st2 & Hb).
    rewrite sem_stmt_Until_eq. eexists. eexists.
    apply (loop_returns n s (until_desugared (sem_expr expr)) st c sc xs b' st2); auto.
  - (* times *)
    destruct s; try discriminate. rewrite accepts_Times in Hacc.
    destruct (accepts blk true env (StmtList stmts)) as [env1|] eqn:E1; [|discriminate].
    change (fuel_for (TimesStmt num (StmtList stmts)))
      with (S (S (S (fuel_for (StmtList stmts))))) in Hf.
    rewrite fuel_for_StmtList in Hf.
    set (var := mkSymbol ":anonymous:" (_next_sym_id st) variable).
    set (st1 := defined_var c sc xs st).
    set (sc1 := with_syms (_syms sc ++ [var]) sc).
    assert (HI1 : Inv st1) by (apply Inv_defined_var; auto).
    assert (Hc1 : scope st1 = Some c) by exact Hc.
    assert (Hsc1 : scope_objs st1 !! c = Some sc1).
    { simpl. apply list_lookup_insert_eq. eapply lookup_lt_Some; eauto. }
    assert (Hxs1 : list_objs st1 !! _active_vars sc1 = Some (xs ++ [var])).
    { simpl. apply list_lookup_insert_eq. eapply lookup_lt_Some; eauto. }
    assert (He1 : env_ok env st1 c).
    { apply (env_ok_kept env (declared c sc var st)); auto.
      - apply Inv_declared; auto.
      - apply env_ok_declared_var; auto. }
    assert (Hfw : (fuel_for (WhileStmt (counter_positive var)
                               (StmtList (stmts ++ [decrement var]))) <= n)%nat).
    { change (fuel_for (WhileStmt (counter_positive var) (StmtList (stmts ++ [decrement var]))))
        with (S (fuel_for (StmtList (stmts ++ [decrement var])))).
      rewrite fuel_for_StmtList, fuel_for_all_app. simpl. lia. }
    assert (Haw : accepts blk lp env (WhileStmt (counter_positive var)
                                        (StmtList (stmts ++ [decrement var]))) = Some env).
    { rewrite (accepts_loop blk lp env (StmtList (stmts ++ [decrement var])) _
                 (or_intror (or_introl (ex_intro _ _ eq_refl)))).
      rewrite accepts_snoc, E1. reflexivity. }
    destruct (IH _ st1 blk lp env env c Hfw HI1 Hc1 Hfl He1 Haw) as (w & st2 & Hw).
    destruct (sem_stmt_OK_fuel _ _ _ _ _ Hw) as [f ->].
    pose proof (good_strong_While f (counter_positive var)
                  (StmtList (stmts ++ [decrement var])) (good_sem_stmt f) st1 c HI1 Hc1) as Hg.
    rewrite Hw in Hg. destruct Hg as [HI2 Hpr].
    assert (Hc2 : scope st2 = Some c) by (rewrite (se_scope _ _ (pr_scalars _ _ Hpr)); auto).
    pose proof (pr_objs _ _ Hpr _ _ Hsc1) as Hsc2.
    pose proof (pr_lists _ _ Hpr _ _ Hxs1) as Hxs2.
    destruct (mark_var_dead_eq st2 c sc1 (xs ++ [var]) var HI2 Hc2 Hsc2 Hxs2) as (xs' & _ & Hk).
    { apply elem_of_app. right. apply list_elem_of_singleton. reflexivity. }
    rewrite sem_stmt_Times_eq.
    rewrite (bind_eq _ _ _ _ _ (def_var_eq st c sc xs HI Hc Hsc Hxs)).
    fold var st1. rewrite (bind_eq _ _ _ _ _ Hw). rewrite (bind_eq _ _ _ _ _ Hk).
    eexists. eexists. reflexivity.
  - (* return *)
    simpl in Hacc. destruct blk; [|discriminate].
    destruct (sem_Return_run n st c sc xs HI Hc Hsc Hxs) as (st' & Hrun & _).
    { apply Hfl. reflexivity. }
    eauto.
  - (* break *)
    simpl in Hacc. destruct lp; [|discriminate].
    eexists. eexists. apply sem_Break_inside. apply Hfl. reflexivity.
  - eexists. eexists. reflexivity.
  - eexists. eexists. reflexivity.
  - eexists. eexists. reflexivity.
Qed.

(** The check decides whether the analysis of a statement returns. *)
Lemma sem_stmt_accepts_iff fuel s st blk lp env c :
  Inv st -> scope st = Some c -> flags_ok blk lp st -> env_ok env st c ->
  (fuel_for s <= fuel)%nat ->
  is_Some (accepts blk lp env s) <-> exists r st', sem_stmt fuel s st = OK r st'.
Proof.
  intros HI Hc Hfl He Hf. split.
  - intros [env' Hacc]. eapply accepts_returns; eauto.
  - intros (r & st' & H).
    destruct (returns_accepted s st r st' HI (ex_intro _ fuel H) blk lp env c Hc Hfl He)
      as (env' & Hacc & _).
    exists env'. exact Hacc.
Qed.

Lemma env_ok_init prog : env_ok [] (Analyzer_init prog) 0%nat.
Proof.
  intros name. split; [intros H; inversion H|].
  intros (sym & st0 & H). discriminate H.
Qed.

Lemma flags_ok_init prog : flags_ok false false (Analyzer_init prog).
Proof. split; split; simpl; try discriminate; lia. Qed.

(** X14. [analyze_program] returns exactly on the programs that the check
    accepts at top level: every [return] is in the body of a block
    definition and every [break] in a loop of the same body (or of the top
    level); every call names, by a symbol, or by the name of a block defined
    before the call in the same statement list or in a list around it
    (the block being defined counts, so a block can call itself; a
    definition inside a conditional, a loop or another block does not
    count after it); every block definition is named by an identifier and
    has, like every [times], a statement list for a body; and there is no
    statement of another kind. *)
Theorem analysis_accepts_exactly fuel prog :
  (fuel_for (StmtList prog) <= fuel)%nat ->
  is_Some (accepts false false [] (StmtList prog))
  <-> exists st', run_analyzer fuel prog = OK tt st'.
Proof.
  intros Hf. split.
  - intros [env' Hacc].
    destruct (accepts_returns (S fuel) (StmtList prog) (Analyzer_init prog) false false []
                env' 0%nat ltac:(lia) (Inv_init prog) eq_refl (flags_ok_init prog)
                (env_ok_init prog) Hacc) as (r & st' & H).
    rewrite sem_stmt_StmtList_eq in H. bind_inv H as res st1 Hres. injection H as _ <-.
    exists (set_stmts res st1). unfold run_analyzer, analyze_program.
    rewrite (bind_eq get _ _ (Analyzer_init prog) (Analyzer_init prog)) by reflexivity.
    change (_stmts (Analyzer_init prog)) with prog.
    rewrite (bind_eq _ _ _ _ _ Hres). reflexivity.
  - intros (st' & H).
    destruct (analyze_program_returns _ _ _ _ H) as (res & st1 & Hr & _).
    destruct (returns_accepted _ _ _ _ (Inv_init prog) Hr false false [] 0%nat eq_refl
                (flags_ok_init prog) (env_ok_init prog)) as (env' & Hacc & _).
    exists env'. exact Hacc.
Qed.

Definition accepted_program : list Stmt :=
  [BlockDefStmt (IdentExpression "f")
     (StmtList [LoopStmt (StmtList [IfStmt (OpaqueExpression "c") ReturnStmt BreakStmt]);
                CallStmt (IdentExpression "f")]);
   TimesStmt 2 (StmtList [CallStmt (IdentExpression "f"); BreakStmt])].

Definition rejected_program : list Stmt :=
  [LoopStmt (StmtList [BlockDefStmt (IdentExpression "g") (StmtList [BreakStmt])])].

Lemma analysis_accepts_exactly_witness :
  (exists st', run_analyzer 11 accepted_program = OK tt st')
  /\ ~ (exists st', run_analyzer 11 rejected_program = OK tt st').
Proof.
  split.
  - apply (analysis_accepts_exactly 11 accepted_program); [vm_compute; lia|].
    vm_compute. eauto.
  - intros H. apply (analysis_accepts_exactly 11 rejected_program) in H; [|vm_compute; lia].
    vm_compute in H. destruct H as [x H]. discriminate H.
Defined.

(** * Every block has its definition *)

(** [sym] is a block symbol that some scope of the store declares. *)
Definition declared_block (st : Analyzer) (sym : Symbol) : Prop :=
  exists h sc, scope_objs st !! h = Some sc /\ sym ∈ _syms sc /\ sym_kind sym = block.

(** The definition of [sym] was collected, and [sym.defnode] is this
    definition. *)
Definition has_definition (st : Analyzer) (sym : Symbol) : Prop :=
  exists body,
    BlockDefStmt (SymExpression sym) body ∈ _block_defs st
    /\ (sym, BlockDefStmt (SymExpression sym) body) ∈ sym_defnode st.

(** [defined_since st st']: the blocks declared in [st'] were declared in
    [st] or have their definition in [st'], and no definition of [st] was
    lost. *)
Definition defined_since (st st' : Analyzer) : Prop :=
  (forall sym, declared_block st' sym -> declared_block st sym \/ has_definition st' sym)
  /\ (forall sym, has_definition st sym -> has_definition st' sym).

(** [no_new_block st st']: a step that declares no block and loses no
    definition. *)
Definition no_new_block (st st' : Analyzer) : Prop :=
  (forall sym, declared_block st' sym -> declared_block st sym)
  /\ (forall sym, has_definition st sym -> has_definition st' sym).

Lemma defined_since_trans s1 s2 s3 :
  defined_since s1 s2 -> defined_since s2 s3 -> defined_since s1 s3.
Proof.
  intros [D1 H1] [D2 H2]. split; [|auto].
  intros sym Hd. destruct (D2 sym Hd) as [Hd2|Hh]; [|auto].
  destruct (D1 sym Hd2) as [Hd1|Hh]; auto.
Qed.

Lemma no_new_block_defined_since st st' : no_new_block st st' -> defined_since st st'.
Proof. intros [D H]. split; auto. Qed.

Lemma no_new_block_refl st : no_new_block st st.
Proof. split; auto. Qed.

Lemma has_definition_eq st st' sym :
  _block_defs st' = _block_defs st -> sym_defnode st' = sym_defnode st ->
  has_definition st sym -> has_definition st' sym.
Proof. unfold has_definition. intros -> ->. auto. Qed.

(** A new scope without symbols. *)
Lemma no_new_block_child st st1 child :
  scope_objs st1 = scope_objs st ++ [child] -> _syms child = [] ->
  _block_defs st1 = _block_defs st -> sym_defnode st1 = sym_defnode st ->
  no_new_block st st1.
Proof.
  intros Ho Hs Hd Hn. split; [|intros sym; apply has_definition_eq; auto].
  intros sym (h & sc & Hh & Hin & Hk). rewrite Ho in Hh.
  apply lookup_snoc_Some in Hh as [[_ Hh]|[_ <-]].
  - exists h, sc. auto.
  - rewrite Hs in Hin. inversion Hin.
Qed.

(** The scope objects have the symbols they had. *)
Lemma no_new_block_syms st st' :
  (forall h sc', scope_objs st' !! h = Some sc' ->
     exists sc, scope_objs st !! h = Some sc /\ _syms sc' = _syms sc) ->
  _block_defs st' = _block_defs st -> sym_defnode st' = sym_defnode st ->
  no_new_block st st'.
Proof.
  intros Ho Hd Hn. split; [|intros sym; apply has_definition_eq; auto].
  intros sym (h & sc' & Hh & Hin & Hk). destruct (Ho h sc' Hh) as (sc & Hsc & E).
  exists h, sc. rewrite <- E. auto.
Qed.

Lemma no_new_block_update st st' c sc sc' :
  scope_objs st !! c = Some sc -> scope_objs st' = <[c:=sc']> (scope_objs st) ->
  _syms sc' = _syms sc ->
  _block_defs st' = _block_defs st -> sym_defnode st' = sym_defnode st ->
  no_new_block st st'.
Proof.
  intros Hsc Ho Hs. apply no_new_block_syms. intros h s Hh. rewrite Ho in Hh.
  destruct (decide (h = c)) as [->|Hne].
  - rewrite list_lookup_insert_eq in Hh by (eapply lookup_lt_Some; eauto).
    injection Hh as <-. exists sc. auto.
  - rewrite list_lookup_insert_ne in Hh by auto. exists s. auto.
Qed.

(** Declaring a symbol in scope [c]. *)
Lemma declared_block_declared st c sc sym x :
  scope_objs st !! c = Some sc ->
  declared_block (declared c sc sym st) x -> declared_block st x \/ x = sym.
Proof.
  intros Hsc (h & s & Hh & Hin & Hk). simpl in Hh. destruct (decide (h = c)) as [->|Hne].
  - rewrite list_lookup_insert_eq in Hh by (eapply lookup_lt_Some; eauto).
    injection Hh as <-. simpl in Hin. apply elem_of_app in Hin as [Hin|Hin].
    + left. exists c, sc. auto.
    + right. apply list_elem_of_singleton in Hin. exact Hin.
  - rewrite list_lookup_insert_ne in Hh by auto. left. exists h, s. auto.
Qed.

Lemma defined_since_scoped st st1 st2 :
  no_new_block st st1 -> defined_since st1 st2 -> defined_since st (restore st st2).
Proof.
  intros Hn Hd. eapply defined_since_trans; [apply no_new_block_defined_since; exact Hn|].
  eapply defined_since_trans; [exact Hd|]. apply no_new_block_defined_since.
  apply no_new_block_syms; try reflexivity. intros h sc Hh. exists sc. auto.
Qed.

Lemma sem_stmt_defined_since stmt st r st' :
  Inv st -> returns stmt st r st' -> defined_since st st'.
Proof.
  revert stmt st r st'. apply (returns_ind (fun _ st _ st' => defined_since st st')).
  - (* block definition *)
    intros ident stmts st c sc body' st2 HI Hc Hsc sym st0 HI0 (_ & _ & [D H]) _.
    assert (Hnew : has_definition (recorded_def sym body' (restore st0 st2)) sym).
    { exists body'. simpl. split; [apply elem_of_app; right|]; apply elem_of_cons; auto. }
    assert (Hkeep : forall x, has_definition st2 x ->
                      has_definition (recorded_def sym body' (restore st0 st2)) x).
    { intros x (b & H1 & H2). exists b. simpl.
      split; [apply elem_of_app; left | apply elem_of_cons; right]; assumption. }
    split.
    + intros x (h & s & Hh & Hin & Hk).
      destruct (D x) as [Hd|Hd]; [exists h, s; auto | | auto].
      destruct (no_new_block_child st0 (opened_block c st0)
                  (mkScope (Some c) [] ∅ (length (list_objs st0)) ∅ true)
                  eq_refl eq_refl eq_refl eq_refl) as [Hc0 _].
      destruct (declared_block_declared st c sc sym x Hsc (Hc0 x Hd)) as [? | ->]; auto.
    + intros x Hx. apply Hkeep, H. exact Hx.
  - (* list *)
    intros stmts st rs st' _ H.
    induction H as [st|s rest st r st1 rs st' _ (_ & _ & Hs) _ IH].
    + apply no_new_block_defined_since, no_new_block_refl.
    + eapply defined_since_trans; eauto.
  - intros. apply no_new_block_defined_since, no_new_block_refl.
  - intros. apply no_new_block_defined_since, no_new_block_refl.
  - intros command st c sc HI Hc Hsc. apply no_new_block_defined_since.
    eapply (no_new_block_update st _ c sc); eauto; reflexivity.
  - (* conditional *)
    intros expr bt bf st c sc xs bt' st2 bf' st5 HI Hc Hsc Hxs (_ & _ & H1) _ _ (_ & _ & H2) _.
    eapply defined_since_trans.
    + apply (defined_since_scoped st (entered_branch c xs st) st2); [|exact H1].
      eapply no_new_block_child; reflexivity.
    + apply (defined_since_scoped (restore st st2) (entered_branch c xs (restore st st2)) st5);
        [|exact H2].
      eapply no_new_block_child; reflexivity.
  - intros body st c sc xs body' st2 HI Hc Hsc Hxs (_ & _ & H1) _.
    apply (defined_since_scoped st (opened_loop c xs st) st2); [|exact H1].
    eapply no_new_block_child; reflexivity.
  - intros expr body st c sc xs body' st2 HI Hc Hsc Hxs (_ & _ & H1) _.
    apply (defined_since_scoped st (opened_loop c xs st) st2); [|exact H1].
    eapply no_new_block_child; reflexivity.
  - intros expr body st c sc xs body' st2 HI Hc Hsc Hxs (_ & _ & H1) _.
    apply (defined_since_scoped st (opened_loop c xs st) st2); [|exact H1].
    eapply no_new_block_child; reflexivity.
  - (* times *)
    intros num stmts st c sc xs w st2 HI Hc Hsc Hxs var st1 HI1 (_ & _ & H1) Hpr.
    assert (Hsc1 : scope_objs st1 !! c = Some (with_syms (_syms sc ++ [var]) sc)).
    { simpl. apply list_lookup_insert_eq. eapply lookup_lt_Some; eauto. }
    eapply defined_since_trans; [|eapply defined_since_trans; [exact H1|]].
    + apply no_new_block_defined_since. split; [|auto].
      intros x Hx. destruct (declared_block_declared st c sc var x Hsc Hx) as [Hd|E];
        [exact Hd|].
      subst x. destruct Hx as (h & s & Hh & Hin & Hk). discriminate Hk.
    + apply no_new_block_defined_since.
      eapply (no_new_block_update st2 _ c (with_syms (_syms sc ++ [var]) sc)); eauto;
        try reflexivity.
      apply (pr_objs _ _ Hpr). exact Hsc1.
  - (* return *)
    intros st c sc xs st' HI Hc Hsc Hxs _ _ _ Hsf. apply no_new_block_defined_since.
    apply no_new_block_syms; [apply (sf_syms _ _ Hsf) | apply (sf_defs _ _ Hsf)
                              | apply (sf_defnode _ _ Hsf)].
  - intros. apply no_new_block_defined_since, no_new_block_refl.
  - intros. apply no_new_block_defined_since, no_new_block_refl.
  - intros. apply no_new_block_defined_since, no_new_block_refl.
  - intros. apply no_new_block_defined_since, no_new_block_refl.
Qed.

(** X15. When [analyze_program] returns, every block symbol that a scope
    declares has its definition among the collected definitions, and the
    symbol is linked to it; so whatever a call resolved to has a
    definition. *)
Theorem every_block_has_its_definition fuel prog u st' :
  run_analyzer fuel prog = OK u st' ->
  forall h sc sym,
    scope_objs st' !! h = Some sc -> sym ∈ _syms sc -> sym_kind sym = block ->
    exists body,
      BlockDefStmt (SymExpression sym) body ∈ _block_defs st'
      /\ (sym, BlockDefStmt (SymExpression sym) body) ∈ sym_defnode st'.
Proof.
  intros H h sc sym Hh Hin Hk.
  destruct (analyze_program_returns _ _ _ _ H) as (res & st1 & Hr & ->).
  destruct (sem_stmt_defined_since _ _ _ _ (Inv_init prog) Hr) as [D _].
  destruct (D sym) as [(h0 & s0 & Hh0 & Hin0 & _)|Hd].
  - exists h, sc. auto.
  - apply lookup_single in Hh0 as [_ ->]. inversion Hin0.
  - exact Hd.
Qed.

Lemma every_block_has_its_definition_witness :
  exists body,
    BlockDefStmt (SymExpression (mkSymbol "f" 0 block)) body
    ∈ _block_defs (result_state (Analyzer_init []) (run_analyzer 11 accepted_program)).
Proof.
  destruct (every_block_has_its_definition 11 accepted_program tt
              (result_state (Analyzer_init []) (run_analyzer 11 accepted_program))
              ltac:(vm_compute; reflexivity) 0%nat
              (result_value (mkScope None [] ∅ 0 ∅ true)
                 (deref 0 (result_state (Analyzer_init []) (run_analyzer 11 accepted_program))))
              (mkSymbol "f" 0 block))
    as (body & Hb & _).
  - vm_compute. reflexivity.
  - vm_compute. apply elem_of_cons. left. reflexivity.
  - reflexivity.
  - exists body. exact Hb.
Defined.

(** * Killing across the boundary of a scope *)

(** X16. A variable that is active in the current scope: in a block scope
    opened from it, killing the variable raises the [SemError] for a
    variable that is not local to the block (cleanup does not cross a block
    boundary); in a branch scope entered from it, killing the variable
    returns, and takes it from the active list of the branch only. *)
Theorem kill_across_boundaries st c sc xs sym :
  Inv st -> scope st = Some c -> scope_objs st !! c = Some sc ->
  list_objs st !! _active_vars sc = Some xs -> sym ∈ xs ->
  let b := length (scope_objs st) in
  kill_var b sym (opened_block c st) = Raise (SemError KillNotBlockLocal)
  /\ exists xs' st2,
       kill_var b sym (entered_branch c xs st) = OK tt st2
       /\ remove_first sym xs = Some xs'
       /\ list_objs st2 !! S (length (list_objs st)) = Some xs'
       /\ list_objs st2 !! _active_vars sc = Some xs.
Proof.
  intros HI Hc Hsc Hxs Hin b. subst b.
  assert (Hll : (_active_vars sc < length (list_objs st))%nat)
    by (eapply lookup_lt_Some; eauto).
  split.
  - apply kill_var_not_local.
    + apply (inv_wf _ (Inv_opened_block st c HI Hc)).
    + simpl. rewrite length_app. simpl. lia.
    + intros (h' & sc' & Hp & Hsc' & Hin'). simpl in Hp, Hsc'.
      inversion Hp as [h0 s0 Hh0|h0 s0 p h1 Hh0 Hb0 Hp0 _]; subst.
      * rewrite lookup_snoc_here in Hsc'. injection Hsc' as <-. inversion Hin'.
      * rewrite lookup_snoc_here in Hh0. injection Hh0 as <-. discriminate Hb0.
  - set (st1 := entered_branch c xs st).
    set (child := mkScope (Some c) [] ∅ (S (length (list_objs st))) ∅ false).
    assert (HI1 : Inv st1) by (eapply Inv_entered_branch; eauto).
    assert (Hch : scope_objs st1 !! length (scope_objs st) = Some child)
      by (simpl; apply lookup_snoc_here).
    assert (Hl1 : list_objs st1 !! _active_vars child = Some xs).
    { simpl. rewrite lookup_app_r by lia.
      replace (S (length (list_objs st)) - length (list_objs st))%nat with 1%nat by lia.
      reflexivity. }
    destruct (kill_var_eq st1 _ child xs sym HI1 Hch Hl1 Hin) as (xs' & Hrm & Hk).
    exists xs', (killed_var (length (scope_objs st)) child sym xs' st1).
    split; [exact Hk|]. split; [exact Hrm|]. simpl. split.
    + apply list_lookup_insert_eq. rewrite length_app. simpl. lia.
    + rewrite list_lookup_insert_ne by lia. rewrite lookup_app_l by lia. exact Hxs.
Qed.

Lemma kill_across_boundaries_witness :
  kill_var 2 (anonymous 1) (opened_block 1 three_vars_state)
  = Raise (SemError KillNotBlockLocal)
  /\ exists st2,
       kill_var 2 (anonymous 1) (entered_branch 1 [anonymous 0; anonymous 1; anonymous 2]
                                   three_vars_state) = OK tt st2
       /\ list_objs st2 !! 3%nat = Some [anonymous 0; anonymous 2]
       /\ list_objs st2 !! 1%nat = Some [anonymous 0; anonymous 1; anonymous 2].
Proof.
  destruct (kill_across_boundaries three_vars_state 1
              (mkScope (Some 0%nat) [anonymous 0; anonymous 1; anonymous 2] ∅ 1 ∅ true)
              [anonymous 0; anonymous 1; anonymous 2] (anonymous 1) Inv_three_vars_state)
    as (H1 & xs' & st2 & H2 & H3 & H4 & H5);
    [reflexivity | vm_compute; reflexivity | vm_compute; reflexivity | |].
  - apply elem_of_cons. right. apply elem_of_cons. left. reflexivity.
  - split; [exact H1|]. exists st2. split; [exact H2|]. split; [|exact H5].
    vm_compute in H3. injection H3 as <-. exact H4.
Defined.

(** * The analysis ends *)

(** X17. The recursion of [sem_stmt] on a statement is at most [fuel_for] deep
    ([fuel_for] is computed from the nesting of the statement, with room
    for the statements that the analysis appends to the body of a block
    definition and of a [times]), and the walks of [lookup_block_by_name]
    and [is_block_local_var] up the scopes end at the root: from a state
    satisfying the invariant, with at least that much fuel, no run ends for
    lack of fuel, and the result is the same whatever the fuel is. *)
Theorem analysis_ends fuel stmt st :
  Inv st -> (fuel_for stmt <= fuel)%nat ->
  sem_stmt fuel stmt st <> Raise OutOfFuel
  /\ sem_stmt fuel stmt st = sem_stmt (fuel_for stmt) stmt st.
Proof.
  intros HI Hf. split.
  - apply (sem_stmt_enough_fuel fuel stmt Hf st HI).
  - apply sem_stmt_fuel_independent; auto.
Qed.

Lemma analysis_ends_witness :
  sem_stmt 40 balance_demo times_in_block_state <> Raise OutOfFuel
  /\ sem_stmt 40 balance_demo times_in_block_state
     = sem_stmt (fuel_for balance_demo) balance_demo times_in_block_state.
Proof.
  apply (analysis_ends 40 balance_demo times_in_block_state Inv_times_in_block_state).
  vm_compute. lia.
Defined.

(** * [src/combat_math.py]: the stacking id of a spell effect *)

(** Indemnity and Aegis. *)
Definition enchantments_not_stackable_with_unenchanted : gset Z :=
  {[ 655113637; 85300353 ]}.

(** [spell_effect_stacking_id(spell_template_id,
    enchantment_spell_template_id)]; the ids are Python integers. *)
Definition spell_effect_stacking_id (spell_template_id enchantment_spell_template_id : Z)
    : Z * Z :=
  let enchantment_spell_template_id :=
    if bool_decide (enchantment_spell_template_id ∈ enchantments_not_stackable_with_unenchanted)
    then 0
    else enchantment_spell_template_id in
  (spell_template_id, enchantment_spell_template_id).

(** For stacking, the enchantment counts as none. *)
Definition counts_as_unenchanted (enchantment : Z) : Prop :=
  enchantment = 0 \/ enchantment = 655113637 \/ enchantment = 85300353.

Lemma stacking_id_second a b :
  snd (spell_effect_stacking_id a b) = 0 <-> counts_as_unenchanted b.
Proof.
  unfold spell_effect_stacking_id, counts_as_unenchanted,
    enchantments_not_stackable_with_unenchanted. simpl.
  case_bool_decide as H.
  - apply elem_of_union in H as [H|H]; apply elem_of_singleton in H; subst; split; auto.
  - split; [auto|]. intros [-> | [-> | ->]]; [reflexivity| |]; exfalso; apply H.
    + apply elem_of_union. left. apply elem_of_singleton. reflexivity.
    + apply elem_of_union. right. apply elem_of_singleton. reflexivity.
Qed.

(** X18. Two effects have the same stacking id (and so do not stack) exactly
    when they come from the same spell and either carry the same
    enchantment or each carries none, Indemnity or Aegis: an effect
    enchanted with Indemnity or Aegis does not stack with the unenchanted
    effect of the same spell, nor with the one enchanted with the other of
    the two. *)
Theorem stacking_id_collision a b c d :
  spell_effect_stacking_id a b = spell_effect_stacking_id c d
  <-> a = c /\ (b = d \/ (counts_as_unenchanted b /\ counts_as_unenchanted d)).
Proof.
  pose proof (stacking_id_second a b) as Hb. pose proof (stacking_id_second c d) as Hd.
  unfold spell_effect_stacking_id in *. simpl in *.
  destruct (bool_decide (b ∈ enchantments_not_stackable_with_unenchanted));
    destruct (bool_decide (d ∈ enchantments_not_stackable_with_unenchanted)); split.
  - intros [= ->]. split; [reflexivity|]. right. split; [apply Hb | apply Hd]; reflexivity.
  - intros [-> _]. reflexivity.
  - intros [= -> <-]. split; [reflexivity|]. right. split; [apply Hb | apply Hd]; reflexivity.
  - intros [-> [<- | [_ H]]]; [f_equal; symmetry; apply Hd, Hb; reflexivity|].
    apply Hd in H. rewrite H. reflexivity.
  - intros [= -> ->]. split; [reflexivity|]. right. split; [apply Hb | apply Hd]; reflexivity.
  - intros [-> [-> | [H _]]]; [f_equal; apply Hb, Hd; reflexivity|].
    apply Hb in H. rewrite H. reflexivity.
  - intros [= -> ->]. auto.
  - intros [-> [-> | [H1 H2]]]; [reflexivity|]. apply Hb in H1. apply Hd in H2. congruence.
Qed.

Lemma stacking_id_collision_witness :
  spell_effect_stacking_id 42 655113637 = spell_effect_stacking_id 42 0
  /\ spell_effect_stacking_id 42 655113637 = spell_effect_stacking_id 42 85300353
  /\ spell_effect_stacking_id 42 7 <> spell_effect_stacking_id 42 0.
Proof.
  split; [|split].
  - apply (stacking_id_collision 42 655113637 42 0). split; [reflexivity|].
    right. unfold counts_as_unenchanted. split; [right; left; reflexivity | left; reflexivity].
  - apply (stacking_id_collision 42 655113637 42 85300353). split; [reflexivity|].
    right. unfold counts_as_unenchanted.
    split; [right; left; reflexivity | right; right; reflexivity].
  - intros H. apply (stacking_id_collision 42 7 42 0) in H. destruct H as [_ [H|[H _]]].
    + discriminate H.
    + destruct H as [H|[H|H]]; discriminate H.
Defined.
